(** * Xpersona: the interactive / self-play decoding script

    A shallow embedding of [multilingual/interact_id.py]: the assembly of
    the encoder and decoder inputs ([build_input_from_segments]), the top-k /
    nucleus filter ([top_filtering]), the decoding loop ([sample_sequence])
    and the driver ([run]) with its console, its random sources and the
    transcript file made explicit.

    Conventions.
    - Token ids are Python ints: [Z].
    - A tensor of logits is a list of [logit]: the value of a float32, which
      is a rational, or minus infinity.  Logits are compared and sorted as
      these values; NaN and plus infinity are outside the model.
    - A tensor of probabilities is a list over a type of float32 entries that
      is a parameter, as are the operations of torch that compute with
      rounding: the division by the temperature, the softmax, the cumulative
      sums and the comparisons of their results ([Torch]).
    - A text is a [string]: its UTF-8 bytes.
    - A Python exception is a value [Raise e] of [result]; a loop that did
      not finish within the fuel it was given is [Timeout]. *)

From Stdlib Require Import ZArith QArith Lqa List Bool Lia String Ascii Permutation Sorted.
From stdpp Require Import base gmap strings list.

Import ListNotations.
Local Open Scope Z_scope.
Local Open Scope string_scope.
Local Open Scope list_scope.

(** ** Exceptions and results *)

Inductive exn : Type :=
| KeyError (key : string)
| IndexError
| ValueError
| EOFError
| SystemExit (code : Z)
| ExternalError (what : string).

Inductive result (A : Type) : Type :=
| Ok (a : A)
| Raise (e : exn)
| Timeout.

Arguments Ok {A} a.
Arguments Raise {A} e.
Arguments Timeout {A}.

(** The value of a result that is not an exception. *)
Definition ok_value {A : Type} (r : result A) : option A :=
  match r with
  | Ok a => Some a
  | _ => None
  end.

Definition rbind {A B : Type} (r : result A) (k : A -> result B) : result B :=
  match r with
  | Ok a => k a
  | Raise e => Raise e
  | Timeout => Timeout
  end.

Notation "'let*' x ':=' r 'in' k" := (rbind r (fun x => k))
  (at level 10, x pattern, r at level 100, k at level 200).

(** [d[k]] on a dict with string keys. *)
Definition getitem {V : Type} (d : gmap string V) (k : string) : result V :=
  match d !! k with
  | Some v => Ok v
  | None => Raise (KeyError k)
  end.

(** [[f(x) for x in xs]] where [f] may raise: the first failure wins. *)
Fixpoint rmap {A B : Type} (f : A -> result B) (xs : list A) : result (list B) :=
  match xs with
  | [] => Ok []
  | x :: xs' =>
      let* y := f x in
      let* ys := rmap f xs' in
      Ok (y :: ys)
  end.

(** ** build_input_from_segments *)

Record instance : Type := Instance {
  input_ids : list Z;
  token_type_ids : list Z;
  lm_labels : list Z;
  lang_id : list Z
}.

(** [SPECIAL_TOKENS] is imported from [train_id], which is not part of the
    sources at hand: it is a parameter of the development. *)
Class TrainId : Type := { SPECIAL_TOKENS : list string }.

Section Segments.

Context `{TrainId}.

(** [personality = []; for sent in persona: personality += [persona_token] + sent] *)
Fixpoint flatten_persona (persona_token : Z) (persona : list (list Z)) : list Z :=
  match persona with
  | [] => []
  | sent :: rest => (persona_token :: sent) ++ flatten_persona persona_token rest
  end.

(** [speaker2 if i % 2 else speaker1] *)
Definition speaker_of (speaker1 speaker2 : Z) (i : nat) : Z :=
  if Nat.odd i then speaker2 else speaker1.

Definition build_input_from_segments
    (persona history : list (list Z)) (reply : list Z)
    (lang : string) (special_map : gmap string Z)
    (with_labels with_eos : bool) : result instance :=
  let* specials := rmap (getitem special_map) (take 5 SPECIAL_TOKENS) in
  match specials with
  | [bos; eos; persona_token; speaker1; speaker2] =>
      let* lang_tok := getitem special_map lang in
      let lang_id_token := [lang_tok] in
      let personality := flatten_persona persona_token persona in
      let sequence := personality :: history in
      let sequence :=
        hd [] sequence ::
        imap (fun i s => speaker_of speaker1 speaker2 i :: s) (tl sequence) in
      let response := (bos :: reply) ++ (if with_eos then [eos] else []) in
      Ok {| input_ids := concat sequence;
            token_type_ids :=
              replicate (length (hd [] sequence)) persona_token ++
              concat (imap (fun i s => replicate (length s)
                                         (speaker_of speaker1 speaker2 i))
                           (tl sequence));
            lm_labels :=
              if with_labels then response
              else replicate (length response) (-1);
            lang_id := lang_id_token |}
  | _ => Raise ValueError
  end.

End Segments.

(** ** Logits *)

Inductive logit : Type :=
| NegInf
| Fin (q : Q).

(** [a < b] on tensor entries. *)
Definition Qltb (a b : Q) : bool := negb (Qle_bool b a).

Definition logit_ltb (a b : logit) : bool :=
  match a, b with
  | NegInf, NegInf => false
  | NegInf, Fin _ => true
  | Fin _, NegInf => false
  | Fin x, Fin y => Qltb x y
  end.

Definition logit_leb (a b : logit) : bool := negb (logit_ltb b a).

(** [torch.sort(logits, descending=True)]: values paired with their original
    positions.  Ties keep their original order (torch leaves the order of
    ties unspecified). *)
Fixpoint insert_desc (x : logit * nat) (l : list (logit * nat)) : list (logit * nat) :=
  match l with
  | [] => [x]
  | y :: l' =>
      if logit_leb (fst y) (fst x) then x :: y :: l'
      else y :: insert_desc x l'
  end.

Definition sort_desc (l : list (logit * nat)) : list (logit * nat) :=
  foldr insert_desc [] l.

Definition torch_sort_desc (logits : list logit) : list logit * list nat :=
  let s := sort_desc (zip logits (seq 0 (length logits))) in
  (map fst s, map snd s).

(** Descending order on the entries paired with their positions. *)
Definition desc (x y : logit * nat) : Prop := logit_leb (fst y) (fst x) = true.

(** ** Tensors of probabilities

    The probabilities that the script computes are entries of float32
    tensors, produced and compared by torch.  The development takes these
    operations as parameters, so that its theorems hold for the arithmetic of
    torch as for any other: it assumes of them only that they keep the shape
    of their argument. *)
Class Torch : Type := {
  (** an entry of a tensor of probabilities *)
  float32 : Type;
  (** [logits / number], entry by entry *)
  true_divide : list logit -> Q -> list logit;
  (** [F.softmax(logits, dim=-1)] *)
  softmax : list logit -> list float32;
  (** [torch.cumsum(probs, dim=-1)] *)
  cumsum : list float32 -> list float32;
  (** an entry of [probs > number] *)
  gt : float32 -> Q -> bool;
  (** [torch.topk(probs, 1)[1]]: a position of the largest entry *)
  topk1 : list float32 -> result nat;
  (** [probs.max().item() == 1] *)
  max_is_one : list float32 -> bool
}.

Class TorchLaws `{Torch} : Prop := {
  softmax_length : forall logits, length (softmax logits) = length logits;
  cumsum_length : forall probs, length (cumsum probs) = length probs
}.

Section Filtering.

Context `{Torch}.

(** [logits[mask] = value] for a boolean mask *)
Definition mask_fill (logits : list logit) (mask : list bool) (value : logit) : list logit :=
  zip_with (fun l (b : bool) => if b then value else l) logits mask.

(** [logits[indices] = value] for a tensor of positions *)
Definition index_fill (logits : list logit) (indices : list nat) (value : logit) : list logit :=
  foldl (fun acc i => <[i := value]> acc) logits indices.

(** [indices[mask]] *)
Definition mask_select (indices : list nat) (mask : list bool) : list nat :=
  map fst (filter (fun p => Is_true (snd p)) (zip indices mask)).

(** [torch.topk(logits, k)[0][..., -1]]: the k-th largest entry *)
Definition topk_last (logits : list logit) (k : nat) : logit :=
  nth (k - 1) (fst (torch_sort_desc logits)) NegInf.

(** [mask[..., 1:] = mask[..., :-1].clone(); mask[..., 0] = 0] *)
Definition shift_right (mask : list bool) : result (list bool) :=
  let shifted := take 1 mask ++ take (length mask - 1) mask in
  match shifted with
  | [] => Raise IndexError
  | _ :: rest => Ok (false :: rest)
  end.

Definition top_filtering (logits : list logit) (top_k : Z) (top_p : Q)
    (threshold filter_value : logit) : result (list logit) :=
  let top_k := Z.min top_k (Z.of_nat (length logits)) in
  let logits :=
    if (0 <? top_k)%Z then
      let kth := topk_last logits (Z.to_nat top_k) in
      let indices_to_remove := map (fun l => logit_ltb l kth) logits in
      mask_fill logits indices_to_remove filter_value
    else logits in
  let* logits :=
    if Qltb 0 top_p then
      let '(sorted_logits, sorted_indices) := torch_sort_desc logits in
      let cumulative_probabilities := cumsum (softmax sorted_logits) in
      let sorted_indices_to_remove :=
        map (fun c => gt c top_p) cumulative_probabilities in
      let* sorted_indices_to_remove := shift_right sorted_indices_to_remove in
      let indices_to_remove := mask_select sorted_indices sorted_indices_to_remove in
      Ok (index_fill logits indices_to_remove filter_value)
    else Ok logits in
  let indices_to_remove := map (fun l => logit_ltb l threshold) logits in
  Ok (mask_fill logits indices_to_remove filter_value).

End Filtering.

(** ** Exact arithmetic

    The same operations on rational numbers, without rounding: the
    arithmetic in which a claim about probabilities reads as mathematics,
    and the one the concrete environment below runs.  The exponential has no
    rational counterpart: it is a parameter, of which the lemmas assume
    positivity and monotonicity only. *)

(** The cumulative sums of a list. *)
Fixpoint exact_cumsum_from (acc : Q) (l : list Q) : list Q :=
  match l with
  | [] => []
  | x :: l' => (acc + x)%Q :: exact_cumsum_from (acc + x)%Q l'
  end.

Definition exact_cumsum (l : list Q) : list Q := exact_cumsum_from 0%Q l.

Definition Qsum (l : list Q) : Q := foldr Qplus 0%Q l.

Class Exponential : Type := { qexp : Q -> Q }.

Class ExponentialLaws `{Exponential} : Prop := {
  qexp_pos : forall x, (0 < qexp x)%Q;
  qexp_mono : forall x y, (x <= y)%Q -> (qexp x <= qexp y)%Q
}.

(** A logit divided by a number. *)
Definition scale (t : Q) (l : logit) : logit :=
  match l with
  | NegInf => NegInf
  | Fin x => Fin (x / t)
  end.

(** The largest entry of a list of non-negative numbers. *)
Definition Qmax_list (l : list Q) : Q :=
  foldr (fun x m => if Qle_bool m x then x else m) 0%Q l.

(** The first position of the largest entry. *)
Fixpoint exact_argmax_from (best : nat) (bestv : Q) (i : nat) (l : list Q) : nat :=
  match l with
  | [] => best
  | x :: l' =>
      if Qltb bestv x then exact_argmax_from i x (S i) l'
      else exact_argmax_from best bestv (S i) l'
  end.

Definition exact_argmax (l : list Q) : result nat :=
  match l with
  | [] => Raise (ExternalError "RuntimeError")
  | x :: l' => Ok (exact_argmax_from 0%nat x 1%nat l')
  end.

Section Exact.

Context `{Exponential}.

Definition weight (l : logit) : Q :=
  match l with
  | NegInf => 0%Q
  | Fin x => qexp x
  end.

(** The softmax of a tensor: each weight divided by the sum of all. *)
Definition exact_softmax (logits : list logit) : list Q :=
  let ws := map weight logits in
  let total := Qsum ws in
  map (fun w => (w / total)%Q) ws.

Definition exact_torch : Torch := {|
  float32 := Q;
  true_divide := fun logits t => map (scale t) logits;
  softmax := exact_softmax;
  cumsum := exact_cumsum;
  gt := fun c top_p => Qltb top_p c;
  topk1 := exact_argmax;
  max_is_one := fun probs => Qeq_bool (Qmax_list probs) 1
|}.

End Exact.

#[export] Existing Instance exact_torch.

(** ** The environment of the script *)

(** A loaded tokenizer: [encode] and [decode(..., skip_special_tokens=True)]. *)
Record tokenizer : Type := Tokenizer {
  encode : string -> list Z;
  decode : list Z -> string
}.

(** A loaded encoder-decoder model, seen through the one call the script
    makes: from the encoder ids, the decoder ids, the two token-type tensors
    and the two attention masks to the logits of the last decoder position
    ([logits[0, -1, :]]). *)
Definition seq2seq : Type :=
  list Z -> list Z -> list Z -> list Z -> list Z -> list Z -> result (list logit).

(** [dataset[split][language]]: the personas of the dialogs of a split. *)
Abbreviation dataset := (gmap string (gmap string (list (list (list Z))))).

(** What the script imports: the random sources of [random] and [torch],
    [float], the loaders of [transformers], [json] and [utils], and the
    parts of the file system it touches. *)
Class Externals `{Torch} : Type := {
  rng : Type;
  manual_seed : Z -> rng -> rng;
  randbelow : nat -> rng -> nat * rng;
  multinomial : list float32 -> rng -> result nat * rng;
  py_float : string -> option Q;
  cuda_is_available : bool;
  config : Type;
  tokenizer_from_pretrained : string -> result tokenizer;
  config_from_pretrained : string -> result config;
  set_is_decoder : config -> config;
  model_from_pretrained : string -> config -> result seq2seq;
  open_read : string -> result string;
  json_load : string -> result (gmap string Z);
  load_state_dict : seq2seq -> string -> result seq2seq;
  get_dataset : tokenizer -> string -> string -> result dataset;
  open_append : string -> result unit
}.

(** One entry of a transcript and the object dumped per conversation. *)
Record turn : Type := Turn { speaker : string; text : string }.
Record transcript : Type := Transcript { dialog : list turn }.

(** What is written to a file: [json.dump(obj, f)] or [f.write(s)]. *)
Inductive chunk : Type :=
| Dump (obj : transcript)
| Text (s : string).

Section World.

Context `{Externals}.

(** The state the script acts on.  [calls] is a ghost trace: the history
    passed to each finished call of [sample_sequence] and the reply it
    returned. *)
Record world : Type := World {
  rng_state : rng;
  stdin : list string;
  stdout : list string;
  warnings : list string;
  files : gmap string (list chunk);
  calls : list (list (list Z) * list Z)
}.

Definition M (A : Type) : Type := world -> result A * world.

Definition ret {A : Type} (a : A) : M A := fun w => (Ok a, w).

Definition bind {A B : Type} (m : M A) (k : A -> M B) : M B :=
  fun w =>
    match m w with
    | (Ok a, w') => k a w'
    | (Raise e, w') => (Raise e, w')
    | (Timeout, w') => (Timeout, w')
    end.

Definition lift {A : Type} (r : result A) : M A := fun w => (r, w).

Definition raise {A : Type} (e : exn) : M A := lift (Raise e).

Definition timeout {A : Type} : M A := lift Timeout.

(** [print(s)] *)
Definition print (s : string) : M unit :=
  fun w => (Ok tt, World (rng_state w) (stdin w) (stdout w ++ [s]) (warnings w)
                         (files w) (calls w)).

(** [input(prompt)]: the prompt is written, a line is read; end of input
    raises [EOFError]. *)
Definition input (prompt : string) : M string :=
  fun w =>
    let w' := World (rng_state w) (stdin w) (stdout w ++ [prompt]) (warnings w)
                    (files w) (calls w) in
    match stdin w with
    | [] => (Raise EOFError, w')
    | line :: rest =>
        (Ok line, World (rng_state w') rest (stdout w') (warnings w')
                        (files w') (calls w'))
    end.

(** [warnings.warn(s)] *)
Definition warn (s : string) : M unit :=
  fun w => (Ok tt, World (rng_state w) (stdin w) (stdout w) (warnings w ++ [s])
                         (files w) (calls w)).

Definition with_rng {A : Type} (f : rng -> A * rng) : M A :=
  fun w =>
    let '(a, r) := f (rng_state w) in
    (Ok a, World r (stdin w) (stdout w) (warnings w) (files w) (calls w)).

(** [torch.multinomial(probs, 1)] *)
Definition draw (probs : list float32) : M nat :=
  fun w =>
    let '(r, g) := multinomial probs (rng_state w) in
    (r, World g (stdin w) (stdout w) (warnings w) (files w) (calls w)).

(** [random.choice(seq)] *)
Definition choice {A : Type} (xs : list A) : M A :=
  match xs with
  | [] => raise IndexError
  | _ :: _ =>
      bind (with_rng (randbelow (length xs)))
           (fun k => match xs !! k with
                     | Some x => ret x
                     | None => raise IndexError
                     end)
  end.

(** [with open(path, 'a') as f: f.write(...)] for each chunk in turn. *)
Definition append_file (path : string) (cs : list chunk) : M unit :=
  bind (lift (open_append path))
       (fun _ w =>
          (Ok tt, World (rng_state w) (stdin w) (stdout w) (warnings w)
                        (<[path := default [] (files w !! path) ++ cs]> (files w))
                        (calls w))).

Definition log_call (history : list (list Z)) (reply : list Z) : M unit :=
  fun w => (Ok tt, World (rng_state w) (stdin w) (stdout w) (warnings w)
                         (files w) (calls w ++ [(history, reply)])).

(** The world after the console gave up lines, [left] remaining, and
    printed [out] more. *)
Definition console (w : world) (left : list string) (out : list string) : world :=
  World (rng_state w) left (stdout w ++ out) (warnings w) (files w) (calls w).

End World.

Section Quiet.

Context `{Externals}.

(** A step that leaves the console, the files and the trace of calls as
    they are (it may draw random numbers and warn). *)
Definition quiet (w w' : world) : Prop :=
  stdin w' = stdin w /\ stdout w' = stdout w /\
  files w' = files w /\ calls w' = calls w.

Definition quietly {A : Type} (m : M A) : Prop :=
  forall w r w', m w = (r, w') -> quiet w w'.

End Quiet.

(** What a console loop prints for the entries it rejects. *)
Definition complaints (complaint prompt : string) (rejected : list string) : list string :=
  concat (map (fun _ => [complaint; prompt]) rejected).

Notation "'do' x <- m ; k" := (bind m (fun x => k))
  (at level 10, x pattern, m at level 100, k at level 200).

(** ** sample_sequence *)

(** The parsed command line ([args]). *)
Record Args : Type := MkArgs {
  dataset_path : string;
  dataset_cache : string;
  model_type : string;
  model_checkpoint : string;
  max_turns : Z;
  device : string;
  no_sample : bool;
  max_length : Z;
  min_length : Z;
  seed : Z;
  temperature : Q;
  top_k : Z;
  top_p : Q;
  self_play : bool
}.

(** [x in xs] on token ids *)
Definition memZ (x : Z) (xs : list Z) : bool := existsb (Z.eqb x) xs.

Section Sampling.

Context `{TrainId} `{Torch} `{!Externals}.

(** The loop
    [while prev.item() in special_tokens_ids:
         if probs.max().item() == 1: warn; break
         prev = torch.multinomial(probs, num_samples=1)]
    with a bound on the number of draws. *)
Fixpoint resample (fuel : nat) (probs : list float32) (special_tokens_ids : list Z)
    (prev : nat) : M nat :=
  if memZ (Z.of_nat prev) special_tokens_ids then
    if max_is_one probs then
      do _ <- warn "Warning: model generating special token with probability 1." ;
      ret prev
    else
      match fuel with
      | O => timeout
      | S fuel' =>
          do prev <- draw probs ;
          resample fuel' probs special_tokens_ids prev
      end
  else ret prev.

(** The iterations [i, i + 1, ..., i + n - 1] of
    [for i in range(args.max_length)]. *)
Fixpoint decode_loop (fuel : nat) (model : seq2seq) (args : Args)
    (personality history : list (list Z)) (lang : string)
    (special_map : gmap string Z) (special_tokens_ids : list Z)
    (n : nat) (i : Z) (current_output : list Z) : M (list Z) :=
  match n with
  | O => ret current_output
  | S n' =>
      do inst <- lift (build_input_from_segments personality history current_output
                         lang special_map true false) ;
      let encoder_mask := replicate (length (input_ids inst)) 1 in
      let decoder_mask := replicate (length (lm_labels inst)) 1 in
      do logits <- lift (model (input_ids inst) (lm_labels inst)
                           (token_type_ids inst) (lang_id inst)
                           encoder_mask decoder_mask) ;
      let logits := true_divide logits (temperature args) in
      do logits <- lift (top_filtering logits (top_k args) (top_p args) NegInf NegInf) ;
      let probs := softmax logits in
      do prev <- (if no_sample args then lift (topk1 probs) else draw probs) ;
      do prev <- (if (i <? min_length args)%Z && memZ (Z.of_nat prev) special_tokens_ids
                  then resample fuel probs special_tokens_ids prev
                  else ret prev) ;
      if memZ (Z.of_nat prev) special_tokens_ids then ret current_output
      else decode_loop fuel model args personality history lang special_map
             special_tokens_ids n' (i + 1) (current_output ++ [Z.of_nat prev])
  end.

Definition sample_sequence (fuel : nat) (personality history : list (list Z))
    (model : seq2seq) (args : Args) (lang : string) (special_map : gmap string Z)
    (current_output : option (list Z)) : M (list Z) :=
  do special_tokens_ids <- lift (rmap (getitem special_map) SPECIAL_TOKENS) ;
  let current_output := default [] current_output in
  do out <- decode_loop fuel model args personality history lang special_map
              special_tokens_ids (Z.to_nat (max_length args)) 0 current_output ;
  do _ <- log_call history out ;
  ret out.

End Sampling.

(** ** The command line *)

(** The value given to each flag on the command line, if any, as the string
    [argparse] hands to the flag's [type]; the two [store_true] flags are
    present or not. *)
Record CommandLine : Type := MkCommandLine {
  opt_dataset_path : option string;
  opt_dataset_cache : option string;
  opt_model : option string;
  opt_model_checkpoint : option string;
  opt_max_turns : option string;
  opt_device : option string;
  opt_no_sample : bool;
  opt_max_length : option string;
  opt_min_length : option string;
  opt_seed : option string;
  opt_temperature : option string;
  opt_top_k : option string;
  opt_top_p : option string;
  opt_self_play : bool
}.

(** The whitespace that [int] skips around an ASCII string: the six
    characters of C's [isspace]. *)
Definition is_c_space (c : ascii) : bool :=
  let n := nat_of_ascii c in
  ((9 <=? n) && (n <=? 13) || (n =? 32))%nat.

Definition is_digit (c : ascii) : bool :=
  let n := nat_of_ascii c in ((48 <=? n) && (n <=? 57))%nat.

Fixpoint lstrip (s : string) : string :=
  match s with
  | String c s' => if is_c_space c then lstrip s' else s
  | EmptyString => s
  end.

Fixpoint rstrip (s : string) : string :=
  match s with
  | String c s' =>
      match rstrip s' with
      | EmptyString => if is_c_space c then EmptyString else String c EmptyString
      | r => String c r
      end
  | EmptyString => EmptyString
  end.

(** Decimal digits with single underscores between them. *)
Fixpoint int_digits (acc : Z) (after_digit : bool) (s : string) : option Z :=
  match s with
  | EmptyString => if after_digit then Some acc else None
  | String c s' =>
      if is_digit c then
        int_digits (10 * acc + Z.of_nat (nat_of_ascii c - 48)) true s'
      else if Ascii.eqb c "_" && after_digit then int_digits acc false s'
      else None
  end.

(** [int(s)] on a string of ASCII characters, base 10: [None] is
    [ValueError].  (Python's [int] also reads the decimal digits and the
    spaces of other scripts, which are left out here: a string with a byte
    above 127 is rejected.) *)
Definition py_int (s : string) : option Z :=
  match rstrip (lstrip s) with
  | String "-" d => option_map Z.opp (int_digits 0 false d)
  | String "+" d => int_digits 0 false d
  | d => int_digits 0 false d
  end.

(** A flag declared with [type=...]: its default when absent; otherwise the
    conversion of the given string, whose failure makes [argparse] print a
    usage message and exit with status 2. *)
Definition convert {A : Type} (conv : string -> option A) (given : option string)
    (default : A) : result A :=
  match given with
  | None => Ok default
  | Some s =>
      match conv s with
      | Some v => Ok v
      | None => Raise (SystemExit 2)
      end
  end.

(** [LANG_MAP] *)
Definition LANG_MAP : gmap string string :=
  list_to_map [("<en>", "En"); ("<fr>", "Fr"); ("<it>", "It"); ("<id>", "Id");
               ("<jp>", "Jp"); ("<ko>", "Ko"); ("<zh>", "Zh")].

Definition LANGUAGES : list string := ["en"; "fr"; "it"; "id"; "jp"; "ko"; "zh"].

Definition newline : string := String (ascii_of_nat 10) EmptyString.

Definition LANGUAGE_PROMPT : string :=
  "choose one language from : en, fr, it, id, jp, ko, zh" +:+ newline.

(** [x in xs] on strings *)
Definition mem_string (x : string) (xs : list string) : bool :=
  existsb (String.eqb x) xs.

(** [starters] *)
Definition starters : gmap string (list string) :=
  list_to_map
    [("<en>", ["hello, how are you doing today?"; "hi, how are you?";
               "hello , what are you doing ?"]);
     ("<zh>", ["你好，今天在做什么？"; "嗨，你好吗？"; "你好，你今天怎么样 ？"]);
     ("<it>", ["Ciao, come va oggi?"; "Ciao, come stai?"; "Ciao, cosa stai facendo ?"]);
     ("<jp>", ["こんにちは、今日はどうですか？"; "こんにちは、元気ですか？"; "やあ、元気 ？"]);
     ("<ko>", ["안녕, 오늘 어떻게 지내니?"; "안녕하세요?"; "안녕, 너는 무엇을 하고 있니?"]);
     ("<id>", ["Hai apa kabarmu hari ini?"; "Hai apa kabar?"; "Halo apa yang kamu lakukan ?"]);
     ("<fr>", ["Bonjour comment allez-vous aujourd'hui?"; "salut comment ca va?";
               "salut que fais tu ?"])].

Definition save_path : string := "selfplay/".
Definition prefix : string := "multi_Bert2Bert_".

(** The characters at which [str.split()] splits.  A text is held as its
    UTF-8 bytes, so a character is one, two or three bytes here: the ASCII
    ones (9 to 13 and 28 to 32); U+0085 and U+00A0; U+1680, U+2000 to U+200A,
    U+2028, U+2029, U+202F, U+205F and U+3000. *)
Definition is_space (c : ascii) : bool :=
  let n := nat_of_ascii c in
  ((9 <=? n) && (n <=? 13) || (28 <=? n) && (n <=? 32))%nat.

Definition is_space2 (c1 c2 : ascii) : bool :=
  let a := nat_of_ascii c1 in
  let b := nat_of_ascii c2 in
  ((a =? 194) && ((b =? 133) || (b =? 160)))%nat.

Definition is_space3 (c1 c2 c3 : ascii) : bool :=
  let a := nat_of_ascii c1 in
  let b := nat_of_ascii c2 in
  let c := nat_of_ascii c3 in
  ((a =? 225) && (b =? 154) && (c =? 128)
   || (a =? 226) && (b =? 128) &&
      ((128 <=? c) && (c <=? 138) || (c =? 168) || (c =? 169) || (c =? 175))
   || (a =? 226) && (b =? 129) && (c =? 159)
   || (a =? 227) && (b =? 128) && (c =? 128))%nat.

(** ["".join(s.split())]: [s] without its whitespace characters *)
Fixpoint remove_whitespace (s : string) : string :=
  match s with
  | EmptyString => EmptyString
  | String c1 s1 =>
      if is_space c1 then remove_whitespace s1
      else
        match s1 with
        | EmptyString => String c1 EmptyString
        | String c2 s2 =>
            if is_space2 c1 c2 then remove_whitespace s2
            else
              match s2 with
              | EmptyString => String c1 (remove_whitespace s1)
              | String c3 s3 =>
                  if is_space3 c1 c2 c3 then remove_whitespace s3
                  else String c1 (remove_whitespace s1)
              end
        end
  end.

(** [l[start:]] *)
Definition slice_from {A : Type} (start : Z) (l : list A) : list A :=
  let n := Z.of_nat (length l) in
  let start := if (start <? 0)%Z then Z.max 0 (start + n) else Z.min start n in
  drop (Z.to_nat start) l.

Section Driver.

Context `{TrainId} `{Torch} `{!Externals}.

Definition parse_args (cl : CommandLine) : result Args :=
  let* dataset_path := convert Some (opt_dataset_path cl) "" in
  let* dataset_cache := convert Some (opt_dataset_cache cl) "./dataset_cache" in
  let* model_type := convert Some (opt_model cl) "bert" in
  let* model_checkpoint := convert Some (opt_model_checkpoint cl) "" in
  let* max_turns := convert py_int (opt_max_turns cl) 3 in
  let* device := convert Some (opt_device cl)
                   (if cuda_is_available then "cuda" else "cpu") in
  let* max_length := convert py_int (opt_max_length cl) 20 in
  let* min_length := convert py_int (opt_min_length cl) 1 in
  let* seed := convert py_int (opt_seed cl) 0 in
  let* temperature :=
    convert (fun s => option_map inject_Z (py_int s)) (opt_temperature cl) (7 # 10)%Q in
  let* top_k := convert py_int (opt_top_k cl) 0 in
  let* top_p := convert py_float (opt_top_p cl) (9 # 10)%Q in
  Ok {| dataset_path := dataset_path; dataset_cache := dataset_cache;
        model_type := model_type; model_checkpoint := model_checkpoint;
        max_turns := max_turns; device := device;
        no_sample := opt_no_sample cl; max_length := max_length;
        min_length := min_length; seed := seed; temperature := temperature;
        top_k := top_k; top_p := top_p; self_play := opt_self_play cl |}.

(** [if args.seed != 0: random.seed(...); torch.random.manual_seed(...); ...] *)
Definition seed_all (s : Z) : M unit :=
  if (s =? 0)%Z then ret tt
  else fun w => (Ok tt, World (manual_seed s (rng_state w)) (stdin w) (stdout w)
                              (warnings w) (files w) (calls w)).

(** The two console loops of [run] have one shape,
    [while not valid(s): print(complaint); s = input(prompt)].
    Every iteration reads a line or raises [EOFError], so the number of
    lines left on the console bounds the iterations. *)
Fixpoint reprompt_loop (valid : string -> bool) (complaint prompt : string)
    (n : nat) (s : string) : M string :=
  if negb (valid s) then
    do _ <- print complaint ;
    do s <- input prompt ;
    match n with
    | O => timeout
    | S n' => reprompt_loop valid complaint prompt n' s
    end
  else ret s.

(** A first entry, then the loop:
    [s = input(prompt); while not valid(s): ...]. *)
Definition ask (valid : string -> bool) (complaint prompt : string) : M string :=
  fun w =>
    (do s <- input prompt ;
     reprompt_loop valid complaint prompt (length (stdin w)) s) w.

(** [lang = input(...)
     while lang not in ["en", "fr", "it", "id", "jp", "ko", "zh"]:
         print('Choose correct language!'); lang = input(...)] *)
Definition choose_language : M string :=
  ask (fun lang => mem_string lang LANGUAGES) "Choose correct language!" LANGUAGE_PROMPT.

(** [raw_text = input(">>> ")
     while not raw_text:
         print('Prompt should not be empty!'); raw_text = input(">>> ")] *)
Definition read_prompt : M string :=
  ask (fun raw_text => negb (String.eqb raw_text "")) "Prompt should not be empty!" ">>> ".

(** [for i in range(n)], the loop variable starting at [i], over a state
    that the body updates. *)
Fixpoint for_range {S : Type} (n : nat) (i : nat) (body : nat -> S -> M S) (s : S) : M S :=
  match n with
  | O => ret s
  | Datatypes.S n' =>
      do s' <- body i s ;
      for_range n' (Datatypes.S i) body s'
  end.

(** The text printed and recorded for a reply. *)
Definition shown (lang out_text : string) : string :=
  if mem_string lang ["<jp>"; "<zh>"] then remove_whitespace out_text else out_text.

(** The body of [for i in range(13)]; the state is the history and the
    dialog recorded so far. *)
Definition self_play_turn (fuel : nat) (tok : tokenizer) (model : seq2seq) (args : Args)
    (lang : string) (special_map : gmap string Z)
    (personality_1 personality_2 : list (list Z))
    (i : nat) (st : list (list Z) * list turn) : M (list (list Z) * list turn) :=
  let '(history, dialog) := st in
  do out_ids <- sample_sequence fuel (if Nat.odd i then personality_1 else personality_2)
                  history model args lang special_map None ;
  let history := history ++ [out_ids] in
  let history := slice_from (- max_turns args) history in
  let out_text := decode tok out_ids in
  do _ <- print (shown lang out_text) ;
  ret (history,
       dialog ++ [Turn (if Nat.odd i then "human_evaluator" else "model")
                       (shown lang out_text)]).

(** The body of [for j in range(50)]; the state is the history. *)
Definition conversation (fuel : nat) (tok : tokenizer) (model : seq2seq) (args : Args)
    (lang : string) (special_map : gmap string Z)
    (personalities : list (list (list Z)))
    (j : nat) (history : list (list Z)) : M (list (list Z)) :=
  do _ <- print "===================================================" ;
  do personality_1 <- choice personalities ;
  do personality_2 <- choice personalities ;
  do candidates <- lift (getitem starters lang) ;
  do starter <- choice candidates ;
  do _ <- print starter ;
  let dialog := [Turn "human_evaluator" starter] in
  let history := history ++ [encode tok starter] in
  do st <- for_range 13 0
             (self_play_turn fuel tok model args lang special_map
                personality_1 personality_2)
             (history, dialog) ;
  do lang_name <- lift (getitem LANG_MAP lang) ;
  do _ <- append_file (save_path +:+ prefix +:+ lang_name +:+ "_output_new.jsonl")
            [Dump (Transcript (snd st)); Text newline] ;
  ret (fst st).

(** One iteration of [while True] in interactive mode. *)
Definition interactive_turn (fuel : nat) (tok : tokenizer) (model : seq2seq) (args : Args)
    (lang : string) (special_map : gmap string Z) (personality : list (list Z))
    (history : list (list Z)) : M (list (list Z)) :=
  do raw_text <- read_prompt ;
  let history := history ++ [encode tok raw_text] in
  do out_ids <- sample_sequence fuel personality history model args lang special_map None ;
  let history := history ++ [out_ids] in
  let history := slice_from (- max_turns args) history in
  let out_text := decode tok out_ids in
  do _ <- print (shown lang out_text) ;
  ret history.

(** [while True], cut after [turns] iterations. *)
Fixpoint interactive_loop (turns : nat) (fuel : nat) (tok : tokenizer) (model : seq2seq)
    (args : Args) (lang : string) (special_map : gmap string Z)
    (personality : list (list Z)) (history : list (list Z)) : M unit :=
  match turns with
  | O => timeout
  | S turns' =>
      do history <- interactive_turn fuel tok model args lang special_map
                      personality history ;
      interactive_loop turns' fuel tok model args lang special_map personality history
  end.

(** The branch [if args.self_play:] of [run]. *)
Definition self_play_mode (fuel : nat) (tok : tokenizer) (model : seq2seq) (args : Args)
    (lang : string) (special_map : gmap string Z)
    (personalities : list (list (list Z))) (history : list (list Z)) : M unit :=
  do _ <- for_range 50 0
            (conversation fuel tok model args lang special_map personalities)
            history ;
  ret tt.

(** The branch [else:] of [run]. *)
Definition interactive_mode (fuel : nat) (tok : tokenizer) (model : seq2seq) (args : Args)
    (lang : string) (special_map : gmap string Z)
    (personalities : list (list (list Z))) (history : list (list Z)) : M unit :=
  do personality <- choice personalities ;
  interactive_loop fuel fuel tok model args lang special_map personality history.

(** [run()].  Logging is not modelled.  [fuel] bounds the draws of each
    resampling loop and the number of interactive turns. *)
Definition run (fuel : nat) (cl : CommandLine) : M unit :=
  do args <- lift (parse_args cl) ;
  do _ <- seed_all (seed args) ;
  do tok <- lift (tokenizer_from_pretrained (model_checkpoint args)) ;
  do bertconfig <- lift (config_from_pretrained (model_checkpoint args)) ;
  let bertconfig := set_is_decoder bertconfig in
  do model <- lift (model_from_pretrained (model_checkpoint args) bertconfig) ;
  do f <- lift (open_read (model_checkpoint args +:+ "/added_tokens.json")) ;
  do special_map <- lift (json_load f) ;
  do model <- lift (load_state_dict model (model_checkpoint args +:+ "/pytorch_model.bin")) ;
  do lang <- choose_language ;
  let lang := "<" +:+ lang +:+ ">" in
  do data <- lift (get_dataset tok (dataset_path args) (dataset_cache args)) ;
  do test <- lift (getitem data "test") ;
  do lang_name <- lift (getitem LANG_MAP lang) ;
  do personalities <- lift (getitem test lang_name) ;
  let history := [] in
  if self_play args then
    self_play_mode fuel tok model args lang special_map personalities history
  else
    interactive_mode fuel tok model args lang special_map personalities history.

End Driver.

(** ** Vocabulary of the statements *)

(** [history[-args.max_turns:]] *)
Definition window (args : Args) (history : list (list Z)) : list (list Z) :=
  slice_from (- max_turns args) history.

(** The history after replies were appended and the window applied, one
    reply at a time. *)
Definition after_turns (args : Args) (history : list (list Z)) (outs : list (list Z))
    : list (list Z) :=
  foldl (fun h o => window args (h ++ [o])) history outs.

(** The calls of [sample_sequence] that produce [outs] from [history]: each
    reply with the history it was generated from. *)
Fixpoint call_trace (args : Args) (history : list (list Z)) (outs : list (list Z))
    : list (list (list Z) * list Z) :=
  match outs with
  | [] => []
  | o :: outs' => (history, o) :: call_trace args (window args (history ++ [o])) outs'
  end.

(** The entries recorded for the replies [outs], the first of them being
    turn [i]. *)
Fixpoint turns_from (tok : tokenizer) (lang : string) (i : nat) (outs : list (list Z))
    : list turn :=
  match outs with
  | [] => []
  | o :: outs' =>
      Turn (if Nat.odd i then "human_evaluator" else "model") (shown lang (decode tok o))
      :: turns_from tok lang (S i) outs'
  end.

(** The transcript of a conversation: its starter, then its replies. *)
Definition transcript_of (tok : tokenizer) (lang : string) (c : string * list (list Z))
    : transcript :=
  Transcript (Turn "human_evaluator" (fst c) :: turns_from tok lang 0 (snd c)).

(** The history a conversation (starter and replies) leaves. *)
Definition after_conversation (tok : tokenizer) (args : Args) (history : list (list Z))
    (c : string * list (list Z)) : list (list Z) :=
  after_turns args (history ++ [encode tok (fst c)]) (snd c).

(** The history left by a sequence of conversations. *)
Definition carry (tok : tokenizer) (args : Args) (history : list (list Z))
    (convs : list (string * list (list Z))) : list (list Z) :=
  foldl (after_conversation tok args) history convs.

(** The calls of [sample_sequence] made by a sequence of conversations. *)
Fixpoint traces (tok : tokenizer) (args : Args) (history : list (list Z))
    (convs : list (string * list (list Z))) : list (list (list Z) * list Z) :=
  match convs with
  | [] => []
  | c :: convs' =>
      call_trace args (history ++ [encode tok (fst c)]) (snd c) ++
      traces tok args (after_conversation tok args history c) convs'
  end.

(** The transcript file of a language. *)
Definition transcript_path (lang_name : string) : string :=
  save_path +:+ prefix +:+ lang_name +:+ "_output_new.jsonl".

(** What the conversations append to the transcript file. *)
Definition transcript_lines (tok : tokenizer) (lang : string)
    (convs : list (string * list (list Z))) : list chunk :=
  concat (map (fun c => [Dump (transcript_of tok lang c); Text newline]) convs).

(** The top-k part of [top_filtering]. *)
Definition top_k_stage (logits : list logit) (top_k : Z) (filter_value : logit)
    : list logit :=
  let top_k := Z.min top_k (Z.of_nat (length logits)) in
  if (0 <? top_k)%Z then
    mask_fill logits
      (map (fun l => logit_ltb l (topk_last logits (Z.to_nat top_k))) logits)
      filter_value
  else logits.

(** A set of positions of a tensor of [n] entries. *)
Definition index_set (n : nat) (K : list nat) : Prop :=
  NoDup K /\ forall i, In i K -> (i < n)%nat.

(** [out] is [logits] with every position outside [K] set to minus infinity. *)
Definition keeps (logits out : list logit) (K : list nat) : Prop :=
  length out = length logits /\
  (forall i, In i K -> out !! i = logits !! i) /\
  (forall i, (i < length logits)%nat -> ~ In i K -> out !! i = Some NegInf).

(** [K] is a set of most likely tokens: no token outside has a larger logit
    than one inside. *)
Definition most_likely (logits : list logit) (K : list nat) : Prop :=
  index_set (length logits) K /\
  forall i j li lj,
    In i K -> ~ In j K -> logits !! i = Some li -> logits !! j = Some lj ->
    logit_leb lj li = true.

Section FilterVocabulary.

Context `{Torch}.

(** The top-p part of [top_filtering]. *)
Definition top_p_stage (logits : list logit) (top_p : Q) (filter_value : logit)
    : result (list logit) :=
  if Qltb 0 top_p then
    let '(sorted_logits, sorted_indices) := torch_sort_desc logits in
    let* removed :=
      shift_right (map (fun c => gt c top_p) (cumsum (softmax sorted_logits))) in
    Ok (index_fill logits (mask_select sorted_indices removed) filter_value)
  else Ok logits.

(** The cumulative probabilities that [top_filtering] computes: entry
    [n - 1] is the probability computed for the first [n] tokens of the
    descending order together. *)
Definition cumulative_probabilities (logits : list logit) : list float32 :=
  cumsum (softmax (fst (torch_sort_desc logits))).

(** The cumulative probability computed for the [n] most likely tokens
    exceeds [top_p]. *)
Definition exceeds (logits : list logit) (top_p : Q) (n : nat) : bool :=
  match n with
  | O => false
  | S j =>
      match cumulative_probabilities logits !! j with
      | Some c => gt c top_p
      | None => false
      end
  end.

(** Once the cumulative probability computed for some of the most likely
    tokens exceeds [top_p], so does the one computed for more of them: the
    computed cumulative sums do not fall back under [top_p]. *)
Definition steady (logits : list logit) (top_p : Q) : Prop :=
  forall m n, (m <= n)%nat -> (n <= length logits)%nat ->
              exceeds logits top_p m = true -> exceeds logits top_p n = true.

(** [K] is a smallest set of most likely tokens whose computed cumulative
    probability exceeds [top_p], or every token when no computed cumulative
    probability does. *)
Definition computed_nucleus (logits : list logit) (top_p : Q) (K : list nat) : Prop :=
  most_likely logits K /\
  (forall m, (m < length K)%nat -> exceeds logits top_p m = false) /\
  (exceeds logits top_p (length K) = true \/ length K = length logits).

End FilterVocabulary.

Section ExactVocabulary.

Context `{Exponential}.

(** The weight of the token at position [i]: its probability before the
    division by the total. *)
Definition wt (logits : list logit) (i : nat) : Q := nth i (map weight logits) 0%Q.

(** The probability of the token at position [i], in exact arithmetic. *)
Definition prob (logits : list logit) (i : nat) : Q := nth i (exact_softmax logits) 0%Q.

(** The total probability of a set of positions. *)
Definition mass (logits : list logit) (K : list nat) : Q := Qsum (map (prob logits) K).

(** [K] is a smallest set of highest-probability tokens whose total
    probability exceeds [top_p]: no token outside is more probable than one
    inside, the mass of [K] exceeds [top_p], and no set of positions of mass
    above [top_p] has fewer positions. *)
Definition nucleus (logits : list logit) (top_p : Q) (K : list nat) : Prop :=
  index_set (length logits) K /\
  (forall i j, In i K -> (j < length logits)%nat -> ~ In j K ->
               (prob logits j <= prob logits i)%Q) /\
  (top_p < mass logits K)%Q /\
  (forall K', index_set (length logits) K' -> (top_p < mass logits K')%Q ->
              (length K <= length K')%nat).

End ExactVocabulary.

(** [m] is the largest entry of [logits]. *)
Definition is_max (logits : list logit) (m : logit) : Prop :=
  In m logits /\ forall l, In l logits -> logit_leb l m = true.

(** ** A small concrete environment

    Used to run the definitions on concrete inputs.  It computes in exact
    arithmetic, with a stand-in for the exponential that is positive and
    increasing and is 1 at 0. *)

Module Demo.

(** Positive and increasing: [1 / (1 - x)] up to 0, [1 + x] from 0 on. *)
Definition demo_exp (x : Q) : Q :=
  if Qle_bool x 0 then (1 / (1 - x))%Q else (1 + x)%Q.

#[export] Instance demo_exponential : Exponential := {| qexp := demo_exp |}.

#[export] Instance demo_train_id : TrainId :=
  {| SPECIAL_TOKENS := ["<bos>"; "<eos>"; "<persona>"; "<speaker1>"; "<speaker2>";
                        "<en>"; "<fr>"; "<it>"; "<id>"; "<jp>"; "<ko>"; "<zh>"; "<pad>"] |}.

Definition demo_special_map : gmap string Z :=
  list_to_map [("<bos>", 0); ("<eos>", 1); ("<persona>", 2); ("<speaker1>", 3);
               ("<speaker2>", 4); ("<en>", 5); ("<fr>", 6); ("<it>", 7); ("<id>", 8);
               ("<jp>", 9); ("<ko>", 10); ("<zh>", 11); ("<pad>", 12)].

(** One token per byte, shifted past the special tokens. *)
Definition demo_encode (s : string) : list Z :=
  map (fun c => Z.of_nat (nat_of_ascii c) + 13) (list_ascii_of_string s).

Definition demo_decode (ids : list Z) : string :=
  string_of_list_ascii
    (map (fun t => ascii_of_nat (Z.to_nat (t - 13)))
         (filter (fun t => 13 <= t) ids)).

Definition demo_tokenizer : tokenizer :=
  {| encode := demo_encode; decode := demo_decode |}.

(** A model over a vocabulary of 16 tokens that prefers token 14, then
    token 1 ([<eos>]) once the decoder input has three tokens. *)
Definition demo_model : seq2seq :=
  fun _ decoder_input_ids _ _ _ _ =>
    Ok (imap (fun i (_ : unit) =>
                if (length decoder_input_ids <? 3)%nat
                then (if (i =? 14)%nat then Fin 3 else Fin 0)
                else (if (i =? 1)%nat then Fin 3 else Fin 0))
             (replicate 16 tt)).

Definition demo_dataset : dataset :=
  {[ "test" := list_to_map
       [("En", [[[20; 21]; [22]]; [[23]]]); ("Fr", [[[24]]]); ("It", [[[25]]]);
        ("Id", [[[26]]]); ("Jp", [[[27]]]); ("Ko", [[[28]]]); ("Zh", [[[29]]])] ]}.

(** The random sources: a counter; [multinomial] returns the first
    position of positive probability at or after the counter, cyclically. *)
Definition demo_multinomial (probs : list Q) (g : nat) : result nat * nat :=
  match probs with
  | [] => (Raise (ExternalError "RuntimeError"), g)
  | _ :: _ =>
      let n := length probs in
      let rotated := drop (g mod n) (zip probs (seq 0 n)) ++ take (g mod n) (zip probs (seq 0 n)) in
      match filter (fun p => Is_true (Qltb 0 (fst p))) rotated with
      | [] => (Raise (ExternalError "RuntimeError"), g)
      | p :: _ => (Ok (snd p), S g)
      end
  end.

#[export] Instance demo_externals : Externals := {|
  rng := nat;
  manual_seed := fun s _ => Z.to_nat (Z.abs s);
  randbelow := fun n g => ((g mod n)%nat, S g);
  multinomial := demo_multinomial;
  py_float := fun s => option_map inject_Z (py_int s);
  cuda_is_available := false;
  config := bool;
  tokenizer_from_pretrained := fun _ => Ok demo_tokenizer;
  config_from_pretrained := fun _ => Ok false;
  set_is_decoder := fun _ => true;
  model_from_pretrained := fun _ _ => Ok demo_model;
  open_read := fun _ => Ok "{}";
  json_load := fun _ => Ok demo_special_map;
  load_state_dict := fun m _ => Ok m;
  get_dataset := fun _ _ _ => Ok demo_dataset;
  open_append := fun _ => Ok tt
|}.

(** The same environment with a checkpoint whose tokenizer cannot be
    loaded. *)
Definition broken_externals : Externals := {|
  rng := nat;
  manual_seed := fun s _ => Z.to_nat (Z.abs s);
  randbelow := fun n g => ((g mod n)%nat, S g);
  multinomial := demo_multinomial;
  py_float := fun s => option_map inject_Z (py_int s);
  cuda_is_available := false;
  config := bool;
  tokenizer_from_pretrained := fun _ => Raise (ExternalError "OSError");
  config_from_pretrained := fun _ => Ok false;
  set_is_decoder := fun _ => true;
  model_from_pretrained := fun _ _ => Ok demo_model;
  open_read := fun _ => Ok "{}";
  json_load := fun _ => Ok demo_special_map;
  load_state_dict := fun m _ => Ok m;
  get_dataset := fun _ _ _ => Ok demo_dataset;
  open_append := fun _ => Ok tt
|}.

Definition broken_world : @world _ broken_externals :=
  @World _ broken_externals 0%nat ["en"] [] [] ∅ [].

Definition demo_world (lines : list string) : world :=
  {| rng_state := 0%nat; stdin := lines; stdout := []; warnings := [];
     files := ∅; calls := [] |}.

Definition demo_args : Args :=
  {| dataset_path := ""; dataset_cache := "./dataset_cache"; model_type := "bert";
     model_checkpoint := "ckpt"; max_turns := 3; device := "cpu"; no_sample := false;
     max_length := 20; min_length := 1; seed := 0; temperature := (7 # 10)%Q;
     top_k := 0; top_p := (9 # 10)%Q; self_play := false |}.

Definition self_play_command_line : CommandLine :=
  {| opt_dataset_path := None; opt_dataset_cache := None; opt_model := None;
     opt_model_checkpoint := Some "ckpt"; opt_max_turns := None; opt_device := None;
     opt_no_sample := false; opt_max_length := None; opt_min_length := None;
     opt_seed := None; opt_temperature := Some "1"; opt_top_k := None; opt_top_p := None;
     opt_self_play := true |}.

Definition demo_command_line : CommandLine :=
  {| opt_dataset_path := None; opt_dataset_cache := None; opt_model := None;
     opt_model_checkpoint := Some "ckpt"; opt_max_turns := None; opt_device := None;
     opt_no_sample := false; opt_max_length := None; opt_min_length := None;
     opt_seed := None; opt_temperature := None; opt_top_k := None; opt_top_p := None;
     opt_self_play := false |}.

End Demo.

(** ** Further definitions *)

(** The text of the one warning of [sample_sequence]. *)
Definition SPECIAL_TOKEN_WARNING : string :=
  "Warning: model generating special token with probability 1.".

(** More of the concrete environment. *)
Module DemoMore.

Import Demo.

(** A model that puts all the probability on token 1 ([<eos>]). *)
Definition eos_model : seq2seq :=
  fun _ _ _ _ _ _ =>
    Ok (imap (fun i (_ : unit) => if (i =? 1)%nat then Fin 0 else NegInf)
             (replicate 16 tt)).

Definition fast_args : Args :=
  {| dataset_path := ""; dataset_cache := "./dataset_cache"; model_type := "bert";
     model_checkpoint := "ckpt"; max_turns := 3; device := "cpu"; no_sample := false;
     max_length := 20; min_length := 1; seed := 0; temperature := 1%Q;
     top_k := 0; top_p := (9 # 10)%Q; self_play := false |}.

Definition free_args : Args :=
  {| dataset_path := ""; dataset_cache := "./dataset_cache"; model_type := "bert";
     model_checkpoint := "ckpt"; max_turns := 3; device := "cpu"; no_sample := false;
     max_length := 20; min_length := 0; seed := 0; temperature := 1%Q;
     top_k := 0; top_p := (9 # 10)%Q; self_play := false |}.

Definition integer_temperature_command_line : CommandLine :=
  {| opt_dataset_path := None; opt_dataset_cache := None; opt_model := None;
     opt_model_checkpoint := Some "ckpt"; opt_max_turns := None; opt_device := None;
     opt_no_sample := false; opt_max_length := None; opt_min_length := None;
     opt_seed := None; opt_temperature := Some "2"; opt_top_k := None; opt_top_p := None;
     opt_self_play := false |}.

Definition greedy_args : Args :=
  {| dataset_path := ""; dataset_cache := "./dataset_cache"; model_type := "bert";
     model_checkpoint := "ckpt"; max_turns := 3; device := "cpu"; no_sample := true;
     max_length := 20; min_length := 0; seed := 0; temperature := 1%Q;
     top_k := 0; top_p := (9 # 10)%Q; self_play := false |}.

(** A special-token map without [<pad>]. *)
Definition partial_special_map : gmap string Z :=
  list_to_map [("<bos>", 0); ("<eos>", 1); ("<persona>", 2); ("<speaker1>", 3);
               ("<speaker2>", 4); ("<en>", 5); ("<fr>", 6); ("<it>", 7); ("<id>", 8);
               ("<jp>", 9); ("<ko>", 10); ("<zh>", 11)].

(** The concrete environment with a dataset that has no split. *)
Definition no_split_externals : Externals := {|
  rng := nat;
  manual_seed := fun s _ => Z.to_nat (Z.abs s);
  randbelow := fun n g => ((g mod n)%nat, S g);
  multinomial := demo_multinomial;
  py_float := fun s => option_map inject_Z (py_int s);
  cuda_is_available := false;
  config := bool;
  tokenizer_from_pretrained := fun _ => Ok demo_tokenizer;
  config_from_pretrained := fun _ => Ok false;
  set_is_decoder := fun _ => true;
  model_from_pretrained := fun _ _ => Ok demo_model;
  open_read := fun _ => Ok "{}";
  json_load := fun _ => Ok demo_special_map;
  load_state_dict := fun m _ => Ok m;
  get_dataset := fun _ _ _ => Ok ∅;
  open_append := fun _ => Ok tt
|}.

Definition no_split_world : @world _ no_split_externals :=
  @World _ no_split_externals 0%nat ["en"; "hi"] [] [] ∅ [].

(** The arguments of self-play with [--max_turns -2] and with
    [--max_turns 0]. *)
Definition negative_max_turns_args : Args :=
  {| dataset_path := ""; dataset_cache := "./dataset_cache"; model_type := "bert";
     model_checkpoint := "ckpt"; max_turns := -2; device := "cpu"; no_sample := false;
     max_length := 20; min_length := 1; seed := 0; temperature := 1%Q;
     top_k := 0; top_p := (9 # 10)%Q; self_play := true |}.

Definition zero_max_turns_args : Args :=
  {| dataset_path := ""; dataset_cache := "./dataset_cache"; model_type := "bert";
     model_checkpoint := "ckpt"; max_turns := 0; device := "cpu"; no_sample := false;
     max_length := 20; min_length := 1; seed := 0; temperature := 1%Q;
     top_k := 0; top_p := (9 # 10)%Q; self_play := true |}.

(** The personas of the English test split of [demo_dataset]. *)
Definition demo_personalities : list (list (list Z)) := [[[20; 21]; [22]]; [[23]]].

(** The first two iterations of [for j in range(50)], from the empty
    history. *)
Definition two_conversations (args : Args) : result (list (list Z)) * world :=
  for_range 2 0
    (conversation 20 demo_tokenizer demo_model args "<en>" demo_special_map
       demo_personalities)
    [] (demo_world []).

(** How many utterances the call of [sample_sequence] number [k] (from 0)
    of a finished computation received as its history. *)
Definition history_size_at {A : Type} (k : nat) (p : result A * world) : option nat :=
  match fst p with
  | Ok _ => option_map (fun c => length (fst c)) (calls (snd p) !! k)
  | _ => None
  end.

End DemoMore.

(** * Properties *)

(** ** Results and the state monad *)

Lemma rbind_Ok {A B : Type} (r : result A) (k : A -> result B) (b : B) :
  rbind r k = Ok b -> exists a, r = Ok a /\ k a = Ok b.
Proof. destruct r as [a| |]; simpl; intros E; try discriminate. eauto. Qed.

Section MonadFacts.

Context `{Externals}.

Lemma bind_Ok {A B : Type} (m : M A) (k : A -> M B) (w w' : world) (b : B) :
  bind m k w = (Ok b, w') ->
  exists a w1, m w = (Ok a, w1) /\ k a w1 = (Ok b, w').
Proof.
  unfold bind. destruct (m w) as [[a| |] w1]; intros E; try discriminate.
  exists a, w1. split; [reflexivity | exact E].
Qed.

Lemma lift_Ok {A : Type} (r : result A) (w w' : world) (a : A) :
  lift r w = (Ok a, w') -> r = Ok a /\ w' = w.
Proof. unfold lift. intros E. injection E as -> ->. split; reflexivity. Qed.

Lemma ret_Ok {A : Type} (x a : A) (w w' : world) :
  ret x w = (Ok a, w') -> a = x /\ w' = w.
Proof. unfold ret. intros E. injection E as -> ->. split; reflexivity. Qed.

Lemma bind_Raise_l {A B : Type} (m : M A) (k : A -> M B) (w w' : world) (e : exn) :
  m w = (Raise e, w') -> bind m k w = (Raise e, w').
Proof. unfold bind. intros ->. reflexivity. Qed.

Lemma bind_Ok_l {A B : Type} (m : M A) (k : A -> M B) (w w1 : world) (a : A) :
  m w = (Ok a, w1) -> bind m k w = k a w1.
Proof. unfold bind. intros ->. reflexivity. Qed.

End MonadFacts.

(** Split a successful run of a sequence of binds into its steps. *)
Ltac inv_bind H :=
  let a := fresh "a" in
  let w := fresh "w" in
  let H1 := fresh "Hstep" in
  apply bind_Ok in H; destruct H as (a & w & H1 & H).

Tactic Notation "inv_bind_as" hyp(H) ident(a) ident(w) :=
  let H1 := fresh "Hstep" in
  apply bind_Ok in H; destruct H as (a & w & H1 & H).

(** ** build_input_from_segments *)

Section SegmentFacts.

Context `{TrainId}.

Lemma tagged_lengths (g : nat -> Z) (history : list (list Z)) :
  length (concat (imap (fun i s => g i :: s) history)) =
  length (concat (imap (fun i s => replicate (length s) (g i))
                       (imap (fun i s => g i :: s) history))).
Proof.
  revert g. induction history as [|s history IH]; intros g; [reflexivity|].
  cbn [imap concat]. rewrite !length_app, length_replicate.
  f_equal. apply (IH (g ∘ S)).
Qed.

Lemma flatten_persona_In (persona_token : Z) (persona : list (list Z)) (t : Z) :
  In t (flatten_persona persona_token persona) ->
  t = persona_token \/ exists sent, In sent persona /\ In t sent.
Proof.
  induction persona as [|sent rest IH]; simpl; [tauto|].
  intros [<- | Hin]; [now left|].
  apply in_app_or in Hin as [Hin | Hin].
  - right. exists sent. tauto.
  - destruct (IH Hin) as [-> | (s & Hs & Ht)]; [now left|].
    right. exists s. tauto.
Qed.

Lemma tagged_In (g : nat -> Z) (history : list (list Z)) (t : Z) :
  In t (concat (imap (fun i s => g i :: s) history)) ->
  (exists i, t = g i) \/ exists s, In s history /\ In t s.
Proof.
  revert g. induction history as [|s history IH]; intros g; simpl; [tauto|].
  intros [<- | Hin]; [left; now exists 0%nat|].
  apply in_app_or in Hin as [Hin | Hin].
  - right. exists s. tauto.
  - destruct (IH (g ∘ S) Hin) as [(i & ->) | (s' & Hs & Ht)].
    + left. now exists (S i).
    + right. exists s'. tauto.
Qed.

(** C9.  Whenever [build_input_from_segments] returns an instance, its
    [input_ids] and [token_type_ids] have the same length; [input_ids] is
    the flattened persona followed by the speaker-tagged history, so each of
    its tokens is the persona token, a speaker token, or a token of a
    persona sentence or of a history utterance; the reply occurs only in
    [lm_labels] (the response [bos :: reply], closed by [eos] on demand, or
    as many [-1]); and another reply changes neither [input_ids] nor
    [token_type_ids] nor [lang_id]. *)
Theorem build_input_from_segments_shape
    (persona history : list (list Z)) (reply : list Z) (lang : string)
    (special_map : gmap string Z) (with_labels with_eos : bool) (inst : instance) :
  build_input_from_segments persona history reply lang special_map with_labels with_eos
    = Ok inst ->
  length (input_ids inst) = length (token_type_ids inst) /\
  (exists bos eos persona_token speaker1 speaker2,
      rmap (getitem special_map) (take 5 SPECIAL_TOKENS)
        = Ok [bos; eos; persona_token; speaker1; speaker2] /\
      input_ids inst =
        flatten_persona persona_token persona ++
        concat (imap (fun i s => speaker_of speaker1 speaker2 i :: s) history) /\
      (forall t, In t (input_ids inst) ->
         t = persona_token \/ t = speaker1 \/ t = speaker2 \/
         (exists sent, In sent persona /\ In t sent) \/
         (exists s, In s history /\ In t s)) /\
      lm_labels inst =
        (if with_labels
         then (bos :: reply) ++ (if with_eos then [eos] else [])
         else replicate (length ((bos :: reply) ++ (if with_eos then [eos] else []))) (-1))) /\
  (forall reply' : list Z,
      exists inst',
        build_input_from_segments persona history reply' lang special_map
          with_labels with_eos = Ok inst' /\
        input_ids inst' = input_ids inst /\
        token_type_ids inst' = token_type_ids inst /\
        lang_id inst' = lang_id inst).
Proof.
  unfold build_input_from_segments. intros E.
  apply rbind_Ok in E as (specials & Hsp & E). rewrite Hsp. simpl.
  destruct specials as [|bos [|eos [|persona_token [|speaker1 [|speaker2 [|? ?]]]]]];
    try discriminate.
  apply rbind_Ok in E as (lang_tok & Hlang & E). rewrite Hlang. simpl.
  injection E as <-. cbn [input_ids token_type_ids lm_labels lang_id hd tl concat].
  split; [|split].
  - rewrite !length_app, length_replicate. f_equal. apply tagged_lengths.
  - exists bos, eos, persona_token, speaker1, speaker2.
    split; [reflexivity|]. split; [reflexivity|]. split; [|reflexivity].
    intros t Hin. apply in_app_or in Hin as [Hin | Hin].
    + apply flatten_persona_In in Hin as [-> | Hin]; tauto.
    + apply tagged_In in Hin as [(i & ->) | Hin]; [|tauto].
      unfold speaker_of. destruct (Nat.odd i); tauto.
  - intros reply'. eexists. split; [reflexivity|]. simpl. tauto.
Qed.

End SegmentFacts.

(** ** sample_sequence *)

Section SamplingFacts.

Context `{TrainId} `{Torch} `{!Externals}.

(** Each iteration of the decoding loop appends at most one token. *)
Lemma decode_loop_length (fuel : nat) (model : seq2seq) (args : Args)
    (personality history : list (list Z)) (lang : string)
    (special_map : gmap string Z) (special_tokens_ids : list Z)
    (n : nat) (i : Z) (current_output out : list Z) (w w' : world) :
  decode_loop fuel model args personality history lang special_map
    special_tokens_ids n i current_output w = (Ok out, w') ->
  (length out <= length current_output + n)%nat.
Proof.
  revert i current_output w.
  induction n as [|n IH]; intros i current_output w E.
  - apply ret_Ok in E as [-> _]. lia.
  - cbn [decode_loop] in E.
    inv_bind E. inv_bind E. inv_bind E. inv_bind E. inv_bind E.
    destruct (memZ (Z.of_nat a3) special_tokens_ids).
    + apply ret_Ok in E as [-> _]. lia.
    + apply IH in E. rewrite length_app in E. simpl in E. lia.
Qed.

(** The tokens the decoding loop appends are not special tokens. *)
Lemma decode_loop_extends (fuel : nat) (model : seq2seq) (args : Args)
    (personality history : list (list Z)) (lang : string)
    (special_map : gmap string Z) (special_tokens_ids : list Z)
    (n : nat) (i : Z) (current_output out : list Z) (w w' : world) :
  decode_loop fuel model args personality history lang special_map
    special_tokens_ids n i current_output w = (Ok out, w') ->
  exists new, out = current_output ++ new /\
              Forall (fun t => memZ t special_tokens_ids = false) new.
Proof.
  revert i current_output w.
  induction n as [|n IH]; intros i current_output w E.
  - apply ret_Ok in E as [-> _]. exists []. split; [now rewrite app_nil_r | constructor].
  - cbn [decode_loop] in E.
    inv_bind E. inv_bind E. inv_bind E. inv_bind E. inv_bind E.
    destruct (memZ (Z.of_nat a3) special_tokens_ids) eqn:Hmem.
    + apply ret_Ok in E as [-> _]. exists [].
      split; [now rewrite app_nil_r | constructor].
    + apply IH in E as (new & -> & Hnew).
      exists (Z.of_nat a3 :: new). split; [now rewrite <- app_assoc|].
      constructor; assumption.
Qed.

(** C2.  A call of [sample_sequence] with [current_output = None] that
    returns a reply returns at most [args.max_length] tokens (none when
    [max_length] is not positive). *)
Theorem sample_sequence_length (fuel : nat) (personality history : list (list Z))
    (model : seq2seq) (args : Args) (lang : string) (special_map : gmap string Z)
    (out : list Z) (w w' : world) :
  sample_sequence fuel personality history model args lang special_map None w
    = (Ok out, w') ->
  (length out <= Z.to_nat (max_length args))%nat /\
  (0 <= max_length args -> Z.of_nat (length out) <= max_length args).
Proof.
  unfold sample_sequence. intros E.
  inv_bind E. inv_bind E. inv_bind E.
  apply ret_Ok in E as [-> _].
  apply decode_loop_length in Hstep0. simpl in Hstep0.
  split; lia.
Qed.

End SamplingFacts.

(** ** The console loops *)

Section ConsoleFacts.

Context `{Externals}.

Lemma console_console (w : world) (l1 l2 o1 o2 : list string) :
  console (console w l1 o1) l2 o2 = console w l2 (o1 ++ o2).
Proof. unfold console. simpl. now rewrite <- app_assoc. Qed.

Lemma console_id (w : world) : console w (stdin w) [] = w.
Proof. destruct w. unfold console. simpl. now rewrite app_nil_r. Qed.

Lemma print_console (s : string) (w : world) :
  print s w = (Ok tt, console w (stdin w) [s]).
Proof. reflexivity. Qed.

Lemma input_line (prompt line : string) (rest : list string) (w : world) :
  stdin w = line :: rest ->
  input prompt w = (Ok line, console w rest [prompt]).
Proof. unfold input. intros ->. reflexivity. Qed.

Lemma input_eof (prompt : string) (w : world) :
  stdin w = [] ->
  input prompt w = (Raise EOFError, console w [] [prompt]).
Proof. unfold input, console. intros E. rewrite E. reflexivity. Qed.

Section Loop.

Variable valid : string -> bool.
Variables complaint prompt : string.

Lemma reprompt_loop_valid (n : nat) (s : string) (w : world) :
  valid s = true ->
  reprompt_loop valid complaint prompt n s w = (Ok s, w).
Proof. intros Hs. destruct n; simpl; rewrite Hs; reflexivity. Qed.

Lemma reprompt_loop_step (n : nat) (s line : string) (rest : list string) (w : world) :
  valid s = false ->
  stdin w = line :: rest ->
  reprompt_loop valid complaint prompt (S n) s w =
  reprompt_loop valid complaint prompt n line (console w rest [complaint; prompt]).
Proof.
  intros Hs Hin. cbn [reprompt_loop]. rewrite Hs. cbn [negb].
  unfold bind at 1. rewrite print_console.
  unfold bind at 1.
  rewrite (input_line prompt line rest) by exact Hin.
  rewrite console_console. reflexivity.
Qed.

Lemma reprompt_loop_eof (n : nat) (s : string) (w : world) :
  valid s = false ->
  stdin w = [] ->
  reprompt_loop valid complaint prompt n s w =
  (Raise EOFError, console w [] [complaint; prompt]).
Proof.
  intros Hs Hin.
  assert (E : forall k : string -> M string,
             bind (print complaint) (fun _ => bind (input prompt) k) w =
             (Raise EOFError, console w [] [complaint; prompt])).
  { intros k. unfold bind at 1. rewrite print_console.
    unfold bind at 1. rewrite input_eof by exact Hin.
    rewrite console_console. reflexivity. }
  destruct n; cbn [reprompt_loop]; rewrite Hs; cbn [negb]; apply E.
Qed.

(** Rejected entries are answered one by one until a valid entry comes. *)
Lemma reprompt_loop_accepts (bad : list string) :
  forall (n : nat) (s good : string) (rest : list string) (w : world),
    valid s = false ->
    Forall (fun b => valid b = false) bad ->
    valid good = true ->
    stdin w = bad ++ good :: rest ->
    (length (stdin w) <= n)%nat ->
    reprompt_loop valid complaint prompt n s w =
    (Ok good, console w rest (complaints complaint prompt (s :: bad))).
Proof.
  induction bad as [|b bad IH]; intros n s good rest w Hs Hbad Hgood Hin Hn.
  - rewrite Hin in Hn. simpl in Hn. destruct n as [|n]; [lia|].
    rewrite (reprompt_loop_step n s good rest) by assumption.
    rewrite reprompt_loop_valid by assumption. reflexivity.
  - rewrite Hin in Hn. simpl in Hn. destruct n as [|n]; [lia|].
    inversion Hbad as [|? ? Hb Hbad']; subst.
    rewrite (reprompt_loop_step n s b (bad ++ good :: rest)) by assumption.
    rewrite (IH n b good rest); try assumption; try reflexivity.
    + rewrite console_console. reflexivity.
    + simpl. lia.
Qed.

(** With rejected entries only, the loop answers each of them and ends
    with the console: no entry is accepted. *)
Lemma reprompt_loop_rejects (bad : list string) :
  forall (n : nat) (s : string) (w : world),
    valid s = false ->
    Forall (fun b => valid b = false) bad ->
    stdin w = bad ->
    (length (stdin w) <= n)%nat ->
    reprompt_loop valid complaint prompt n s w =
    (Raise EOFError, console w [] (complaints complaint prompt (s :: bad))).
Proof.
  induction bad as [|b bad IH]; intros n s w Hs Hbad Hin Hn.
  - now apply reprompt_loop_eof.
  - rewrite Hin in Hn. simpl in Hn. destruct n as [|n]; [lia|].
    inversion Hbad as [|? ? Hb Hbad']; subst.
    rewrite (reprompt_loop_step n s b bad) by assumption.
    rewrite (IH n b); try assumption; try reflexivity.
    + rewrite console_console. reflexivity.
    + simpl. lia.
Qed.

Lemma ask_accepts (bad : list string) (good : string) (rest : list string) (w : world) :
  Forall (fun b => valid b = false) bad ->
  valid good = true ->
  stdin w = bad ++ good :: rest ->
  ask valid complaint prompt w =
  (Ok good, console w rest (prompt :: complaints complaint prompt bad)).
Proof.
  intros Hbad Hgood Hin. unfold ask.
  destruct bad as [|b bad].
  - unfold bind. rewrite (input_line prompt good rest) by exact Hin.
    rewrite reprompt_loop_valid by assumption. reflexivity.
  - inversion Hbad as [|? ? Hb Hbad']; subst.
    unfold bind. rewrite (input_line prompt b (bad ++ good :: rest)) by exact Hin.
    rewrite (reprompt_loop_accepts bad _ b good rest); try assumption.
    + rewrite console_console. reflexivity.
    + reflexivity.
    + rewrite Hin. simpl. lia.
Qed.

Lemma ask_rejects (w : world) :
  Forall (fun b => valid b = false) (stdin w) ->
  ask valid complaint prompt w =
  (Raise EOFError, console w [] (prompt :: complaints complaint prompt (stdin w))).
Proof.
  intros Hbad. unfold ask.
  destruct (stdin w) as [|b bad] eqn:Hin.
  - unfold bind. rewrite input_eof by exact Hin. reflexivity.
  - inversion Hbad as [|? ? Hb Hbad']; subst.
    unfold bind. rewrite (input_line prompt b bad) by exact Hin.
    rewrite (reprompt_loop_rejects bad _ b); try assumption.
    + rewrite console_console. reflexivity.
    + reflexivity.
    + simpl. lia.
Qed.

(** The entries on the console are all rejected, or there is a first
    valid one. *)
Lemma first_valid (lines : list string) :
  Forall (fun b => valid b = false) lines \/
  exists bad good rest,
    lines = bad ++ good :: rest /\
    Forall (fun b => valid b = false) bad /\ valid good = true.
Proof.
  induction lines as [|l lines IH]; [left; constructor|].
  destruct (valid l) eqn:Hl.
  - right. exists [], l, lines. repeat split; [constructor | exact Hl].
  - destruct IH as [IH | (bad & good & rest & -> & Hbad & Hgood)].
    + left. constructor; assumption.
    + right. exists (l :: bad), good, rest.
      repeat split; [constructor; assumption | exact Hgood].
Qed.

Lemma ask_Ok_world (w w' : world) (s : string) :
  ask valid complaint prompt w = (Ok s, w') ->
  files w' = files w /\ calls w' = calls w.
Proof.
  intros E.
  destruct (first_valid (stdin w)) as [Hbad | (bad & good & rest & Hin & Hbad & Hgood)].
  - rewrite ask_rejects in E by exact Hbad. discriminate.
  - rewrite (ask_accepts bad good rest) in E by assumption.
    injection E as _ <-. split; reflexivity.
Qed.

Lemma ask_Ok_valid (w w' : world) (s : string) :
  ask valid complaint prompt w = (Ok s, w') -> valid s = true.
Proof.
  intros E.
  destruct (first_valid (stdin w)) as [Hbad | (bad & good & rest & Hin & Hbad & Hgood)].
  - rewrite ask_rejects in E by exact Hbad. discriminate.
  - rewrite (ask_accepts bad good rest) in E by assumption.
    injection E as <- _. exact Hgood.
Qed.

End Loop.

Lemma mem_string_In (x : string) (xs : list string) :
  mem_string x xs = true <-> In x xs.
Proof.
  unfold mem_string. rewrite existsb_exists. split.
  - intros (y & Hy & E). apply String.eqb_eq in E. now subst.
  - intros Hx. exists x. split; [exact Hx | apply String.eqb_refl].
Qed.

Lemma mem_string_not_In (x : string) (xs : list string) :
  mem_string x xs = false <-> ~ In x xs.
Proof.
  rewrite <- mem_string_In. destruct (mem_string x xs); split; intros; congruence.
Qed.

Lemma nonempty_valid (s : string) : negb (String.eqb s "") = true <-> s <> "".
Proof.
  destruct (String.eqb_spec s ""); simpl; split; intros; congruence.
Qed.

Lemma empty_invalid (s : string) : negb (String.eqb s "") = false <-> s = "".
Proof.
  destruct (String.eqb_spec s ""); simpl; split; intros; congruence.
Qed.

(** C4.  The language prompt answers every entry outside the fixed list
    with ['Choose correct language!'] and a new prompt, and returns the
    first entry of the list; an entry of the list given first is returned
    with no complaint.  If no entry is in the list, every entry is answered
    that way until the console ends ([EOFError]): none is accepted.  The
    interactive prompt does the same with the empty text as the one
    rejected entry.  Neither prompt ever returns a rejected entry. *)
Theorem console_validation (w : world) :
  (forall (bad : list string) (good : string) (rest : list string),
      Forall (fun b => ~ In b LANGUAGES) bad ->
      In good LANGUAGES ->
      stdin w = bad ++ good :: rest ->
      choose_language w =
      (Ok good,
       console w rest
         (LANGUAGE_PROMPT :: complaints "Choose correct language!" LANGUAGE_PROMPT bad))) /\
  (Forall (fun b => ~ In b LANGUAGES) (stdin w) ->
      choose_language w =
      (Raise EOFError,
       console w []
         (LANGUAGE_PROMPT ::
          complaints "Choose correct language!" LANGUAGE_PROMPT (stdin w)))) /\
  (forall (lang : string) (w' : world),
      choose_language w = (Ok lang, w') -> In lang LANGUAGES) /\
  (forall (bad : list string) (good : string) (rest : list string),
      Forall (fun b => b = "") bad ->
      good <> "" ->
      stdin w = bad ++ good :: rest ->
      read_prompt w =
      (Ok good,
       console w rest (">>> " :: complaints "Prompt should not be empty!" ">>> " bad))) /\
  (Forall (fun b => b = "") (stdin w) ->
      read_prompt w =
      (Raise EOFError,
       console w []
         (">>> " :: complaints "Prompt should not be empty!" ">>> " (stdin w)))) /\
  (forall (raw_text : string) (w' : world),
      read_prompt w = (Ok raw_text, w') -> raw_text <> "").
Proof.
  unfold choose_language, read_prompt.
  split; [|split; [|split; [|split; [|split]]]].
  - intros bad good rest Hbad Hgood Hin. apply ask_accepts; try assumption.
    + eapply Forall_impl; [exact Hbad|]. intros b Hb. now apply mem_string_not_In.
    + now apply mem_string_In.
  - intros Hbad. apply ask_rejects.
    eapply Forall_impl; [exact Hbad|]. intros b Hb. now apply mem_string_not_In.
  - intros lang w' E. apply ask_Ok_valid in E. now apply mem_string_In.
  - intros bad good rest Hbad Hgood Hin. apply ask_accepts; try assumption.
    + eapply Forall_impl; [exact Hbad|]. intros b Hb. now apply empty_invalid.
    + now apply nonempty_valid.
  - intros Hbad. apply ask_rejects.
    eapply Forall_impl; [exact Hbad|]. intros b Hb. now apply empty_invalid.
  - intros raw_text w' E. apply ask_Ok_valid in E. now apply nonempty_valid.
Qed.

End ConsoleFacts.

(** ** Effects of the decoding loop *)

Section QuietFacts.

Context `{TrainId} `{Torch} `{!Externals}.

Lemma quiet_refl (w : world) : quiet w w.
Proof. repeat split. Qed.

Lemma quiet_trans (w1 w2 w3 : world) : quiet w1 w2 -> quiet w2 w3 -> quiet w1 w3.
Proof. unfold quiet. intros (-> & -> & -> & ->) (-> & -> & -> & ->). repeat split. Qed.

Lemma quietly_ret {A : Type} (a : A) : quietly (ret a).
Proof. intros w r w' E. injection E as _ <-. apply quiet_refl. Qed.

Lemma quietly_lift {A : Type} (x : result A) : quietly (lift x).
Proof. intros w r w' E. injection E as _ <-. apply quiet_refl. Qed.

Lemma quietly_bind {A B : Type} (m : M A) (k : A -> M B) :
  quietly m -> (forall a, quietly (k a)) -> quietly (bind m k).
Proof.
  intros Hm Hk w r w' E. unfold bind in E.
  destruct (m w) as [[a| |] w1] eqn:Em.
  - eapply quiet_trans; [eapply Hm, Em | eapply Hk, E].
  - injection E as _ <-. eapply Hm, Em.
  - injection E as _ <-. eapply Hm, Em.
Qed.

Lemma quietly_draw (probs : list float32) : quietly (draw probs).
Proof.
  intros w r w' E. unfold draw in E.
  destruct (multinomial probs (rng_state w)) as [x g].
  injection E as _ <-. repeat split.
Qed.

Lemma quietly_warn (s : string) : quietly (warn s).
Proof. intros w r w' E. injection E as _ <-. repeat split. Qed.

Lemma quietly_resample (fuel : nat) (probs : list float32) (specials : list Z) (prev : nat) :
  quietly (resample fuel probs specials prev).
Proof.
  revert prev. induction fuel as [|fuel IH]; intros prev; cbn [resample];
    destruct (memZ (Z.of_nat prev) specials); try apply quietly_ret;
    destruct (max_is_one probs).
  - apply quietly_bind; [apply quietly_warn | intros; apply quietly_ret].
  - apply quietly_lift.
  - apply quietly_bind; [apply quietly_warn | intros; apply quietly_ret].
  - apply quietly_bind; [apply quietly_draw | exact IH].
Qed.

Lemma quietly_decode_loop (fuel : nat) (model : seq2seq) (args : Args)
    (personality history : list (list Z)) (lang : string)
    (special_map : gmap string Z) (specials : list Z) (n : nat) :
  forall (i : Z) (current_output : list Z),
    quietly (decode_loop fuel model args personality history lang special_map
               specials n i current_output).
Proof.
  induction n as [|n IH]; intros i current_output; cbn [decode_loop].
  - apply quietly_ret.
  - apply quietly_bind; [apply quietly_lift | intros inst].
    apply quietly_bind; [apply quietly_lift | intros logits].
    apply quietly_bind; [apply quietly_lift | intros filtered].
    apply quietly_bind.
    { destruct (no_sample args); [apply quietly_lift | apply quietly_draw]. }
    intros prev. apply quietly_bind.
    { destruct ((i <? min_length args)%Z && memZ (Z.of_nat prev) specials);
        [apply quietly_resample | apply quietly_ret]. }
    intros prev'. destruct (memZ (Z.of_nat prev') specials);
      [apply quietly_ret | apply IH].
Qed.

(** A finished call of [sample_sequence] adds itself to the trace and
    leaves the console and the files alone. *)
Lemma sample_sequence_effect (fuel : nat) (personality history : list (list Z))
    (model : seq2seq) (args : Args) (lang : string) (special_map : gmap string Z)
    (current_output : option (list Z)) (out : list Z) (w w' : world) :
  sample_sequence fuel personality history model args lang special_map current_output w
    = (Ok out, w') ->
  stdin w' = stdin w /\ stdout w' = stdout w /\ files w' = files w /\
  calls w' = calls w ++ [(history, out)].
Proof.
  unfold sample_sequence. intros E.
  inv_bind E. inv_bind E. inv_bind E.
  apply ret_Ok in E as [-> ->].
  apply lift_Ok in Hstep as [_ ->].
  apply quietly_decode_loop in Hstep0 as (E1 & E2 & E3 & E4).
  unfold log_call in Hstep1. injection Hstep1 as _ <-. simpl.
  rewrite E1, E2, E3, E4. repeat split.
Qed.

End QuietFacts.

(** ** The history window *)

Section WindowFacts.

Lemma slice_from_neg {A : Type} (m : Z) (l : list A) :
  1 <= m -> slice_from (- m) l = drop (length l - Z.to_nat m) l.
Proof.
  intros Hm. unfold slice_from.
  destruct (Z.ltb_spec (- m) 0) as [_|]; [|lia].
  f_equal. lia.
Qed.

Lemma slice_from_zero {A : Type} (l : list A) : slice_from (- 0) l = l.
Proof. unfold slice_from. simpl. now rewrite Z.min_l by lia. Qed.

Lemma window_drop (args : Args) (h : list (list Z)) :
  1 <= max_turns args ->
  window args h = drop (length h - Z.to_nat (max_turns args)) h.
Proof. apply slice_from_neg. Qed.

Lemma window_suffix (args : Args) (h : list (list Z)) : suffix (window args h) h.
Proof. unfold window, slice_from. apply suffix_drop. Qed.

Lemma window_length (args : Args) (h : list (list Z)) :
  1 <= max_turns args ->
  Z.of_nat (length (window args h)) <= max_turns args.
Proof. intros Hm. rewrite window_drop by exact Hm. rewrite length_drop. lia. Qed.

Lemma window_last (args : Args) (h : list (list Z)) (o : list Z) :
  1 <= max_turns args -> last (window args (h ++ [o])) = Some o.
Proof.
  intros Hm. rewrite window_drop by exact Hm.
  rewrite length_app. simpl.
  rewrite drop_app_le by lia. apply last_snoc.
Qed.

Lemma window_window_app (args : Args) (x y : list (list Z)) :
  1 <= max_turns args -> y <> [] ->
  window args (window args x ++ y) = window args (x ++ y).
Proof.
  intros Hm Hy. rewrite !window_drop by exact Hm.
  assert (0 < length y)%nat by (destruct y; simpl; [congruence | lia]).
  rewrite !length_app, length_drop.
  destruct (Nat.le_gt_cases (length x) (Z.to_nat (max_turns args))) as [Hle | Hgt].
  - replace (length x - Z.to_nat (max_turns args))%nat with 0%nat by lia.
    rewrite drop_0. f_equal. lia.
  - rewrite <- (drop_app_le x y (length x - Z.to_nat (max_turns args))) by lia.
    rewrite drop_drop. f_equal. lia.
Qed.

Lemma after_turns_window (args : Args) (outs : list (list Z)) :
  1 <= max_turns args -> outs <> [] ->
  forall h, after_turns args h outs = window args (h ++ outs).
Proof.
  intros Hm. induction outs as [|o outs IH]; [congruence|]. intros _ h.
  unfold after_turns in *. cbn [foldl].
  destruct outs as [|o' outs]; [reflexivity|].
  rewrite IH by congruence.
  rewrite window_window_app by (assumption || congruence).
  now rewrite <- app_assoc.
Qed.

End WindowFacts.

(** ** Turns and conversations *)

Section TurnFacts.

Context `{TrainId} `{Torch} `{!Externals}.

Lemma print_Ok (s : string) (w w' : world) (u : unit) :
  print s w = (Ok u, w') ->
  stdin w' = stdin w /\ stdout w' = stdout w ++ [s] /\
  files w' = files w /\ calls w' = calls w.
Proof. intros E. injection E as _ <-. repeat split. Qed.

Lemma choice_Ok {A : Type} (xs : list A) (x : A) (w w' : world) :
  choice xs w = (Ok x, w') ->
  In x xs /\ stdin w' = stdin w /\ stdout w' = stdout w /\
  files w' = files w /\ calls w' = calls w.
Proof.
  unfold choice. destruct xs as [|x0 xs]; [discriminate|]. intros E.
  inv_bind E. unfold with_rng in Hstep.
  destruct (randbelow (length (x0 :: xs)) (rng_state w)) as [k g].
  injection Hstep as <- <-.
  destruct ((x0 :: xs) !! k) as [y|] eqn:Hk; [|discriminate].
  apply ret_Ok in E as [-> ->].
  split; [|repeat split].
  apply list_elem_of_In. eapply list_elem_of_lookup_2, Hk.
Qed.

Lemma append_file_Ok (path : string) (cs : list chunk) (w w' : world) (u : unit) :
  append_file path cs w = (Ok u, w') ->
  stdin w' = stdin w /\ stdout w' = stdout w /\ calls w' = calls w /\
  files w' = <[path := default [] (files w !! path) ++ cs]> (files w).
Proof.
  unfold append_file. intros E. inv_bind E.
  apply lift_Ok in Hstep as [_ ->]. injection E as _ <-. repeat split.
Qed.

Variables (fuel : nat) (tok : tokenizer) (model : seq2seq) (args : Args).
Variables (lang : string) (special_map : gmap string Z).

(** One self-play turn: one call of [sample_sequence] on the history as it
    stands, its reply appended, the window applied, one entry recorded. *)
Lemma self_play_turn_effect (p1 p2 : list (list Z)) (i : nat)
    (h h' : list (list Z)) (d d' : list turn) (w w' : world) :
  self_play_turn fuel tok model args lang special_map p1 p2 i (h, d) w
    = (Ok (h', d'), w') ->
  exists out,
    h' = window args (h ++ [out]) /\
    d' = d ++ turns_from tok lang i [out] /\
    calls w' = calls w ++ [(h, out)] /\
    files w' = files w.
Proof.
  unfold self_play_turn. intros E. inv_bind E. inv_bind E.
  apply ret_Ok in E as [E ->]. injection E as -> ->.
  apply sample_sequence_effect in Hstep as (_ & _ & Hf & Hc).
  apply print_Ok in Hstep0 as (_ & _ & Hf' & Hc').
  exists a. repeat split; congruence.
Qed.

(** One interactive turn: the entry read is not empty; it and the reply
    are appended to the history and the window applied. *)
Lemma interactive_turn_effect (personality : list (list Z))
    (h h' : list (list Z)) (w w' : world) :
  interactive_turn fuel tok model args lang special_map personality h w = (Ok h', w') ->
  exists raw_text out,
    raw_text <> "" /\
    h' = window args ((h ++ [encode tok raw_text]) ++ [out]).
Proof.
  unfold interactive_turn. intros E. inv_bind E. inv_bind E. inv_bind E.
  apply ret_Ok in E as [-> ->].
  exists a, a0. split; [|reflexivity].
  unfold read_prompt in Hstep. apply ask_Ok_valid in Hstep.
  now apply nonempty_valid.
Qed.

Lemma turns_effect (p1 p2 : list (list Z)) (n : nat) :
  forall (i : nat) (h h' : list (list Z)) (d d' : list turn) (w w' : world),
    for_range n i (self_play_turn fuel tok model args lang special_map p1 p2) (h, d) w
      = (Ok (h', d'), w') ->
    exists outs,
      length outs = n /\
      h' = after_turns args h outs /\
      d' = d ++ turns_from tok lang i outs /\
      calls w' = calls w ++ call_trace args h outs /\
      files w' = files w.
Proof.
  induction n as [|n IH]; intros i h h' d d' w w' E; cbn [for_range] in E.
  - apply ret_Ok in E as [E ->]. injection E as -> ->.
    exists []. simpl. rewrite !app_nil_r. repeat split.
  - inv_bind E. destruct a as [h1 d1].
    apply self_play_turn_effect in Hstep as (out & -> & -> & Hc & Hf).
    apply IH in E as (outs & Hlen & -> & -> & Hc' & Hf').
    exists (out :: outs). simpl. rewrite Hlen, Hc', Hc, Hf', Hf.
    rewrite <- !app_assoc. repeat split.
Qed.

End TurnFacts.

Section ConversationFacts.

Context `{TrainId} `{Torch} `{!Externals}.

Variables (fuel : nat) (tok : tokenizer) (model : seq2seq) (args : Args).
Variables (lang : string) (special_map : gmap string Z).
Variable personalities : list (list (list Z)).

(** One conversation: a starter of the language, thirteen replies, each
    generated from the history as it then stands, and one dump followed by
    one newline appended to the transcript file. *)
Lemma conversation_effect (j : nat) (h h' : list (list Z)) (w w' : world) :
  conversation fuel tok model args lang special_map personalities j h w = (Ok h', w') ->
  exists (c : string * list (list Z)) (lang_name : string) (candidates : list string),
    starters !! lang = Some candidates /\ In (fst c) candidates /\
    LANG_MAP !! lang = Some lang_name /\
    length (snd c) = 13%nat /\
    h' = after_conversation tok args h c /\
    calls w' = calls w ++ call_trace args (h ++ [encode tok (fst c)]) (snd c) /\
    files w' =
      <[transcript_path lang_name :=
          default [] (files w !! transcript_path lang_name) ++
          [Dump (transcript_of tok lang c); Text newline]]> (files w).
Proof.
  unfold conversation. intros E.
  inv_bind E. apply print_Ok in Hstep as (_ & _ & Hf0 & Hc0).
  inv_bind E. apply choice_Ok in Hstep as (_ & _ & _ & Hf1 & Hc1).
  inv_bind E. apply choice_Ok in Hstep as (_ & _ & _ & Hf2 & Hc2).
  inv_bind E. apply lift_Ok in Hstep as [Hcand ->].
  inv_bind E. apply choice_Ok in Hstep as (Hin & _ & _ & Hf3 & Hc3).
  inv_bind E. apply print_Ok in Hstep as (_ & _ & Hf4 & Hc4).
  inv_bind E. destruct a5 as [h1 d1].
  apply turns_effect in Hstep as (outs & Hlen & -> & -> & Hc5 & Hf5).
  inv_bind E. apply lift_Ok in Hstep as [Hname ->].
  inv_bind E. apply append_file_Ok in Hstep as (_ & _ & Hc6 & Hf6).
  apply ret_Ok in E as [-> ->].
  unfold getitem in Hcand, Hname.
  destruct (starters !! lang) as [candidates|] eqn:Hs; [|discriminate].
  destruct (LANG_MAP !! lang) as [lang_name|] eqn:Hl; [|discriminate].
  injection Hcand as <-. injection Hname as <-.
  exists (a3, outs), lang_name, candidates. cbn [fst snd].
  repeat split; try assumption.
  - rewrite Hc6, Hc5, Hc4, Hc3, Hc2, Hc1, Hc0. reflexivity.
  - rewrite Hf6, Hf5, Hf4, Hf3, Hf2, Hf1, Hf0. reflexivity.
Qed.

(** A run of conversations: each leaves its history to the next one. *)
Lemma conversations_effect (lang_name : string) (n : nat) :
  LANG_MAP !! lang = Some lang_name ->
  forall (j : nat) (h h' : list (list Z)) (w w' : world),
    for_range n j (conversation fuel tok model args lang special_map personalities) h w
      = (Ok h', w') ->
    exists convs : list (string * list (list Z)),
      length convs = n /\
      Forall (fun c => (exists candidates, starters !! lang = Some candidates /\
                                           In (fst c) candidates) /\
                       length (snd c) = 13%nat) convs /\
      h' = carry tok args h convs /\
      calls w' = calls w ++ traces tok args h convs /\
      default [] (files w' !! transcript_path lang_name) =
        default [] (files w !! transcript_path lang_name) ++
        transcript_lines tok lang convs /\
      (forall p, p <> transcript_path lang_name -> files w' !! p = files w !! p).
Proof.
  intros Hname. induction n as [|n IH]; intros j h h' w w' E; cbn [for_range] in E.
  - apply ret_Ok in E as [-> ->]. exists [].
    unfold transcript_lines. simpl. rewrite !app_nil_r.
    repeat split. constructor.
  - inv_bind E.
    apply conversation_effect in Hstep
      as (c & name & candidates & Hs & Hin & Hl & Hlen & -> & Hc & Hf).
    assert (name = lang_name) as -> by congruence.
    apply IH in E as (convs & Hn & Hall & -> & Hc' & Hf' & Hother).
    exists (c :: convs). split; [simpl; congruence|].
    split; [constructor; [split; [eauto | exact Hlen] | exact Hall]|].
    split; [reflexivity|].
    split; [rewrite Hc', Hc; simpl; now rewrite <- app_assoc|].
    split.
    + rewrite Hf', Hf, lookup_insert_eq. simpl.
      unfold transcript_lines. simpl. now rewrite <- app_assoc.
    + intros p Hp. rewrite (Hother p Hp), Hf. now apply lookup_insert_ne.
Qed.

End ConversationFacts.

(** ** run *)

Section RunFacts.

Context `{TrainId} `{Torch} `{!Externals}.

Lemma parse_args_self_play (cl : CommandLine) (args : Args) :
  parse_args cl = Ok args -> self_play args = opt_self_play cl.
Proof.
  unfold parse_args. intros E.
  repeat (apply rbind_Ok in E as (? & _ & E)).
  injection E as <-. reflexivity.
Qed.

Lemma seed_all_Ok (s : Z) (w w' : world) (u : unit) :
  seed_all s w = (Ok u, w') ->
  stdin w' = stdin w /\ stdout w' = stdout w /\
  files w' = files w /\ calls w' = calls w.
Proof.
  unfold seed_all. destruct (s =? 0)%Z; intros E; injection E as _ <-; repeat split.
Qed.

(** A finished run in self-play mode went through the fifty conversations,
    entered with an empty history, a language of the list, and the files
    and the trace of calls as they were at the start. *)
Lemma run_self_play (fuel : nat) (cl : CommandLine) (w w' : world) :
  opt_self_play cl = true ->
  run fuel cl w = (Ok tt, w') ->
  exists args tok model entry special_map personalities lang_name w1,
    parse_args cl = Ok args /\
    In entry LANGUAGES /\
    LANG_MAP !! ("<" +:+ entry +:+ ">") = Some lang_name /\
    files w1 = files w /\ calls w1 = calls w /\
    self_play_mode fuel tok model args ("<" +:+ entry +:+ ">") special_map
      personalities [] w1 = (Ok tt, w').
Proof.
  intros Hsp. unfold run. intros E.
  inv_bind_as E args w0. apply lift_Ok in Hstep as [Hargs ->].
  inv_bind E. apply seed_all_Ok in Hstep as (_ & _ & Hf0 & Hc0).
  inv_bind_as E tok w2. apply lift_Ok in Hstep as [_ ->].
  inv_bind E. apply lift_Ok in Hstep as [_ ->].
  inv_bind E. apply lift_Ok in Hstep as [_ ->].
  inv_bind E. apply lift_Ok in Hstep as [_ ->].
  inv_bind_as E special_map w3. apply lift_Ok in Hstep as [_ ->].
  inv_bind_as E model w4. apply lift_Ok in Hstep as [_ ->].
  inv_bind_as E entry w5. unfold choose_language in Hstep.
  pose proof (ask_Ok_valid _ _ _ _ _ _ Hstep) as Hvalid.
  apply mem_string_In in Hvalid.
  apply ask_Ok_world in Hstep as (Hf1 & Hc1).
  inv_bind E. apply lift_Ok in Hstep as [_ ->].
  inv_bind E. apply lift_Ok in Hstep as [_ ->].
  inv_bind_as E name w6. apply lift_Ok in Hstep as [Hname ->].
  inv_bind_as E personalities w7. apply lift_Ok in Hstep as [_ ->].
  rewrite (parse_args_self_play cl args Hargs), Hsp in E.
  unfold getitem in Hname.
  destruct (LANG_MAP !! ("<" +:+ entry +:+ ">")) as [lang_name|] eqn:Hl; [|discriminate].
  exists args, tok, model, entry, special_map, personalities, lang_name, w5.
  repeat split; try assumption; congruence.
Qed.

End RunFacts.

(** ** Self-play *)

Section SelfPlayFacts.

Context `{TrainId} `{Torch} `{!Externals}.

Lemma call_trace_replies (args : Args) (outs : list (list Z)) :
  forall h, map snd (call_trace args h outs) = outs.
Proof. induction outs as [|o outs IH]; intros h; simpl; [|rewrite IH]; reflexivity. Qed.

Lemma call_trace_length (args : Args) (outs : list (list Z)) (h : list (list Z)) :
  length (call_trace args h outs) = length outs.
Proof. rewrite <- (call_trace_replies args outs h) at 2. now rewrite length_map. Qed.

Lemma traces_replies (tok : tokenizer) (args : Args) (convs : list (string * list (list Z))) :
  forall h, map snd (traces tok args h convs) = concat (map snd convs).
Proof.
  induction convs as [|c convs IH]; intros h; simpl; [reflexivity|].
  now rewrite map_app, call_trace_replies, IH.
Qed.

Lemma traces_app (tok : tokenizer) (args : Args) (cs1 cs2 : list (string * list (list Z))) :
  forall h,
    traces tok args h (cs1 ++ cs2) =
    traces tok args h cs1 ++ traces tok args (carry tok args h cs1) cs2.
Proof.
  induction cs1 as [|c cs1 IH]; intros h; simpl; [reflexivity|].
  now rewrite IH, <- app_assoc.
Qed.

Lemma traces_length (tok : tokenizer) (args : Args) (convs : list (string * list (list Z))) :
  Forall (fun c => length (snd c) = 13%nat) convs ->
  forall h, length (traces tok args h convs) = (13 * length convs)%nat.
Proof.
  induction 1 as [|c convs Hc _ IH]; intros h; simpl; [reflexivity|].
  rewrite length_app, call_trace_length, IH, Hc. lia.
Qed.

Lemma turns_from_length (tok : tokenizer) (lang : string) (outs : list (list Z)) :
  forall i, length (turns_from tok lang i outs) = length outs.
Proof. induction outs as [|o outs IH]; intros i; simpl; [|rewrite IH]; reflexivity. Qed.

Lemma carry_snoc (tok : tokenizer) (args : Args) (h : list (list Z))
    (cs : list (string * list (list Z))) (c : string * list (list Z)) :
  carry tok args h (cs ++ [c]) = after_conversation tok args (carry tok args h cs) c.
Proof. unfold carry. now rewrite foldl_app. Qed.


(** C10.  In a finished run in self-play mode the history is handed from
    each conversation to the next: the history at the start of a
    conversation after the first is the one its predecessor left, and the
    first call of [sample_sequence] of the conversation receives it with the
    encoded new starter appended.  When [max_turns] is at least 1, that
    carried history is the last [max_turns] utterances of what the
    predecessor had (its own carried history, its starter, its replies): it
    is not empty, has at most [max_turns] utterances and ends with the
    predecessor's last reply. *)
Theorem history_carried_over (fuel : nat) (cl : CommandLine) (w w' : world) :
  opt_self_play cl = true ->
  run fuel cl w = (Ok tt, w') ->
  exists (args : Args) (tok : tokenizer) (convs : list (string * list (list Z))),
    parse_args cl = Ok args /\
    length convs = 50%nat /\
    calls w' = calls w ++ traces tok args [] convs /\
    forall (j : nat) (prev c : string * list (list Z)),
      convs !! j = Some prev ->
      convs !! S j = Some c ->
      let before := carry tok args [] (take j convs) in
      let h := carry tok args [] (take (S j) convs) in
      h = after_conversation tok args before prev /\
      (exists pre out0 post,
          traces tok args [] convs = pre ++ (h ++ [encode tok (fst c)], out0) :: post /\
          length pre = (13 * S j)%nat /\
          hd_error (snd c) = Some out0) /\
      (1 <= max_turns args ->
         h = window args (before ++ encode tok (fst prev) :: snd prev) /\
         h <> [] /\
         Z.of_nat (length h) <= max_turns args /\
         last h = last (snd prev)).
Proof.
  intros Hsp E.
  apply run_self_play in E
    as (args & tok & model & entry & special_map & personalities & lang_name & w1 &
        Hargs & _ & Hname & _ & Hc & E); [|exact Hsp].
  unfold self_play_mode in E. inv_bind_as E h' w2. apply ret_Ok in E as [_ ->].
  apply (conversations_effect _ _ _ _ _ _ _ lang_name 50 Hname) in Hstep
    as (convs & Hlen & Hall & _ & Hc' & _).
  exists args, tok, convs.
  split; [exact Hargs|]. split; [exact Hlen|]. split; [congruence|].
  intros j prev c Hprev Hcur before h.
  assert (Hall13 : Forall (fun c => length (snd c) = 13%nat) convs).
  { eapply Forall_impl; [exact Hall|]. now intros ? [_ ?]. }
  assert (Hh : h = after_conversation tok args before prev).
  { subst h before. rewrite (take_S_r convs j prev Hprev). apply carry_snoc. }
  pose proof (proj1 (Forall_lookup _ convs) Hall13 _ _ Hprev) as Hlp.
  pose proof (proj1 (Forall_lookup _ convs) Hall13 _ _ Hcur) as Hlc.
  cbv beta in Hlp, Hlc.
  split; [exact Hh|]. split.
  - destruct (snd c) as [|out0 outs] eqn:Hsnd; [discriminate Hlc|].
    exists (traces tok args [] (take (S j) convs)), out0,
           (call_trace args (window args ((h ++ [encode tok (fst c)]) ++ [out0])) outs ++
            traces tok args (after_conversation tok args h c) (drop (S (S j)) convs)).
    split; [|split; [|reflexivity]].
    + rewrite <- (take_drop_middle convs (S j) c Hcur) at 1.
      rewrite traces_app. fold h. simpl. rewrite Hsnd. reflexivity.
    + rewrite traces_length.
      * rewrite length_take. apply lookup_lt_Some in Hcur. lia.
      * apply Forall_take, Hall13.
  - intros Hm.
    assert (Hne : snd prev <> []).
    { intros Hnil. rewrite Hnil in Hlp. discriminate Hlp. }
    assert (Hw : h = window args (before ++ encode tok (fst prev) :: snd prev)).
    { rewrite Hh. unfold after_conversation.
      rewrite after_turns_window by assumption.
      now rewrite <- app_assoc. }
    split; [exact Hw|].
    destruct (exists_last Hne) as (outs & o & Ho).
    assert (Hlast : last h = Some o).
    { rewrite Hw, Ho.
      replace (before ++ encode tok (fst prev) :: outs ++ [o])
        with ((before ++ encode tok (fst prev) :: outs) ++ [o])
        by now rewrite <- app_assoc.
      now apply window_last. }
    split; [intros Hnil; rewrite Hnil in Hlast; discriminate|].
    split; [rewrite Hw; now apply window_length|].
    rewrite Hlast, Ho. symmetry. apply last_snoc.
Qed.

End SelfPlayFacts.

Section CarriedRuns.

Import Demo DemoMore.

(** C10 as stated fails when [max_turns] is not positive.  A conversation
    makes 13 calls of [sample_sequence], so call 13 is the first of the second
    conversation.  With [--max_turns -2] every turn leaves [history[2:]],
    the first conversation leaves the empty history, and that call receives
    the new starter alone: nothing was carried over.  With [--max_turns 0]
    the slice keeps everything and the call receives 15 utterances, 14 of
    them carried over: more than [max_turns]. *)
Example history_not_carried_over :
  history_size_at 13 (two_conversations negative_max_turns_args) = Some 1%nat /\
  history_size_at 13 (two_conversations zero_max_turns_args) = Some 15%nat.
Proof. split; vm_compute; reflexivity. Qed.

End CarriedRuns.

(** ** The window over the turns of a dialogue *)

Section BoundedHistory.

Context `{TrainId} `{Torch} `{!Externals}.

(** With [max_turns] at least 1, each finished turn, interactive or
    self-play, leaves at most [max_turns] utterances in the history. *)
Lemma turn_window_bounded (fuel : nat) (tok : tokenizer) (model : seq2seq) (args : Args)
    (lang : string) (special_map : gmap string Z) :
  1 <= max_turns args ->
  (forall personality h h' w w',
      interactive_turn fuel tok model args lang special_map personality h w = (Ok h', w') ->
      Z.of_nat (length h') <= max_turns args) /\
  (forall p1 p2 i h d h' d' w w',
      self_play_turn fuel tok model args lang special_map p1 p2 i (h, d) w
        = (Ok (h', d'), w') ->
      Z.of_nat (length h') <= max_turns args).
Proof.
  intros Hm. split.
  - intros personality h h' w w' E.
    apply interactive_turn_effect in E as (raw & out & _ & ->).
    now apply window_length.
  - intros p1 p2 i h d h' d' w w' E.
    apply self_play_turn_effect in E as (out & -> & _).
    now apply window_length.
Qed.

(** With [max_turns] equal to 0 the slice [history[-0:]] is the whole
    list: a finished turn leaves everything it was given and what it
    added. *)
Lemma turn_window_zero (fuel : nat) (tok : tokenizer) (model : seq2seq) (args : Args)
    (lang : string) (special_map : gmap string Z) :
  max_turns args = 0 ->
  (forall personality h h' w w',
      interactive_turn fuel tok model args lang special_map personality h w = (Ok h', w') ->
      length h' = (length h + 2)%nat) /\
  (forall p1 p2 i h d h' d' w w',
      self_play_turn fuel tok model args lang special_map p1 p2 i (h, d) w
        = (Ok (h', d'), w') ->
      length h' = (length h + 1)%nat).
Proof.
  intros Hm. split.
  - intros personality h h' w w' E.
    apply interactive_turn_effect in E as (raw & out & _ & ->).
    unfold window. rewrite Hm, slice_from_zero, !length_app. simpl. lia.
  - intros p1 p2 i h d h' d' w w' E.
    apply self_play_turn_effect in E as (out & -> & _).
    unfold window. rewrite Hm, slice_from_zero, !length_app. simpl. lia.
Qed.

End BoundedHistory.

Section MaxTurnsZero.

Import Demo.

(** C3, at [--max_turns 0].  One interactive turn from an empty history and
    one self-play turn from a history of one utterance both leave two
    utterances in the history, more than [max_turns]. *)
Example max_turns_zero_keeps_everything :
  let args0 :=
    {| dataset_path := ""; dataset_cache := "./dataset_cache"; model_type := "bert";
       model_checkpoint := "ckpt"; max_turns := 0; device := "cpu"; no_sample := false;
       max_length := 20; min_length := 1; seed := 0; temperature := (7 # 10)%Q;
       top_k := 0; top_p := (9 # 10)%Q; self_play := false |} in
  option_map (@length (list Z))
    (ok_value (fst (interactive_turn 20 demo_tokenizer demo_model args0 "<en>"
                      demo_special_map [[20; 21]] [] (demo_world ["hi"]))))
    = Some 2%nat /\
  option_map (fun st : list (list Z) * list turn => length (fst st))
    (ok_value (fst (self_play_turn 20 demo_tokenizer demo_model args0 "<en>"
                      demo_special_map [[20; 21]] [[22]] 0 ([[30; 31]], [])
                      (demo_world []))))
    = Some 2%nat /\
  ~ 2 <= max_turns args0.
Proof.
  split; [vm_compute; reflexivity|]. split; [vm_compute; reflexivity|].
  simpl. lia.
Qed.

End MaxTurnsZero.

(** ** The temperature flag *)

Section TemperatureFacts.

Context `{Externals}.

(** X14.  A temperature given on the command line is accepted only when [int]
    accepts it, and is then that integer. *)
Lemma temperature_flag_needs_int (cl : CommandLine) (args : Args) (s : string) :
  parse_args cl = Ok args ->
  opt_temperature cl = Some s ->
  exists z, py_int s = Some z /\ temperature args = inject_Z z.
Proof.
  unfold parse_args. intros E Hs. rewrite Hs in E.
  do 9 (apply rbind_Ok in E as (? & _ & E)).
  apply rbind_Ok in E as (t & Ht & E).
  do 2 (apply rbind_Ok in E as (? & _ & E)).
  injection E as <-. simpl.
  unfold convert in Ht. destruct (py_int s) as [z|]; [|discriminate].
  injection Ht as <-. eauto.
Qed.

End TemperatureFacts.

Section TemperatureRuns.

Import Demo.

(** C6, at [--temperature 0.7].  [int("0.7")] fails, so the parse ends the
  process with status 2; without the flag the temperature is 0.7. *)
Example temperature_flag_rejects_decimal :
py_int "0.7" = None /\
parse_args
  {| opt_dataset_path := None; opt_dataset_cache := None; opt_model := None;
     opt_model_checkpoint := Some "ckpt"; opt_max_turns := None; opt_device := None;
     opt_no_sample := false; opt_max_length := None; opt_min_length := None;
     opt_seed := None; opt_temperature := Some "0.7"; opt_top_k := None;
     opt_top_p := None; opt_self_play := false |} = Raise (SystemExit 2) /\
(exists args, parse_args Demo.demo_command_line = Ok args /\
              temperature args = (7 # 10)%Q).
Proof.
split; [reflexivity|]. split; [reflexivity|].
eexists. split; reflexivity.
Qed.

End TemperatureRuns.

(** ** Failures while loading *)

Section LoadingFacts.

Context `{TrainId} `{Torch} `{!Externals}.

(** The world when loading starts: the command line is parsed and the random
    sources are seeded; the console, the files and the trace are untouched. *)
Lemma seed_all_world (s : Z) (w : world) :
  fst (seed_all s w) = Ok tt /\
  stdin (snd (seed_all s w)) = stdin w /\
  stdout (snd (seed_all s w)) = stdout w /\
  files (snd (seed_all s w)) = files w /\
  calls (snd (seed_all s w)) = calls w.
Proof. unfold seed_all. destruct (s =? 0)%Z; repeat split. Qed.

(** C7.  Once the command line is parsed, an exception raised by the loading
    of the tokenizer, of the configuration or of the model, by the opening or
    the JSON parsing of [<model_checkpoint>/added_tokens.json], or by the
    loading of the weights ends [run] with that exception: nothing was
    printed, no line was read from the console, no file was written and no
    reply was generated. *)
Theorem load_failures_propagate (fuel : nat) (cl : CommandLine) (args : Args)
    (w : world) (e : exn) :
  parse_args cl = Ok args ->
  let ckpt := model_checkpoint args in
  let w0 := snd (seed_all (seed args) w) in
  (stdin w0 = stdin w /\ stdout w0 = stdout w /\ files w0 = files w /\ calls w0 = calls w) /\
  (tokenizer_from_pretrained ckpt = Raise e -> run fuel cl w = (Raise e, w0)) /\
  (forall tok,
      tokenizer_from_pretrained ckpt = Ok tok ->
      config_from_pretrained ckpt = Raise e ->
      run fuel cl w = (Raise e, w0)) /\
  (forall tok cfg,
      tokenizer_from_pretrained ckpt = Ok tok ->
      config_from_pretrained ckpt = Ok cfg ->
      model_from_pretrained ckpt (set_is_decoder cfg) = Raise e ->
      run fuel cl w = (Raise e, w0)) /\
  (forall tok cfg model,
      tokenizer_from_pretrained ckpt = Ok tok ->
      config_from_pretrained ckpt = Ok cfg ->
      model_from_pretrained ckpt (set_is_decoder cfg) = Ok model ->
      open_read (ckpt +:+ "/added_tokens.json") = Raise e ->
      run fuel cl w = (Raise e, w0)) /\
  (forall tok cfg model f,
      tokenizer_from_pretrained ckpt = Ok tok ->
      config_from_pretrained ckpt = Ok cfg ->
      model_from_pretrained ckpt (set_is_decoder cfg) = Ok model ->
      open_read (ckpt +:+ "/added_tokens.json") = Ok f ->
      json_load f = Raise e ->
      run fuel cl w = (Raise e, w0)) /\
  (forall tok cfg model f special_map,
      tokenizer_from_pretrained ckpt = Ok tok ->
      config_from_pretrained ckpt = Ok cfg ->
      model_from_pretrained ckpt (set_is_decoder cfg) = Ok model ->
      open_read (ckpt +:+ "/added_tokens.json") = Ok f ->
      json_load f = Ok special_map ->
      load_state_dict model (ckpt +:+ "/pytorch_model.bin") = Raise e ->
      run fuel cl w = (Raise e, w0)).
Proof.
  intros Hargs ckpt w0.
  split; [apply seed_all_world|].
  destruct (seed_all_world (seed args) w) as (Hok & _).
  subst ckpt w0. destruct (seed_all (seed args) w) as [r w0] eqn:Es.
  simpl in Hok. subst r. cbn [snd].
  unfold run, bind, lift. rewrite Hargs. cbv beta iota. rewrite Es.
  split; [intros ->; reflexivity|].
  split; [intros tok -> ->; reflexivity|].
  split; [intros tok cfg -> -> ->; reflexivity|].
  split; [intros tok cfg model -> -> -> ->; reflexivity|].
  split; [intros tok cfg model f -> -> -> -> ->; reflexivity|].
  intros tok cfg model f special_map -> -> -> -> -> ->; reflexivity.
Qed.

End LoadingFacts.

(** ** The order on logits and the sort *)

Section OrderFacts.

Lemma Qltb_lt (a b : Q) : Qltb a b = true <-> (a < b)%Q.
Proof.
  unfold Qltb. rewrite negb_true_iff. split.
  - intros E. apply Qnot_le_lt. intros Hle. apply Qle_bool_iff in Hle. congruence.
  - intros Hlt. destruct (Qle_bool b a) eqn:E; [|reflexivity].
    apply Qle_bool_iff in E. apply Qle_not_lt in E. contradiction.
Qed.

Lemma Qltb_ge (a b : Q) : Qltb a b = false <-> (b <= a)%Q.
Proof.
  unfold Qltb. rewrite negb_false_iff. apply Qle_bool_iff.
Qed.

Lemma logit_leb_refl (a : logit) : logit_leb a a = true.
Proof.
  unfold logit_leb. destruct a as [|x]; simpl; [reflexivity|].
  apply negb_true_iff, Qltb_ge, Qle_refl.
Qed.

Lemma logit_leb_total (a b : logit) : logit_leb a b = false -> logit_leb b a = true.
Proof.
  unfold logit_leb. rewrite negb_false_iff, negb_true_iff.
  destruct a as [|x], b as [|y]; simpl; try congruence.
  rewrite Qltb_lt, Qltb_ge. apply Qlt_le_weak.
Qed.

Lemma logit_leb_trans (a b c : logit) :
  logit_leb a b = true -> logit_leb b c = true -> logit_leb a c = true.
Proof.
  unfold logit_leb. rewrite !negb_true_iff.
  destruct a as [|x], b as [|y], c as [|z]; simpl; try congruence.
  rewrite !Qltb_ge. apply Qle_trans.
Qed.

Lemma logit_ltb_NegInf (a : logit) : logit_ltb a NegInf = false.
Proof. destruct a; reflexivity. Qed.

Lemma logit_leb_NegInf (a : logit) : logit_leb NegInf a = true.
Proof. destruct a; reflexivity. Qed.

Lemma logit_ltb_leb (a b : logit) : logit_leb a b = true -> logit_ltb b a = false.
Proof. unfold logit_leb. now rewrite negb_true_iff. Qed.

Lemma insert_desc_perm (x : logit * nat) (l : list (logit * nat)) :
  Permutation (insert_desc x l) (x :: l).
Proof.
  induction l as [|y l IH]; simpl; [reflexivity|].
  destruct (logit_leb (fst y) (fst x)); [reflexivity|].
  rewrite IH. apply perm_swap.
Qed.

Lemma sort_desc_perm (l : list (logit * nat)) : Permutation (sort_desc l) l.
Proof.
  induction l as [|x l IH]; simpl; [reflexivity|].
  rewrite insert_desc_perm. now constructor.
Qed.

Lemma insert_desc_sorted (x : logit * nat) (l : list (logit * nat)) :
  StronglySorted desc l -> StronglySorted desc (insert_desc x l).
Proof.
  induction 1 as [|y l Hl IH Hy]; simpl; [repeat constructor|].
  destruct (logit_leb (fst y) (fst x)) eqn:E.
  - constructor; [constructor; assumption|].
    constructor; [exact E|].
    eapply Forall_impl; [exact Hy|]. intros z Hz.
    unfold desc in *. eapply logit_leb_trans; eassumption.
  - constructor; [exact IH|].
    rewrite insert_desc_perm. constructor; [|exact Hy].
    unfold desc. now apply logit_leb_total.
Qed.

Lemma sort_desc_sorted (l : list (logit * nat)) : StronglySorted desc (sort_desc l).
Proof.
  induction l as [|x l IH]; simpl; [constructor|].
  now apply insert_desc_sorted.
Qed.

End OrderFacts.

(** ** Sorted tensors, masks and fills *)

Section TensorFacts.

Lemma in_zip_seq (l : list logit) :
  forall (a : nat) (v : logit) (i : nat),
    In (v, i) (zip l (seq a (length l))) ->
    (a <= i)%nat /\ l !! (i - a)%nat = Some v.
Proof.
  induction l as [|x l IH]; intros a v i Hin; simpl in Hin; [contradiction|].
  destruct Hin as [E | Hin].
  - injection E as -> ->. split; [lia|]. now rewrite Nat.sub_diag.
  - apply IH in Hin as [Hle Hl]. split; [lia|].
    replace (i - a)%nat with (S (i - S a)) by lia. exact Hl.
Qed.

Lemma sorted_pairs_perm (logits : list logit) :
  Permutation (sort_desc (zip logits (seq 0 (length logits))))
              (zip logits (seq 0 (length logits))).
Proof. apply sort_desc_perm. Qed.

Lemma sorted_values_perm (logits : list logit) :
  Permutation (fst (torch_sort_desc logits)) logits.
Proof.
  unfold torch_sort_desc. cbn [fst].
  rewrite sorted_pairs_perm. change (map fst ?l) with (l.*1).
  rewrite fst_zip; [reflexivity|]. rewrite length_seq. lia.
Qed.

Lemma sorted_indices_perm (logits : list logit) :
  Permutation (snd (torch_sort_desc logits)) (seq 0 (length logits)).
Proof.
  unfold torch_sort_desc. cbn [snd].
  rewrite sorted_pairs_perm. change (map snd ?l) with (l.*2).
  rewrite snd_zip; [reflexivity|]. rewrite length_seq. lia.
Qed.

Lemma sorted_indices_NoDup (logits : list logit) :
  List.NoDup (snd (torch_sort_desc logits)).
Proof.
  eapply Permutation_NoDup; [symmetry; apply sorted_indices_perm|].
  apply List.seq_NoDup.
Qed.

Lemma sorted_pairs_lookup (logits : list logit) (v : logit) (i : nat) :
  In (v, i) (sort_desc (zip logits (seq 0 (length logits)))) ->
  logits !! i = Some v.
Proof.
  intros Hin.
  eapply Permutation_in in Hin; [|apply sorted_pairs_perm].
  apply in_zip_seq in Hin as [_ Hl]. now rewrite Nat.sub_0_r in Hl.
Qed.

Lemma sorted_length (logits : list logit) :
  length (sort_desc (zip logits (seq 0 (length logits)))) = length logits.
Proof.
  rewrite (Permutation_length (sorted_pairs_perm logits)).
  rewrite length_zip, length_seq. lia.
Qed.

(** [logits[mask] = value] with the mask computed entry by entry. *)
Lemma mask_fill_map (f : logit -> bool) (value : logit) (l : list logit) :
  mask_fill l (map f l) value = map (fun x => if f x then value else x) l.
Proof.
  unfold mask_fill. induction l as [|x l IH]; simpl; [reflexivity|]. now rewrite IH.
Qed.

(** The threshold of minus infinity removes nothing. *)
Lemma mask_fill_below_NegInf (value : logit) (l : list logit) :
  mask_fill l (map (fun x => logit_ltb x NegInf) l) value = l.
Proof.
  rewrite mask_fill_map. induction l as [|x l IH]; simpl; [reflexivity|].
  now rewrite logit_ltb_NegInf, IH.
Qed.

Lemma index_fill_length (value : logit) (indices : list nat) :
  forall l, length (index_fill l indices value) = length l.
Proof.
  unfold index_fill. induction indices as [|i indices IH]; intros l; simpl; [reflexivity|].
  now rewrite IH, length_insert.
Qed.

Lemma index_fill_other (value : logit) (indices : list nat) (i : nat) :
  ~ In i indices ->
  forall l, index_fill l indices value !! i = l !! i.
Proof.
  unfold index_fill. induction indices as [|j indices IH]; intros Hi l; simpl; [reflexivity|].
  rewrite IH by (intros Hin; apply Hi; now right).
  apply list_lookup_insert_ne. intros ->. apply Hi. now left.
Qed.

Lemma index_fill_hit (value : logit) (indices : list nat) (i : nat) :
  In i indices ->
  forall l, (i < length l)%nat -> index_fill l indices value !! i = Some value.
Proof.
  unfold index_fill. induction indices as [|j indices IH]; intros Hi l Hlt; simpl; [contradiction|].
  destruct (in_dec Nat.eq_dec i indices) as [Hin | Hnotin].
  - apply IH; [exact Hin | now rewrite length_insert].
  - destruct Hi as [-> | Hin]; [|contradiction].
    fold (index_fill (<[i:=value]> l) indices value).
    rewrite index_fill_other by exact Hnotin.
    now apply list_lookup_insert_eq.
Qed.

End TensorFacts.

(** ** Sums and cumulative sums *)

Section SumFacts.

Lemma Qsum_app (l k : list Q) : (Qsum (l ++ k) == Qsum l + Qsum k)%Q.
Proof.
  induction l as [|x l IH]; simpl; [ring|]. rewrite IH. ring.
Qed.

Lemma Qsum_perm (l k : list Q) : Permutation l k -> (Qsum l == Qsum k)%Q.
Proof.
  induction 1 as [|x l k _ IH|x y l|l k j _ IH1 _ IH2]; simpl.
  - reflexivity.
  - now rewrite IH.
  - ring.
  - now rewrite IH1.
Qed.

Lemma Qsum_nonneg (l : list Q) : Forall (fun x => (0 <= x)%Q) l -> (0 <= Qsum l)%Q.
Proof.
  induction 1 as [|x l Hx _ IH]; simpl; [apply Qle_refl|].
  rewrite <- (Qplus_0_r 0). now apply Qplus_le_compat.
Qed.

Lemma Qsum_div (t : Q) (l : list Q) :
  (Qsum (map (fun w => w / t) l) == Qsum l / t)%Q.
Proof.
  induction l as [|x l IH]; simpl.
  - unfold Qdiv. ring.
  - rewrite IH. unfold Qdiv. ring.
Qed.

Lemma exact_cumsum_from_length (l : list Q) :
  forall acc, length (exact_cumsum_from acc l) = length l.
Proof. induction l as [|x l IH]; intros acc; simpl; [|rewrite IH]; reflexivity. Qed.

Lemma exact_cumsum_from_ge (l : list Q) :
  Forall (fun x => (0 <= x)%Q) l ->
  forall acc, Forall (fun c => (acc <= c)%Q) (exact_cumsum_from acc l).
Proof.
  induction 1 as [|x l Hx _ IH]; intros acc; simpl; constructor.
  - rewrite <- (Qplus_0_r acc) at 1. apply Qplus_le_compat; [apply Qle_refl | exact Hx].
  - eapply Forall_impl; [apply IH|]. intros c Hc. simpl in Hc.
    eapply Qle_trans; [|exact Hc].
    rewrite <- (Qplus_0_r acc) at 1. apply Qplus_le_compat; [apply Qle_refl | exact Hx].
Qed.

(** A cumulative sum of non-negative entries does not decrease. *)
Lemma exact_cumsum_from_sorted (l : list Q) :
  Forall (fun x => (0 <= x)%Q) l ->
  forall acc, StronglySorted Qle (exact_cumsum_from acc l).
Proof.
  induction 1 as [|x l Hx Hl IH]; intros acc; simpl; constructor.
  - apply IH.
  - now apply exact_cumsum_from_ge.
Qed.

End SumFacts.

Section ExactLaws.

Context `{Exponential}.

(** The operations of exact arithmetic keep the shape of their argument. *)
Lemma exact_torch_laws : TorchLaws.
Proof.
  split.
  - intros logits. cbn [softmax exact_torch]. unfold exact_softmax. now rewrite !length_map.
  - intros probs. cbn [cumsum exact_torch]. apply exact_cumsum_from_length.
Qed.

End ExactLaws.

#[export] Existing Instance exact_torch_laws.

(** ** The shifted mask and the positions it selects *)

Section MaskFacts.

Lemma shift_right_shape (a n : nat) :
  (1 <= n)%nat -> (a <= n)%nat ->
  shift_right (replicate a false ++ replicate (n - a) true) =
  Ok (replicate (Nat.min (S a) n) false ++ replicate (n - Nat.min (S a) n) true).
Proof.
  intros Hn Ha. unfold shift_right.
  set (mask := replicate a false ++ replicate (n - a) true).
  assert (Hlen : length mask = n).
  { subst mask. rewrite length_app, !length_replicate. lia. }
  rewrite Hlen.
  assert (Ht : take (n - 1) mask =
               replicate (Nat.min a (n - 1)) false ++ replicate (n - 1 - a) true).
  { subst mask. rewrite take_app, !take_replicate, length_replicate.
    f_equal; f_equal; lia. }
  rewrite Ht.
  destruct mask as [|b mask']; [simpl in Hlen; lia|].
  cbn [take app].
  replace (Nat.min (S a) n) with (S (Nat.min a (n - 1))) by lia.
  replace (n - S (Nat.min a (n - 1)))%nat with (n - 1 - a)%nat by lia.
  reflexivity.
Qed.

Lemma mask_select_all (indices : list nat) :
  mask_select indices (replicate (length indices) true) = indices.
Proof.
  unfold mask_select. induction indices as [|i indices IH]; [reflexivity|].
  simpl. now rewrite IH.
Qed.

Lemma mask_select_shape (indices : list nat) :
  forall m : nat,
    (m <= length indices)%nat ->
    mask_select indices (replicate m false ++ replicate (length indices - m) true)
    = drop m indices.
Proof.
  induction indices as [|i indices IH]; intros m Hm.
  - simpl in Hm. replace m with 0%nat by lia. reflexivity.
  - destruct m as [|m].
    + replace (length (i :: indices) - 0)%nat with (length (i :: indices)) by lia.
      apply mask_select_all.
    + simpl in Hm. unfold mask_select in *. simpl. apply IH. lia.
Qed.

(** In a strongly sorted list an earlier entry is related to a later one. *)
Lemma sorted_lookup {A : Type} (R : A -> A -> Prop) (l : list A) :
  StronglySorted R l ->
  forall (a b : nat) (x y : A),
    l !! a = Some x -> l !! b = Some y -> (a < b)%nat -> R x y.
Proof.
  induction 1 as [|z l _ IH Hz]; intros a b x y Ha Hb Hab; [discriminate|].
  destruct b as [|b]; [lia|]. simpl in Hb.
  destruct a as [|a]; simpl in Ha.
  - injection Ha as <-. rewrite List.Forall_forall in Hz. apply Hz.
    apply list_elem_of_In. eapply list_elem_of_lookup_2, Hb.
  - apply (IH a b); [assumption | assumption | lia].
Qed.

End MaskFacts.

(** ** top_filtering: a largest entry survives *)

Section SurvivorFacts.

Context `{Torch} `{!TorchLaws}.

Lemma top_filtering_stages (logits : list logit) (top_k : Z) (top_p : Q)
    (threshold filter_value : logit) :
  top_filtering logits top_k top_p threshold filter_value =
  let* l := top_p_stage (top_k_stage logits top_k filter_value) top_p filter_value in
  Ok (mask_fill l (map (fun x => logit_ltb x threshold) l) filter_value).
Proof. reflexivity. Qed.

Lemma logit_ltb_irrefl (a : logit) : logit_ltb a a = false.
Proof. apply logit_ltb_leb, logit_leb_refl. Qed.

Lemma logit_ltb_weak (a b : logit) : logit_ltb a b = true -> logit_leb a b = true.
Proof.
  intros E. destruct (logit_leb a b) eqn:E'; [reflexivity|].
  apply logit_leb_total, logit_ltb_leb in E'. congruence.
Qed.

Lemma logit_leb_NegInf_r (a : logit) : logit_leb a NegInf = true -> a = NegInf.
Proof. destruct a; [reflexivity | discriminate]. Qed.

Lemma top_k_stage_length (logits : list logit) (top_k : Z) (v : logit) :
  length (top_k_stage logits top_k v) = length logits.
Proof.
  unfold top_k_stage. destruct (0 <? _)%Z; [|reflexivity].
  rewrite mask_fill_map. apply length_map.
Qed.

Lemma top_k_stage_lookup (logits : list logit) (top_k : Z) (j : nat) (v : logit) :
  top_k_stage logits top_k NegInf !! j = Some v ->
  v = NegInf \/ logits !! j = Some v.
Proof.
  unfold top_k_stage. destruct (0 <? _)%Z; [|tauto].
  rewrite mask_fill_map, list_lookup_fmap.
  destruct (logits !! j) as [x|]; [|discriminate]. simpl.
  destruct (logit_ltb x _); intros E; injection E as <-; tauto.
Qed.

(** Every entry is below an entry that the top-k part leaves in place. *)
Lemma top_k_stage_dominates (logits : list logit) (top_k : Z) (l : logit) :
  In l logits ->
  exists l', In l' (top_k_stage logits top_k NegInf) /\ logit_leb l l' = true.
Proof.
  intros Hl. unfold top_k_stage. destruct (0 <? _)%Z.
  2: { exists l. split; [exact Hl | apply logit_leb_refl]. }
  rewrite mask_fill_map.
  set (kth := topk_last logits _).
  destruct (logit_ltb l kth) eqn:E.
  - exists kth. split; [|now apply logit_ltb_weak].
    apply in_map_iff. exists kth. rewrite logit_ltb_irrefl. split; [reflexivity|].
    subst kth. unfold topk_last in *.
    destruct (nth_in_or_default (Z.to_nat (Z.min top_k (Z.of_nat (length logits))) - 1)
                (fst (torch_sort_desc logits)) NegInf) as [Hin | Hd].
    + eapply Permutation_in; [apply sorted_values_perm | exact Hin].
    + rewrite Hd in E. rewrite logit_ltb_NegInf in E. discriminate.
  - exists l. split; [|apply logit_leb_refl].
    apply in_map_iff. exists l. now rewrite E.
Qed.

Lemma shift_right_nonempty (mask : list bool) :
  mask <> [] -> exists rest, shift_right mask = Ok (false :: rest).
Proof.
  destruct mask as [|b mask]; [congruence|]. intros _.
  unfold shift_right. simpl. eauto.
Qed.

Lemma mask_select_subset (indices : list nat) :
  forall (mask : list bool) (i : nat), In i (mask_select indices mask) -> In i indices.
Proof.
  unfold mask_select. induction indices as [|j indices IH]; intros mask i Hin.
  - destruct mask; simpl in Hin; contradiction.
  - destruct mask as [|b mask]; [simpl in Hin; contradiction|].
    simpl in Hin. destruct b; simpl in Hin.
    + destruct Hin as [<- | Hin]; [now left | right; eapply IH, Hin].
    + right. eapply IH, Hin.
Qed.

(** The top-p part leaves the first position of the sort, which holds a
    largest entry, as it is. *)
Lemma top_p_stage_survivor (l : list logit) (top_p : Q) :
  l <> [] ->
  exists out i0 v0,
    top_p_stage l top_p NegInf = Ok out /\
    length out = length l /\
    l !! i0 = Some v0 /\
    (forall x, In x l -> logit_leb x v0 = true) /\
    out !! i0 = Some v0.
Proof.
  intros Hne. unfold top_p_stage, torch_sort_desc.
  pose proof (sorted_pairs_perm l) as Hperm.
  pose proof (sort_desc_sorted (zip l (seq 0 (length l)))) as Hsorted.
  pose proof (sorted_length l) as Hlen.
  pose proof (sorted_indices_NoDup l) as Hnd. unfold torch_sort_desc in Hnd. cbn [snd] in Hnd.
  assert (Hlookup := sorted_pairs_lookup l).
  assert (Hvals := sorted_values_perm l). unfold torch_sort_desc in Hvals. cbn [fst] in Hvals.
  destruct (sort_desc (zip l (seq 0 (length l)))) as [|[v0 i0] s] eqn:Hs.
  { destruct l; [congruence | discriminate Hlen]. }
  assert (Hv0 : l !! i0 = Some v0) by (apply Hlookup; now left).
  assert (Hmax : forall x, In x l -> logit_leb x v0 = true).
  { intros x Hx. eapply Permutation_in in Hx; [|symmetry; exact Hvals].
    simpl in Hx. destruct Hx as [<- | Hx]; [apply logit_leb_refl|].
    apply in_map_iff in Hx as ([v i] & <- & Hin).
    inversion Hsorted as [|? ? _ Hall]; subst.
    rewrite List.Forall_forall in Hall. apply (Hall (v, i) Hin). }
  destruct (Qltb 0 top_p).
  - cbn [map fst snd].
    destruct (shift_right_nonempty
                (map (fun c => gt c top_p) (cumsum (softmax (v0 :: map fst s)))))
      as (rest & ->).
    { intros E. apply (f_equal length) in E.
      rewrite length_map, cumsum_length, softmax_length in E. discriminate E. }
    cbn [rbind].
    eexists _, i0, v0. split; [reflexivity|].
    split; [apply index_fill_length|]. split; [exact Hv0|]. split; [exact Hmax|].
    rewrite index_fill_other; [exact Hv0|].
    intros Hin. change (mask_select (i0 :: map snd s) (false :: rest))
                  with (mask_select (map snd s) rest) in Hin.
    apply mask_select_subset in Hin.
    simpl in Hnd. inversion Hnd; contradiction.
  - exists l, i0, v0. repeat split; assumption.
Qed.

End SurvivorFacts.

Section Survivor.

Context `{Torch} `{!TorchLaws}.

(** C8, amended.  For every non-empty tensor, every [top_k] and every
    [top_p], with the default threshold and filter value, [top_filtering]
    returns a tensor of the same length in which some position that holds
    the largest logit still holds it: the position that the sort puts first.
    Hence, if some logit is finite, some entry of the result is. *)
Theorem top_filtering_keeps_a_maximum (logits : list logit) (top_k : Z) (top_p : Q) :
  logits <> [] ->
  exists (out : list logit) (i : nat) (m : logit),
    top_filtering logits top_k top_p NegInf NegInf = Ok out /\
    length out = length logits /\
    logits !! i = Some m /\
    is_max logits m /\
    out !! i = Some m /\
    (forall q, In (Fin q) logits -> exists q', m = Fin q' /\ In (Fin q') out).
Proof.
  intros Hne. rewrite top_filtering_stages.
  set (l1 := top_k_stage logits top_k NegInf).
  assert (Hl1 : l1 <> []).
  { intros E. pose proof (top_k_stage_length logits top_k NegInf) as Hlen.
    fold l1 in Hlen. rewrite E in Hlen. destruct logits; [congruence | discriminate]. }
  destruct (top_p_stage_survivor l1 top_p Hl1)
    as (out & i0 & v0 & -> & Hlen & Hv0 & Hmax & Hout).
  cbn [rbind]. rewrite mask_fill_below_NegInf.
  assert (Hall : forall x, In x logits -> logit_leb x v0 = true).
  { intros x Hx. destruct (top_k_stage_dominates logits top_k x Hx) as (x' & Hx' & Hle).
    eapply logit_leb_trans; [exact Hle | now apply Hmax]. }
  assert (Horig : logits !! i0 = Some v0).
  { destruct (top_k_stage_lookup logits top_k i0 v0 Hv0) as [-> | Hl]; [|exact Hl].
    apply lookup_lt_Some in Hv0. unfold l1 in Hv0. rewrite top_k_stage_length in Hv0.
    destruct (lookup_lt_is_Some_2 logits i0 Hv0) as [x Hx]. rewrite Hx. f_equal.
    apply logit_leb_NegInf_r, Hall, list_elem_of_In.
    eapply list_elem_of_lookup_2, Hx. }
  exists out, i0, v0.
  split; [reflexivity|].
  split; [rewrite Hlen; apply top_k_stage_length|].
  split; [exact Horig|].
  split; [split; [|exact Hall]|].
  { apply list_elem_of_In. eapply list_elem_of_lookup_2, Horig. }
  split; [exact Hout|].
  intros q Hq. specialize (Hall _ Hq).
  destruct v0 as [|q']; [discriminate|].
  exists q'. split; [reflexivity|].
  apply list_elem_of_In. eapply list_elem_of_lookup_2, Hout.
Qed.

End Survivor.

Section SurvivorRuns.

Import Demo.

(** C8 as stated fails when the largest logit occurs twice:
    [top_filtering([1, 1], top_k=0, top_p=0.3)] is [[1, -inf]]; position 1
    holds the largest logit and is set to minus infinity. *)
Lemma tied_maximum_is_filtered :
  top_filtering [Fin 1; Fin 1] 0 (3 # 10) NegInf NegInf = Ok [Fin 1; NegInf] /\
  ~ (forall (logits : list logit) (top_k : Z) (top_p : Q) (out : list logit)
            (i : nat) (m : logit),
        0 <= top_k -> (0 <= top_p)%Q ->
        top_filtering logits top_k top_p NegInf NegInf = Ok out ->
        is_max logits m -> logits !! i = Some m -> out !! i = Some m).
Proof.
  split; [vm_compute; reflexivity|].
  intros Hclaim.
  specialize (Hclaim [Fin 1; Fin 1] 0 (3 # 10)%Q [Fin 1; NegInf] 1%nat (Fin 1)).
  assert (E : Some NegInf = Some (Fin 1)); [|discriminate E].
  apply Hclaim.
  - lia.
  - discriminate.
  - vm_compute; reflexivity.
  - split; [now left|]. intros l [<- | [<- | []]]; reflexivity.
  - reflexivity.
Qed.

(** [top_filtering_keeps_a_maximum] at [[0, 3, 2]], [top_k = 1],
    [top_p = 0.6]. *)
Lemma top_filtering_keeps_a_maximum_witness :
  exists (out : list logit) (i : nat) (m : logit),
    top_filtering [Fin 0; Fin 3; Fin 2] 1 (6 # 10) NegInf NegInf = Ok out /\
    length out = 3%nat /\
    [Fin 0; Fin 3; Fin 2] !! i = Some m /\
    is_max [Fin 0; Fin 3; Fin 2] m /\
    out !! i = Some m /\
    (forall q, In (Fin q) [Fin 0; Fin 3; Fin 2] -> exists q', m = Fin q' /\ In (Fin q') out).
Proof.
  apply (top_filtering_keeps_a_maximum [Fin 0; Fin 3; Fin 2] 1 (6 # 10)).
  discriminate.
Defined.

End SurvivorRuns.

(** ** Weights and the largest sums *)

Section WeightFacts.

Context `{Exponential} `{!ExponentialLaws}.

Lemma weight_nonneg (l : logit) : (0 <= weight l)%Q.
Proof. destruct l as [|x]; simpl; [apply Qle_refl | apply Qlt_le_weak, qexp_pos]. Qed.

Lemma weight_mono (a b : logit) : logit_leb a b = true -> (weight a <= weight b)%Q.
Proof.
  destruct a as [|x], b as [|y]; simpl; intros E.
  - apply Qle_refl.
  - apply Qlt_le_weak, qexp_pos.
  - discriminate.
  - apply qexp_mono. unfold logit_leb in E. simpl in E.
    now apply negb_true_iff, Qltb_ge in E.
Qed.

Lemma weights_nonneg (l : list logit) : Forall (fun x => (0 <= x)%Q) (map weight l).
Proof. apply List.Forall_forall. intros x Hx. apply in_map_iff in Hx as (v & <- & _). apply weight_nonneg. Qed.

(** The weights of a tensor sorted in descending order do not increase. *)
Lemma sorted_weights (s : list (logit * nat)) :
  StronglySorted desc s ->
  StronglySorted (fun x y => (y <= x)%Q) (map weight (map fst s)).
Proof.
  induction 1 as [|p s _ IH Hp]; simpl; constructor; [exact IH|].
  apply List.Forall_forall. intros x Hx.
  apply in_map_iff in Hx as (v & <- & Hv). apply in_map_iff in Hv as (p' & <- & Hp').
  rewrite List.Forall_forall in Hp. apply weight_mono, (Hp p' Hp').
Qed.

Lemma total_positive (logits : list logit) (q : Q) :
  In (Fin q) logits -> (0 < Qsum (map weight logits))%Q.
Proof.
  induction logits as [|l logits IH]; simpl; [tauto|].
  intros [-> | Hin].
  - simpl. pose proof (qexp_pos q). pose proof (Qsum_nonneg _ (weights_nonneg logits)). lra.
  - pose proof (weight_nonneg l). specialize (IH Hin). lra.
Qed.

End WeightFacts.

Section TopSums.

(** Moving a window of a non-increasing list of non-negative entries one
    place to the left does not decrease its sum. *)
Lemma window_shift (L : list Q) :
  forall (a : Q) (k : nat),
    Forall (fun x => (0 <= x)%Q) (a :: L) ->
    StronglySorted (fun x y => (y <= x)%Q) (a :: L) ->
    (Qsum (take k L) <= Qsum (take k (a :: L)))%Q.
Proof.
  induction L as [|b L IH]; intros a k Hpos Hs.
  - inversion Hpos as [|? ? Ha _]; subst.
    destruct k as [|k]; cbn [take Qsum foldr]; [lra|].
    rewrite take_nil. cbn [Qsum foldr]. lra.
  - destruct k as [|k]; [cbn [take Qsum foldr]; lra|].
    inversion Hs as [|? ? Hs' Hall]; subst.
    inversion Hall as [|? ? Hba _]; subst.
    inversion Hpos as [|? ? _ Hpos']; subst.
    specialize (IH b k Hpos' Hs').
    cbn [take Qsum foldr]. fold (Qsum (take k L)). fold (Qsum (take k (b :: L))).
    lra.
Qed.

(** A sublist of a non-increasing list of non-negative entries sums to at
    most the sum of as many leading entries. *)
Lemma sublist_top_sum (X L : list Q) :
  sublist X L ->
  Forall (fun x => (0 <= x)%Q) L ->
  StronglySorted (fun x y => (y <= x)%Q) L ->
  (Qsum X <= Qsum (take (length X) L))%Q.
Proof.
  induction 1 as [|x X L _ IH|x X L _ IH]; intros Hpos Hs.
  - cbn. lra.
  - inversion Hpos; inversion Hs; subst.
    cbn [length take Qsum foldr]. fold (Qsum X). fold (Qsum (take (length X) L)).
    specialize (IH ltac:(assumption) ltac:(assumption)). lra.
  - inversion Hpos; inversion Hs; subst.
    specialize (IH ltac:(assumption) ltac:(assumption)).
    pose proof (window_shift L x (length X) Hpos Hs). lra.
Qed.

Lemma submseteq_top_sum (X L : list Q) :
  X ⊆+ L ->
  Forall (fun x => (0 <= x)%Q) L ->
  StronglySorted (fun x y => (y <= x)%Q) L ->
  (Qsum X <= Qsum (take (length X) L))%Q.
Proof.
  intros Hsub Hpos Hs.
  apply submseteq_sublist_r in Hsub as (X' & Hperm & Hsub).
  rewrite (Qsum_perm _ _ Hperm), (Permutation_length Hperm).
  now apply sublist_top_sum.
Qed.

End TopSums.

(** ** Probabilities of positions *)

Section ProbabilityFacts.

Context `{Exponential} `{!ExponentialLaws}.

Lemma wt_lookup (logits : list logit) (i : nat) (v : logit) :
  logits !! i = Some v -> wt logits i = weight v.
Proof.
  intros Hi. unfold wt. rewrite nth_lookup.
  change (map weight logits) with (weight <$> logits).
  now rewrite list_lookup_fmap, Hi.
Qed.

Lemma prob_wt (logits : list logit) (i : nat) :
  (i < length logits)%nat ->
  prob logits i = (wt logits i / Qsum (map weight logits))%Q.
Proof.
  intros Hi. destruct (lookup_lt_is_Some_2 logits i Hi) as [v Hv].
  rewrite (wt_lookup _ _ _ Hv). unfold prob, exact_softmax. rewrite nth_lookup.
  change (map ?f ?l) with (f <$> l).
  now rewrite !list_lookup_fmap, Hv.
Qed.

Lemma mass_wt (logits : list logit) (K : list nat) :
  (forall i, In i K -> (i < length logits)%nat) ->
  (mass logits K == Qsum (map (wt logits) K) / Qsum (map weight logits))%Q.
Proof.
  intros HK. unfold mass. rewrite <- Qsum_div. rewrite map_map.
  rewrite (map_ext_in (prob logits)
             (fun i => (wt logits i / Qsum (map weight logits))%Q)); [reflexivity|].
  intros i Hi. apply prob_wt, HK, Hi.
Qed.

Lemma wt_all (logits : list logit) :
  map (wt logits) (seq 0 (length logits)) = map weight logits.
Proof.
  apply list_eq. intros i. change (map ?f ?l) with (f <$> l).
  rewrite !list_lookup_fmap.
  destruct (Nat.lt_ge_cases i (length logits)) as [Hlt | Hge].
  - rewrite lookup_seq_lt by exact Hlt. simpl.
    destruct (lookup_lt_is_Some_2 logits i Hlt) as [v Hv].
    now rewrite Hv, (wt_lookup _ _ _ Hv).
  - rewrite lookup_seq_ge by exact Hge.
    now rewrite (proj2 (lookup_ge_None logits i) Hge).
Qed.

(** The weights of a set of positions are among the weights of the sorted
    tensor. *)
Lemma index_set_weights (logits : list logit) (K : list nat) :
  index_set (length logits) K ->
  map (wt logits) K ⊆+ map weight (fst (torch_sort_desc logits)).
Proof.
  intros [Hnd Hlt].
  rewrite (sorted_values_perm logits), <- wt_all.
  change (map ?f ?l) with (f <$> l). apply fmap_submseteq.
  apply NoDup_submseteq; [exact Hnd|].
  intros i Hi. apply list_elem_of_In, in_seq. apply list_elem_of_In in Hi.
  specialize (Hlt i Hi). lia.
Qed.

Lemma sorted_total (logits : list logit) :
  (Qsum (map weight (fst (torch_sort_desc logits))) == Qsum (map weight logits))%Q.
Proof.
  apply Qsum_perm, Permutation_map, sorted_values_perm.
Qed.

Lemma exact_softmax_nonneg (vals : list logit) (q : Q) :
  In (Fin q) vals ->
  Forall (fun x => (0 <= x)%Q) (exact_softmax vals).
Proof.
  intros Hq. unfold exact_softmax. apply List.Forall_forall. intros x Hx.
  apply in_map_iff in Hx as (w & <- & Hw).
  apply in_map_iff in Hw as (v & <- & _).
  pose proof (weight_nonneg v). pose proof (total_positive vals q Hq).
  apply Qle_shift_div_l; [assumption | lra].
Qed.

End ProbabilityFacts.

(** ** top_filtering: the nucleus *)

Section NucleusFacts.

Context `{Torch} `{!TorchLaws}.

Lemma top_k_stage_zero (logits : list logit) (v : logit) :
  top_k_stage logits 0 v = logits.
Proof.
  unfold top_k_stage.
  replace (Z.min 0 (Z.of_nat (length logits))) with 0 by lia. reflexivity.
Qed.

(** A mask that stays [true] once it is [true] is a run of [false] followed
    by a run of [true]. *)
Lemma step_mask (mask : list bool) :
  (forall i j, (i <= j)%nat -> (j < length mask)%nat ->
               mask !! i = Some true -> mask !! j = Some true) ->
  exists a : nat,
    (a <= length mask)%nat /\
    mask = replicate a false ++ replicate (length mask - a) true.
Proof.
  induction mask as [|b mask IH]; intros Hstep.
  - exists 0%nat. split; [simpl; lia | reflexivity].
  - destruct b.
    + exists 0%nat. split; [simpl; lia|].
      cbn [replicate app length]. rewrite Nat.sub_0_r. cbn [replicate]. f_equal.
      apply list_eq. intros j.
      destruct (Nat.lt_ge_cases j (length mask)) as [Hj | Hj].
      * rewrite lookup_replicate_2 by exact Hj.
        apply (Hstep 0%nat (S j)); [lia | simpl; lia | reflexivity].
      * rewrite (lookup_ge_None_2 mask j Hj).
        apply eq_sym, lookup_ge_None_2. rewrite length_replicate. exact Hj.
    + destruct IH as (a & Ha & E).
      { intros i j Hij Hj Hi. apply (Hstep (S i) (S j)); [lia | simpl; lia | exact Hi]. }
      exists (S a). split; [simpl; lia|].
      cbn [replicate app length]. rewrite Nat.sub_succ. now f_equal.
Qed.

Lemma cumulative_length (logits : list logit) :
  length (cumulative_probabilities logits) = length logits.
Proof.
  unfold cumulative_probabilities. rewrite cumsum_length, softmax_length.
  apply Permutation_length, sorted_values_perm.
Qed.

(** [exceeds] reads the mask [cumulative_probabilities > top_p]. *)
Lemma exceeds_mask (logits : list logit) (top_p : Q) (j : nat) :
  (j < length logits)%nat ->
  map (fun c => gt c top_p) (cumulative_probabilities logits) !! j
  = Some (exceeds logits top_p (S j)).
Proof.
  intros Hj. cbn [exceeds].
  change (map ?f ?l) with (f <$> l). rewrite list_lookup_fmap.
  destruct (lookup_lt_is_Some_2 (cumulative_probabilities logits) j) as [c Hc].
  { now rewrite cumulative_length. }
  now rewrite Hc.
Qed.

(** With [top_p] positive and steady comparisons, the top-p part removes
    the positions that the sort puts after the first [S a], where the
    cumulative probabilities computed for the first [a] prefixes do not
    exceed [top_p] and the next one, if there is one, does. *)
Lemma top_p_stage_prefix (logits : list logit) (top_p : Q) :
  logits <> [] ->
  (0 < top_p)%Q ->
  steady logits top_p ->
  exists a : nat,
    (a <= length logits)%nat /\
    top_p_stage logits top_p NegInf =
      Ok (index_fill logits
            (drop (Nat.min (S a) (length logits)) (snd (torch_sort_desc logits))) NegInf) /\
    (forall m, (m <= a)%nat -> exceeds logits top_p m = false) /\
    ((a < length logits)%nat -> exceeds logits top_p (S a) = true).
Proof.
  intros Hne Hp Hsteady.
  assert (Hleni : length (snd (torch_sort_desc logits)) = length logits).
  { rewrite (Permutation_length (sorted_indices_perm logits)). apply length_seq. }
  assert (Hn : (1 <= length logits)%nat).
  { destruct logits; [congruence | simpl; lia]. }
  set (mask := map (fun c => gt c top_p) (cumulative_probabilities logits)).
  assert (Hlenm : length mask = length logits).
  { subst mask. rewrite length_map. apply cumulative_length. }
  destruct (step_mask mask) as (a & Ha & Hmask).
  { rewrite Hlenm. intros i j Hij Hj Hi.
    unfold mask in *. rewrite exceeds_mask in Hi by lia. rewrite exceeds_mask by lia.
    injection Hi as Hi. f_equal. apply (Hsteady (S i) (S j)); [lia | lia | exact Hi]. }
  rewrite Hlenm in Ha, Hmask.
  assert (Hread : forall j, (j < length logits)%nat ->
            exceeds logits top_p (S j) = if (j <? a)%nat then false else true).
  { intros j Hj. pose proof (exceeds_mask logits top_p j Hj) as E. fold mask in E.
    rewrite Hmask in E.
    destruct (Nat.ltb_spec j a) as [Hlt | Hge].
    - rewrite lookup_app_l in E by (rewrite length_replicate; lia).
      rewrite lookup_replicate_2 in E by lia. now injection E.
    - rewrite lookup_app_r in E by (rewrite length_replicate; lia).
      rewrite length_replicate in E.
      rewrite lookup_replicate_2 in E by lia. now injection E. }
  exists a. split; [exact Ha|]. split; [|split].
  - unfold top_p_stage. apply Qltb_lt in Hp. rewrite Hp.
    unfold mask, cumulative_probabilities in Hmask.
    destruct (torch_sort_desc logits) as [vals idxs] eqn:Hsort. cbn [fst snd] in *.
    rewrite Hmask, shift_right_shape by assumption. cbn [rbind].
    rewrite <- Hleni at 2.
    rewrite mask_select_shape by lia. reflexivity.
  - intros [|j] Hm; [reflexivity|].
    rewrite Hread by lia. destruct (Nat.ltb_spec j a); [reflexivity | lia].
  - intros Hlt. rewrite Hread by lia. destruct (Nat.ltb_spec a a); [lia | reflexivity].
Qed.


End NucleusFacts.

Section ExactSteady.

Context `{Exponential} `{!ExponentialLaws}.

(** In exact arithmetic the cumulative probabilities of a tensor with a
    finite logit do not decrease, so the comparisons with [top_p] are
    steady. *)
Lemma exact_steady (logits : list logit) (top_p : Q) (q : Q) :
  In (Fin q) logits -> steady logits top_p.
Proof.
  intros Hq m n Hmn Hn Hm.
  destruct m as [|i]; [discriminate Hm|]. destruct n as [|j]; [lia|].
  assert (Hq' : In (Fin q) (fst (torch_sort_desc logits))).
  { eapply Permutation_in; [symmetry; apply sorted_values_perm | exact Hq]. }
  pose proof (exact_cumsum_from_sorted _ (exact_softmax_nonneg _ q Hq') 0%Q) as Hsorted.
  pose proof (cumulative_length logits) as Hlen.
  cbn [exceeds] in *. unfold cumulative_probabilities in *.
  cbn [float32 cumsum softmax gt exact_torch] in *. unfold exact_cumsum in *.
  remember (exact_cumsum_from 0 (exact_softmax (fst (torch_sort_desc logits)))) as cs
    eqn:Hcs.
  destruct (cs !! i) as [ci|] eqn:Ei; [|discriminate Hm].
  destruct (lookup_lt_is_Some_2 cs j) as [cj Ej]; [lia|]. rewrite Ej.
  apply Qltb_lt in Hm. apply Qltb_lt.
  destruct (Nat.eq_dec i j) as [-> | Hne].
  - rewrite Ei in Ej. injection Ej as <-. exact Hm.
  - pose proof (sorted_lookup Qle cs Hsorted i j ci cj Ei Ej ltac:(lia)). lra.
Qed.

End ExactSteady.

Section MassBound.

Context `{Exponential} `{!ExponentialLaws}.

Lemma Qsum_take_le (L : list Q) (k : nat) :
  Forall (fun x => (0 <= x)%Q) L -> (Qsum (take k L) <= Qsum L)%Q.
Proof.
  intros Hpos. rewrite <- (take_drop k L) at 2. rewrite Qsum_app.
  assert (0 <= Qsum (drop k L))%Q.
  { apply Qsum_nonneg. rewrite List.Forall_forall in *. intros x Hx.
    apply Hpos. apply list_elem_of_In in Hx. apply list_elem_of_In.
    eapply elem_of_sublist; [exact Hx | apply sublist_drop]. }
  lra.
Qed.

(** No set of positions has a probability above 1. *)
Lemma mass_le_one (logits : list logit) (K : list nat) (q : Q) :
  In (Fin q) logits ->
  index_set (length logits) K ->
  (mass logits K <= 1)%Q.
Proof.
  intros Hq HK.
  pose proof (total_positive logits q Hq) as Hpos.
  rewrite mass_wt by apply HK.
  apply Qle_shift_div_r; [exact Hpos|]. rewrite Qmult_1_l.
  rewrite <- sorted_total.
  eapply Qle_trans; [|apply (Qsum_take_le _ (length (map (wt logits) K)))].
  - apply submseteq_top_sum.
    + apply index_set_weights, HK.
    + apply weights_nonneg.
    + apply sorted_weights, sort_desc_sorted.
  - apply weights_nonneg.
Qed.

End MassBound.

(** The exponential of the concrete environment is positive and increasing. *)
Lemma demo_exp_laws : @ExponentialLaws Demo.demo_exponential.
Proof.
  split; simpl; unfold Demo.demo_exp.
  - intros x. destruct (Qle_bool x 0) eqn:E.
    + apply Qle_bool_iff in E. apply Qlt_shift_div_l; lra.
    + assert (0 < x)%Q by (apply Qltb_lt; unfold Qltb; now rewrite E). lra.
  - intros x y Hxy.
    destruct (Qle_bool x 0) eqn:Ex, (Qle_bool y 0) eqn:Ey.
    + apply Qle_bool_iff in Ex, Ey.
      apply Qle_shift_div_l; [lra|].
      assert (E : (1 / (1 - x) * (1 - y) == (1 - y) / (1 - x))%Q) by (field; lra).
      rewrite E. apply Qle_shift_div_r; lra.
    + apply Qle_bool_iff in Ex.
      assert (0 < y)%Q by (apply Qltb_lt; unfold Qltb; now rewrite Ey).
      apply Qle_trans with 1%Q; [|lra].
      apply Qle_shift_div_r; lra.
    + apply Qle_bool_iff in Ey.
      assert (0 < x)%Q by (apply Qltb_lt; unfold Qltb; now rewrite Ex). lra.
    + lra.
Qed.

Section NucleusRuns.

Import Demo.



End NucleusRuns.

(** ** The theorems on concrete runs *)

Lemma ok_value_Some {A : Type} (r : result A) (a : A) :
  ok_value r = Some a -> r = Ok a.
Proof. destruct r; simpl; intros E; now inversion E. Qed.

Lemma ok_value_fst {A W : Type} (p : result A * W) (a : A) :
  ok_value (fst p) = Some a -> p = (Ok a, snd p).
Proof. destruct p as [r w]. simpl. intros E. now rewrite (ok_value_Some r a E). Qed.

Section Runs.

Import Demo.

(** [build_input_from_segments_shape] on a persona of two sentences, a
    history of two utterances and a reply of two tokens. *)
Lemma build_input_from_segments_shape_witness :
  exists inst,
    build_input_from_segments [[20; 21]; [22]] [[30; 31]; [32]] [40; 41] "<en>"
      demo_special_map true false = Ok inst /\
    length (input_ids inst) = length (token_type_ids inst).
Proof.
  assert (E : build_input_from_segments [[20; 21]; [22]] [[30; 31]; [32]]
                [40; 41] "<en>" demo_special_map true false
              = Ok (Instance [2; 20; 21; 2; 22; 3; 30; 31; 4; 32]
                             [2; 2; 2; 2; 2; 3; 3; 3; 4; 4] [0; 40; 41] [5]))
    by (vm_compute; reflexivity).
  eexists. split; [exact E|].
  exact (proj1 (build_input_from_segments_shape _ _ _ _ _ _ _ _ E)).
Defined.

(** [sample_sequence_length] on a call that returns two tokens. *)
Lemma sample_sequence_length_witness :
  exists out w',
    sample_sequence 20 [[20; 21]] [[40; 41]] demo_model demo_args "<en>"
      demo_special_map None (demo_world []) = (Ok out, w') /\
    (length out <= Z.to_nat (max_length demo_args))%nat.
Proof.
  assert (E : ok_value (fst (sample_sequence 20 [[20; 21]] [[40; 41]] demo_model
                               demo_args "<en>" demo_special_map None (demo_world [])))
              = Some [14; 14])
    by (vm_compute; reflexivity).
  apply ok_value_fst in E.
  exists [14; 14], (snd (sample_sequence 20 [[20; 21]] [[40; 41]] demo_model demo_args
                      "<en>" demo_special_map None (demo_world []))).
  split; [exact E|].
  exact (proj1 (sample_sequence_length _ _ _ _ _ _ _ _ _ _ E)).
Defined.

(** [console_validation] on a console where a wrong entry precedes [en]. *)
Lemma console_validation_witness :
  choose_language (demo_world ["english"; "en"; "hello"]) =
  (Ok "en",
   console (demo_world ["english"; "en"; "hello"]) ["hello"]
     (LANGUAGE_PROMPT ::
      complaints "Choose correct language!" LANGUAGE_PROMPT ["english"])).
Proof.
  apply (proj1 (console_validation (demo_world ["english"; "en"; "hello"]))
           ["english"] "en" ["hello"]).
  - constructor; [|constructor]. simpl. intuition discriminate.
  - simpl. tauto.
  - reflexivity.
Defined.


(** [history_carried_over] on the same run. *)
Lemma history_carried_over_witness :
  exists w' args tok convs,
    run 20 self_play_command_line (demo_world ["en"]) = (Ok tt, w') /\
    parse_args self_play_command_line = Ok args /\
    length convs = 50%nat /\
    calls w' = calls (demo_world ["en"]) ++ traces tok args [] convs.
Proof.
  assert (E : ok_value (fst (run 20 self_play_command_line (demo_world ["en"])))
              = Some tt)
    by (vm_compute; reflexivity).
  apply ok_value_fst in E.
  destruct (history_carried_over 20 self_play_command_line (demo_world ["en"]) _
              eq_refl E)
    as (args & tok & convs & Hargs & Hlen & Hcalls & _).
  exists (snd (run 20 self_play_command_line (demo_world ["en"]))), args, tok, convs.
  exact (conj E (conj Hargs (conj Hlen Hcalls))).
Defined.

(** [load_failures_propagate] on a checkpoint without a tokenizer. *)
Lemma load_failures_propagate_witness :
  @run demo_train_id _ broken_externals 20 demo_command_line broken_world
  = (Raise (ExternalError "OSError"), broken_world).
Proof.
  assert (Hargs : @parse_args _ broken_externals demo_command_line = Ok demo_args)
    by (vm_compute; reflexivity).
  exact (proj1 (proj2 (@load_failures_propagate demo_train_id _
                         broken_externals 20 demo_command_line demo_args broken_world
                         (ExternalError "OSError") Hargs))
               eq_refl).
Defined.

End Runs.

(** * Further properties of the code *)

(** ** top_filtering: shape, edge cases and the top-k part *)

Section FilteringShape.

Context `{Torch} `{!TorchLaws}.

Lemma mask_fill_lookup (f : logit -> bool) (value : logit) (l : list logit)
    (i : nat) (x : logit) :
  mask_fill l (map f l) value !! i = Some x ->
  x = value \/ l !! i = Some x.
Proof.
  rewrite mask_fill_map. change (map ?g ?k) with (g <$> k).
  rewrite list_lookup_fmap.
  destruct (l !! i) as [y|]; [|discriminate]. simpl.
  destruct (f y); intros E; injection E as <-; tauto.
Qed.

Lemma index_fill_lookup (value : logit) (indices : list nat) (l : list logit)
    (i : nat) (x : logit) :
  index_fill l indices value !! i = Some x ->
  x = value \/ l !! i = Some x.
Proof.
  intros Hx. destruct (in_dec Nat.eq_dec i indices) as [Hin | Hnot].
  - left. assert (Hlt : (i < length l)%nat).
    { apply lookup_lt_Some in Hx. now rewrite index_fill_length in Hx. }
    rewrite (index_fill_hit value indices i Hin l Hlt) in Hx. now injection Hx.
  - right. now rewrite index_fill_other in Hx.
Qed.

Lemma top_p_stage_shape (l : list logit) (top_p : Q) (value : logit) (out : list logit) :
  top_p_stage l top_p value = Ok out ->
  length out = length l /\
  forall i x, out !! i = Some x -> x = value \/ l !! i = Some x.
Proof.
  unfold top_p_stage. destruct (Qltb 0 top_p).
  - destruct (torch_sort_desc l) as [vals idxs].
    intros E. apply rbind_Ok in E as (removed & _ & E). injection E as <-.
    split; [apply index_fill_length|]. intros i x. apply index_fill_lookup.
  - intros E. injection E as <-. split; [reflexivity|]. tauto.
Qed.

(** X1.  Whatever its parameters, [top_filtering] returns a tensor of the length
    of its argument in which every entry is the entry of the argument at
    that position or [filter_value]. *)
Theorem top_filtering_shape (logits : list logit) (top_k : Z) (top_p : Q)
    (threshold filter_value : logit) (out : list logit) :
  top_filtering logits top_k top_p threshold filter_value = Ok out ->
  length out = length logits /\
  forall i x, out !! i = Some x -> x = filter_value \/ logits !! i = Some x.
Proof.
  rewrite top_filtering_stages. intros E.
  apply rbind_Ok in E as (l2 & Hp & E). injection E as <-.
  apply top_p_stage_shape in Hp as [Hlen2 Hl2].
  split.
  - rewrite mask_fill_map, length_map, Hlen2. apply top_k_stage_length.
  - intros i x Hx. apply mask_fill_lookup in Hx as [-> | Hx]; [now left|].
    apply Hl2 in Hx as [-> | Hx]; [now left|].
    unfold top_k_stage in Hx. destruct (0 <? _)%Z; [|now right].
    apply mask_fill_lookup in Hx. exact Hx.
Qed.

(** X2.  On an empty tensor [top_filtering] raises [IndexError] when the top-p
    part is on ([mask[..., 0] = 0] has no position 0) and returns the empty
    tensor otherwise. *)
Theorem top_filtering_empty (top_k : Z) (top_p : Q) (threshold filter_value : logit) :
  ((0 < top_p)%Q ->
   top_filtering [] top_k top_p threshold filter_value = Raise IndexError) /\
  ((top_p <= 0)%Q ->
   top_filtering [] top_k top_p threshold filter_value = Ok []).
Proof.
  rewrite top_filtering_stages.
  assert (E : top_k_stage [] top_k filter_value = []).
  { unfold top_k_stage. destruct (0 <? _)%Z; reflexivity. }
  rewrite E. unfold top_p_stage. split; intros Hp.
  - apply Qltb_lt in Hp. rewrite Hp.
    assert (En : cumsum (softmax []) = []).
    { apply nil_length_inv. now rewrite cumsum_length, softmax_length. }
    change (torch_sort_desc []) with (@nil logit, @nil nat). cbv beta iota.
    rewrite En. reflexivity.
  - apply Qltb_ge in Hp. rewrite Hp. reflexivity.
Qed.

End FilteringShape.

Section TopK.

Context `{Torch} `{!TorchLaws}.

(** The values of the sorted tensor do not increase. *)
Lemma sorted_values_desc (logits : list logit) :
  StronglySorted (fun x y => logit_leb y x = true) (fst (torch_sort_desc logits)).
Proof.
  unfold torch_sort_desc. cbn [fst].
  pose proof (sort_desc_sorted (zip logits (seq 0 (length logits)))) as Hs.
  induction Hs as [|p s _ IH Hp]; simpl; constructor; [exact IH|].
  apply List.Forall_forall. intros x Hx.
  apply in_map_iff in Hx as (p' & <- & Hp').
  rewrite List.Forall_forall in Hp. apply (Hp p' Hp').
Qed.

Lemma filter_all {A : Type} (P : A -> Prop) `{forall x, Decision (P x)} (l : list A) :
  Forall P l -> filter P l = l.
Proof.
  induction 1 as [|x l Hx _ IH]; [reflexivity|].
  now rewrite filter_cons_True, IH.
Qed.

Lemma filter_none {A : Type} (P : A -> Prop) `{forall x, Decision (P x)} (l : list A) :
  Forall (fun x => ~ P x) l -> filter P l = [].
Proof.
  induction 1 as [|x l Hx _ IH]; [reflexivity|].
  now rewrite filter_cons_False, IH.
Qed.

(** The [k]-th entry of a tensor sorted in descending order: fewer than [k]
    entries are larger and at least [k] entries are not smaller. *)
Lemma kth_largest (logits : list logit) (k : nat) :
  (1 <= k <= length logits)%nat ->
  In (topk_last logits k) logits /\
  (length (filter (fun l => Is_true (logit_ltb (topk_last logits k) l)) logits) < k)%nat /\
  (k <= length (filter (fun l => Is_true (logit_leb (topk_last logits k) l)) logits))%nat.
Proof.
  intros Hk. unfold topk_last.
  set (vals := fst (torch_sort_desc logits)).
  assert (Hperm : Permutation vals logits) by apply sorted_values_perm.
  assert (Hlen : length vals = length logits) by apply Permutation_length, Hperm.
  assert (Hsorted := sorted_values_desc logits). fold vals in Hsorted.
  destruct (lookup_lt_is_Some_2 vals (k - 1)%nat) as [kth Hkth]; [lia|].
  rewrite (nth_lookup_Some _ _ _ _ Hkth).
  split; [|split].
  - eapply Permutation_in; [exact Hperm|].
    apply list_elem_of_In. eapply list_elem_of_lookup_2, Hkth.
  - rewrite <- Hperm. rewrite <- (take_drop (k - 1)%nat vals), filter_app.
    rewrite (filter_none _ (drop (k - 1)%nat vals)).
    + rewrite app_nil_r.
      eapply Nat.le_lt_trans; [apply length_filter|]. rewrite length_take. lia.
    + apply Forall_forall. intros x Hx.
      apply list_elem_of_lookup in Hx as (j & Hj). rewrite lookup_drop in Hj.
      intros Hlt. apply Is_true_true in Hlt.
      assert (Hle : logit_leb x kth = true).
      { destruct j as [|j].
        - rewrite Nat.add_0_r in Hj. rewrite Hkth in Hj. injection Hj as <-.
          apply logit_leb_refl.
        - apply (sorted_lookup _ _ Hsorted (k - 1)%nat (k - 1 + S j)%nat kth x Hkth Hj). lia. }
      apply logit_ltb_leb in Hle. congruence.
  - rewrite <- Hperm. rewrite <- (take_drop k vals), filter_app, length_app.
    rewrite (filter_all _ (take k vals)).
    + rewrite length_take. lia.
    + apply Forall_forall. intros x Hx.
      apply elem_of_take in Hx as (j & Hj & Hlt).
      apply Is_true_true.
      destruct (Nat.eq_dec j (k - 1)%nat) as [-> | Hne].
      * rewrite Hkth in Hj. injection Hj as <-. apply logit_leb_refl.
      * apply (sorted_lookup _ _ Hsorted j (k - 1)%nat x kth Hj Hkth). lia.
Qed.

(** X3.  With [top_k] positive and the top-p part off, [top_filtering] sets to
    minus infinity exactly the entries smaller than the [k]-th largest one,
    [k] being [top_k] cut to the size of the tensor: at least [k] entries
    survive (more when the [k]-th largest value is tied), and fewer than [k]
    entries are larger than that value. *)
Theorem top_k_filtering (logits : list logit) (top_k : Z) (top_p : Q) :
  0 < top_k ->
  logits <> [] ->
  (top_p <= 0)%Q ->
  exists kth : logit,
    In kth logits /\
    (length (filter (fun l => Is_true (logit_ltb kth l)) logits)
     < Z.to_nat (Z.min top_k (Z.of_nat (length logits))))%nat /\
    (Z.to_nat (Z.min top_k (Z.of_nat (length logits)))
     <= length (filter (fun l => Is_true (logit_leb kth l)) logits))%nat /\
    top_filtering logits top_k top_p NegInf NegInf =
      Ok (map (fun l => if logit_ltb l kth then NegInf else l) logits).
Proof.
  intros Hk Hne Hp.
  assert (Hn : (1 <= length logits)%nat) by (destruct logits; [congruence | simpl; lia]).
  set (k := Z.to_nat (Z.min top_k (Z.of_nat (length logits)))).
  destruct (kth_largest logits k ltac:(lia)) as (Hin & Hlt & Hge).
  exists (topk_last logits k). split; [exact Hin|]. split; [exact Hlt|]. split; [exact Hge|].
  rewrite top_filtering_stages. unfold top_k_stage.
  destruct (Z.ltb_spec 0 (Z.min top_k (Z.of_nat (length logits)))) as [_|]; [|lia].
  fold k. rewrite mask_fill_map.
  unfold top_p_stage. apply Qltb_ge in Hp. rewrite Hp. cbn [rbind].
  now rewrite mask_fill_below_NegInf.
Qed.

End TopK.

Section NoFiltering.

Context `{Torch} `{!TorchLaws}.

(** X4.  [top_k <= 0] switches the top-k part off, and so does a [top_k] of at
    least the size of the tensor (it is cut to the size, and no entry is
    smaller than the smallest); [top_p <= 0] switches the top-p part off.
    With both off and the default threshold the tensor is returned as it
    is. *)
Theorem top_filtering_off (logits : list logit) (top_k : Z) (top_p : Q)
    (filter_value : logit) :
  top_k <= 0 \/ Z.of_nat (length logits) <= top_k ->
  (top_p <= 0)%Q ->
  top_filtering logits top_k top_p NegInf filter_value = Ok logits.
Proof.
  intros Hk Hp. rewrite top_filtering_stages.
  assert (E : top_k_stage logits top_k filter_value = logits).
  { unfold top_k_stage.
    destruct (Z.ltb_spec 0 (Z.min top_k (Z.of_nat (length logits)))) as [Hpos|]; [|reflexivity].
    destruct Hk as [Hk | Hk]; [lia|].
    replace (Z.min top_k (Z.of_nat (length logits))) with (Z.of_nat (length logits)) in * by lia.
    rewrite Nat2Z.id, mask_fill_map.
    transitivity (map (fun l : logit => l) logits); [|apply List.map_id].
    apply map_ext_in. intros l Hl.
    replace (logit_ltb l (topk_last logits (length logits))) with false; [reflexivity|].
    symmetry. apply logit_ltb_leb. unfold topk_last.
    assert (Hperm := sorted_values_perm logits).
    assert (Hlen := Permutation_length Hperm).
    assert (Hsorted := sorted_values_desc logits).
    set (vals := fst (torch_sort_desc logits)) in *.
    destruct (lookup_lt_is_Some_2 vals (length logits - 1)%nat) as [kth Hkth]; [lia|].
    rewrite (nth_lookup_Some _ _ _ _ Hkth).
    eapply Permutation_in in Hl; [|symmetry; exact Hperm].
    apply list_elem_of_In, list_elem_of_lookup in Hl as (j & Hj).
    pose proof (lookup_lt_Some _ _ _ Hj) as Hjlt.
    destruct (Nat.eq_dec j (length logits - 1)%nat) as [-> | Hne].
    - rewrite Hkth in Hj. injection Hj as <-. apply logit_leb_refl.
    - apply (sorted_lookup _ _ Hsorted j (length logits - 1)%nat l kth Hj Hkth). lia. }
  rewrite E. unfold top_p_stage. apply Qltb_ge in Hp. rewrite Hp. cbn [rbind].
  now rewrite mask_fill_below_NegInf.
Qed.

End NoFiltering.

(** ** sample_sequence: the reply and the warning *)

Section ReplyFacts.

Context `{TrainId} `{Torch} `{!Externals}.

Lemma memZ_In (x : Z) (xs : list Z) : memZ x xs = true <-> In x xs.
Proof.
  unfold memZ. rewrite existsb_exists. split.
  - intros (y & Hy & E). apply Z.eqb_eq in E. now subst.
  - intros Hx. exists x. split; [exact Hx | apply Z.eqb_refl].
Qed.

Lemma memZ_not_In (x : Z) (xs : list Z) : memZ x xs = false <-> ~ In x xs.
Proof.
  rewrite <- memZ_In. destruct (memZ x xs); split; intros; congruence.
Qed.

(** X6.  A finished call of [sample_sequence] returns the tokens it was given
    ([current_output], none by default) followed by at most [max_length] new
    tokens, none of which is the id of a special token. *)
Theorem sample_sequence_reply (fuel : nat) (personality history : list (list Z))
    (model : seq2seq) (args : Args) (lang : string) (special_map : gmap string Z)
    (current_output : option (list Z)) (out : list Z) (w w' : world) :
  sample_sequence fuel personality history model args lang special_map current_output w
    = (Ok out, w') ->
  exists (special_tokens_ids new : list Z),
    rmap (getitem special_map) SPECIAL_TOKENS = Ok special_tokens_ids /\
    out = default [] current_output ++ new /\
    (length new <= Z.to_nat (max_length args))%nat /\
    Forall (fun t => ~ In t special_tokens_ids) new.
Proof.
  unfold sample_sequence. intros E.
  inv_bind_as E ids w1. apply lift_Ok in Hstep as [Hids ->].
  inv_bind_as E out1 w2. inv_bind E. apply ret_Ok in E as [-> _].
  pose proof (decode_loop_length _ _ _ _ _ _ _ _ _ _ _ _ _ _ Hstep) as Hlen.
  apply decode_loop_extends in Hstep as (new & -> & Hnew).
  exists ids, new. split; [exact Hids|]. split; [reflexivity|]. split.
  - rewrite length_app in Hlen. lia.
  - eapply Forall_impl; [exact Hnew|]. intros t Ht. now apply memZ_not_In.
Qed.

End ReplyFacts.

Section WarningFacts.

Context `{TrainId} `{Torch} `{!Externals}.

Lemma draw_warnings (probs : list float32) (w w' : world) (r : result nat) :
  draw probs w = (r, w') -> warnings w' = warnings w.
Proof.
  unfold draw. destruct (multinomial probs (rng_state w)) as [x g].
  intros E. injection E as _ <-. reflexivity.
Qed.

(** The resampling loop ends with a token that is not special and without a
    warning, or, when the largest probability is 1, with a special token and
    one warning. *)
Lemma resample_post (fuel : nat) (probs : list float32) (ids : list Z) :
  forall (prev p : nat) (w w' : world),
    resample fuel probs ids prev w = (Ok p, w') ->
    (memZ (Z.of_nat p) ids = false /\ warnings w' = warnings w) \/
    (memZ (Z.of_nat p) ids = true /\ max_is_one probs = true /\
     warnings w' = warnings w ++ [SPECIAL_TOKEN_WARNING]).
Proof.
  induction fuel as [|fuel IH]; intros prev p w w' E; cbn [resample] in E;
    destruct (memZ (Z.of_nat prev) ids) eqn:Hprev;
    try (apply ret_Ok in E as [-> ->]; left; split; [exact Hprev | reflexivity]);
    destruct (max_is_one probs) eqn:Hmax.
  - inv_bind E. apply ret_Ok in E as [-> ->].
    injection Hstep as _ <-. right. repeat split; assumption.
  - discriminate.
  - inv_bind E. apply ret_Ok in E as [-> ->].
    injection Hstep as _ <-. right. repeat split; assumption.
  - inv_bind E. apply draw_warnings in Hstep.
    apply IH in E. rewrite Hstep in E. exact E.
Qed.

Lemma decode_loop_warning (fuel : nat) (model : seq2seq) (args : Args)
    (personality history : list (list Z)) (lang : string)
    (special_map : gmap string Z) (ids : list Z) (n : nat) :
  forall (i : Z) (current_output out : list Z) (w w' : world),
    decode_loop fuel model args personality history lang special_map ids n i
      current_output w = (Ok out, w') ->
    (warnings w' = warnings w \/ warnings w' = warnings w ++ [SPECIAL_TOKEN_WARNING]) /\
    ((length out < length current_output + n)%nat ->
     i + Z.of_nat (length out - length current_output) < min_length args ->
     warnings w' = warnings w ++ [SPECIAL_TOKEN_WARNING]).
Proof.
  induction n as [|n IH]; intros i current_output out w w' E.
  - apply ret_Ok in E as [-> ->]. split; [now left | lia].
  - cbn [decode_loop] in E.
    inv_bind_as E inst w1. apply lift_Ok in Hstep as [_ ->].
    inv_bind_as E logits w2. apply lift_Ok in Hstep as [_ ->].
    inv_bind_as E filtered w3. apply lift_Ok in Hstep as [_ ->].
    inv_bind_as E prev w4.
    assert (Hw4 : warnings w4 = warnings w).
    { destruct (no_sample args).
      - apply lift_Ok in Hstep as [_ ->]. reflexivity.
      - eapply draw_warnings, Hstep. }
    inv_bind_as E prev' w5.
    assert (Hstep' :
      (memZ (Z.of_nat prev') ids = false /\ warnings w5 = warnings w) \/
      (memZ (Z.of_nat prev') ids = true /\
       (((i <? min_length args)%Z = true /\
         warnings w5 = warnings w ++ [SPECIAL_TOKEN_WARNING]) \/
        ((i <? min_length args)%Z = false /\ warnings w5 = warnings w)))).
    { destruct (i <? min_length args)%Z eqn:Hi; cbn [andb] in Hstep0.
      - destruct (memZ (Z.of_nat prev) ids) eqn:Hprev.
        + apply resample_post in Hstep0 as [[Hp Hw] | (Hp & _ & Hw)].
          * left. split; [exact Hp | congruence].
          * right. split; [exact Hp|]. left. split; [reflexivity | congruence].
        + apply ret_Ok in Hstep0 as [-> ->]. left. split; [exact Hprev | exact Hw4].
      - apply ret_Ok in Hstep0 as [-> ->].
        destruct (memZ (Z.of_nat prev) ids) eqn:Hprev.
        + right. split; [reflexivity|]. right. split; [reflexivity | exact Hw4].
        + left. split; [reflexivity | exact Hw4]. }
    destruct Hstep' as [[Hp Hw5] | [Hp Hcase]]; rewrite Hp in E.
    + pose proof (decode_loop_extends _ _ _ _ _ _ _ _ _ _ _ _ _ _ E) as (new & -> & _).
      apply IH in E as [Hw Hshort]. rewrite Hw5 in Hw, Hshort.
      split; [exact Hw|]. intros Hlt Hmin. apply Hshort.
      * rewrite !length_app in *. simpl in *. lia.
      * rewrite !length_app in *. simpl in *. lia.
    + apply ret_Ok in E as [-> ->].
      destruct Hcase as [[Hi Hw5] | [Hi Hw5]].
      * split; [now right | intros _ _; exact Hw5].
      * split; [now left|]. intros _ Hmin.
        rewrite Nat.sub_diag in Hmin. apply Z.ltb_ge in Hi. lia.
Qed.

(** X8.  A call of [sample_sequence] on no given output issues at most one
    warning, and it issues it whenever the reply it returns is shorter than
    both [min_length] and [max_length]: the loop was left on a special token
    of probability 1. *)
Theorem short_reply_is_warned (fuel : nat) (personality history : list (list Z))
    (model : seq2seq) (args : Args) (lang : string) (special_map : gmap string Z)
    (out : list Z) (w w' : world) :
  sample_sequence fuel personality history model args lang special_map None w
    = (Ok out, w') ->
  (warnings w' = warnings w \/ warnings w' = warnings w ++ [SPECIAL_TOKEN_WARNING]) /\
  (Z.of_nat (length out) < min_length args ->
   Z.of_nat (length out) < max_length args ->
   warnings w' = warnings w ++ [SPECIAL_TOKEN_WARNING]).
Proof.
  unfold sample_sequence. intros E.
  inv_bind_as E ids w1. apply lift_Ok in Hstep as [_ ->].
  inv_bind_as E out1 w2. inv_bind E. apply ret_Ok in E as [-> ->].
  injection Hstep0 as _ <-. cbn [warnings].
  apply decode_loop_warning in Hstep as [Hw Hshort].
  split; [exact Hw|]. intros Hmin Hmax. apply Hshort; simpl; lia.
Qed.

Lemma decode_loop_no_warning (fuel : nat) (model : seq2seq) (args : Args)
    (personality history : list (list Z)) (lang : string)
    (special_map : gmap string Z) (ids : list Z) (n : nat) :
  min_length args <= 0 ->
  forall (i : Z) (current_output : list Z) (w w' : world) (r : result (list Z)),
    0 <= i ->
    decode_loop fuel model args personality history lang special_map ids n i
      current_output w = (r, w') ->
    warnings w' = warnings w.
Proof.
  intros Hmin. induction n as [|n IH]; intros i current_output w w' r Hi E.
  - injection E as _ <-. reflexivity.
  - cbn [decode_loop] in E.
    destruct (Z.ltb_spec i (min_length args)) as [|_]; [lia|]. cbn [andb] in E.
    unfold bind at 1 in E. unfold lift at 1 in E.
    destruct (build_input_from_segments _ _ _ _ _ _ _) as [inst| |];
      try (injection E as _ <-; reflexivity).
    unfold bind at 1 in E. unfold lift at 1 in E.
    destruct (model _ _ _ _ _ _) as [logits| |];
      try (injection E as _ <-; reflexivity).
    unfold bind at 1 in E. unfold lift at 1 in E.
    destruct (top_filtering _ _ _ _ _) as [filtered| |];
      try (injection E as _ <-; reflexivity).
    unfold bind at 1 in E.
    destruct ((if no_sample args then lift (topk1 (softmax filtered))
               else draw (softmax filtered)) w) as [r1 w1] eqn:Hprev.
    assert (Hw1 : warnings w1 = warnings w).
    { destruct (no_sample args).
      - injection Hprev as _ <-. reflexivity.
      - eapply draw_warnings, Hprev. }
    destruct r1 as [prev| |]; try (injection E as _ <-; exact Hw1).
    unfold bind at 1 in E. unfold ret at 1 in E.
    destruct (memZ (Z.of_nat prev) ids).
    + injection E as _ <-. exact Hw1.
    + rewrite <- Hw1. eapply (IH (i + 1)); [lia | exact E].
Qed.

(** X7.  With [min_length] at most 0 the branch that holds the resampling
    loop is never taken, so [sample_sequence] never issues its warning,
    whatever it returns or raises: a reply cut short by a special token, even
    an empty one, comes without a warning. *)
Theorem no_warning_without_min_length (fuel : nat) (personality history : list (list Z))
    (model : seq2seq) (args : Args) (lang : string) (special_map : gmap string Z)
    (current_output : option (list Z)) (r : result (list Z)) (w w' : world) :
  min_length args <= 0 ->
  sample_sequence fuel personality history model args lang special_map current_output w
    = (r, w') ->
  warnings w' = warnings w.
Proof.
  intros Hmin. unfold sample_sequence. intros E.
  unfold bind at 1 in E. unfold lift at 1 in E.
  destruct (rmap (getitem special_map) SPECIAL_TOKENS) as [ids| |];
    try (injection E as _ <-; reflexivity).
  unfold bind at 1 in E.
  destruct (decode_loop fuel model args personality history lang special_map ids
              (Z.to_nat (max_length args)) 0 (default [] current_output) w)
    as [r1 w1] eqn:Hloop.
  apply decode_loop_no_warning in Hloop; [|assumption|lia].
  destruct r1 as [out| |]; injection E as _ <-; exact Hloop.
Qed.

End WarningFacts.

(** ** build_input_from_segments: when it succeeds *)

Section SegmentErrors.

Context `{TrainId}.

Lemma rmap_getitem_Ok (m : gmap string Z) (ts : list string) :
  (exists vs, rmap (getitem m) ts = Ok vs /\ length vs = length ts) <->
  (forall t, In t ts -> is_Some (m !! t)).
Proof.
  induction ts as [|t ts IH]; simpl.
  - split; [intros _ t [] | intros _; exists []; split; reflexivity].
  - split.
    + intros (vs & E & Hlen) t' [<- | Hin].
      * unfold getitem in E. destruct (m !! t) as [v|]; [eauto | discriminate].
      * apply rbind_Ok in E as (v & _ & E). apply rbind_Ok in E as (vs' & Hvs & E).
        injection E as <-. simpl in Hlen. apply (proj1 IH); [|exact Hin].
        exists vs'. split; [exact Hvs | lia].
    + intros Hall. destruct (Hall t (or_introl eq_refl)) as [v Hv].
      destruct (proj2 IH (fun t' Ht' => Hall t' (or_intror Ht'))) as (vs & Hvs & Hlen).
      exists (v :: vs). unfold getitem at 1. rewrite Hv. simpl. rewrite Hvs. simpl.
      split; [reflexivity | lia].
Qed.

Lemma rmap_length {A B : Type} (f : A -> result B) (xs : list A) (ys : list B) :
  rmap f xs = Ok ys -> length ys = length xs.
Proof.
  revert ys. induction xs as [|x xs IH]; simpl; intros ys E.
  - now injection E as <-.
  - apply rbind_Ok in E as (y & _ & E). apply rbind_Ok in E as (ys' & Hys & E).
    injection E as <-. simpl. now rewrite (IH ys' Hys).
Qed.

(** X12.  [build_input_from_segments] returns an instance exactly when
    [SPECIAL_TOKENS] has at least five tokens, the first five are keys of
    the special-token map, and so is the language tag; when only the
    language tag is missing, the exception is the [KeyError] of that tag. *)
Theorem build_input_from_segments_succeeds
    (persona history : list (list Z)) (reply : list Z) (lang : string)
    (special_map : gmap string Z) (with_labels with_eos : bool) :
  ((exists inst,
       build_input_from_segments persona history reply lang special_map
         with_labels with_eos = Ok inst) <->
   (5 <= length SPECIAL_TOKENS)%nat /\
   (forall t, In t (take 5 SPECIAL_TOKENS) -> is_Some (special_map !! t)) /\
   is_Some (special_map !! lang)) /\
  ((5 <= length SPECIAL_TOKENS)%nat ->
   (forall t, In t (take 5 SPECIAL_TOKENS) -> is_Some (special_map !! t)) ->
   special_map !! lang = None ->
   build_input_from_segments persona history reply lang special_map
     with_labels with_eos = Raise (KeyError lang)).
Proof.
  assert (Hfive : (5 <= length SPECIAL_TOKENS)%nat ->
            (forall t, In t (take 5 SPECIAL_TOKENS) -> is_Some (special_map !! t)) ->
            exists bos eos persona_token speaker1 speaker2,
              rmap (getitem special_map) (take 5 SPECIAL_TOKENS)
                = Ok [bos; eos; persona_token; speaker1; speaker2]).
  { intros Hlen Hall.
    destruct (proj2 (rmap_getitem_Ok special_map (take 5 SPECIAL_TOKENS)) Hall)
      as (vs & Hvs & Hl).
    rewrite length_take in Hl.
    replace (Nat.min 5 (length SPECIAL_TOKENS)) with 5%nat in Hl by lia.
    destruct vs as [|a [|b [|c [|d [|e [|? ?]]]]]]; cbn [length] in Hl; try lia.
    now exists a, b, c, d, e. }
  split; [split|].
  - intros (inst & E). unfold build_input_from_segments in E.
    apply rbind_Ok in E as (specials & Hsp & E).
    pose proof (rmap_length _ _ _ Hsp) as Hlen. rewrite length_take in Hlen.
    destruct specials as [|a [|b [|c [|d [|e [|? ?]]]]]]; try discriminate.
    apply rbind_Ok in E as (lang_tok & Hlang & _).
    cbn [length] in Hlen.
    split; [lia|]. split.
    + apply rmap_getitem_Ok. eexists. split; [exact Hsp|].
      rewrite length_take. cbn [length]. lia.
    + unfold getitem in Hlang. destruct (special_map !! lang); [eauto | discriminate].
  - intros (Hlen & Hall & [v Hv]).
    destruct (Hfive Hlen Hall) as (a & b & c & d & e & Hsp).
    unfold build_input_from_segments. rewrite Hsp. cbn [rbind].
    unfold getitem. rewrite Hv. cbn [rbind]. eauto.
  - intros Hlen Hall Hnone.
    destruct (Hfive Hlen Hall) as (a & b & c & d & e & Hsp).
    unfold build_input_from_segments. rewrite Hsp. cbn [rbind].
    unfold getitem. rewrite Hnone. reflexivity.
Qed.

End SegmentErrors.

(** ** run: the tables, the two modes and the record of a conversation *)

(** X15.  Every language that the prompt accepts has its entry in [LANG_MAP] and
    its three starters: the lookups [LANG_MAP[lang]] and [starters[lang]] of
    [run] cannot raise [KeyError]. *)
Theorem accepted_languages_have_entries (entry : string) :
  In entry LANGUAGES ->
  exists lang_name candidates,
    LANG_MAP !! ("<" +:+ entry +:+ ">") = Some lang_name /\
    starters !! ("<" +:+ entry +:+ ">") = Some candidates /\
    length candidates = 3%nat.
Proof.
  unfold LANGUAGES. simpl.
  intros [<- | [<- | [<- | [<- | [<- | [<- | [<- | []]]]]]]];
    eexists _, _; (split; [vm_compute; reflexivity|]);
    (split; [vm_compute; reflexivity | reflexivity]).
Qed.

Section ModeFacts.

Context `{TrainId} `{Torch} `{!Externals}.

Variables (fuel : nat) (tok : tokenizer) (model : seq2seq) (args : Args).
Variables (lang : string) (special_map : gmap string Z).

Lemma interactive_loop_never_returns (personality : list (list Z)) (turns : nat) :
  forall (h : list (list Z)) (w w' : world),
    interactive_loop turns fuel tok model args lang special_map personality h w
    <> (Ok tt, w').
Proof.
  induction turns as [|turns IH]; intros h w w' E; cbn [interactive_loop] in E.
  - discriminate.
  - inv_bind E. exact (IH _ _ _ E).
Qed.

(** X17.  Without personas for the language, both modes end with the
    [IndexError] of [random.choice]: self-play after the separator line of
    the first conversation, the interactive mode before its first prompt. *)
Theorem no_persona_raises (h : list (list Z)) (w : world) :
  self_play_mode fuel tok model args lang special_map [] h w =
    (Raise IndexError,
     console w (stdin w) ["==================================================="]) /\
  interactive_mode fuel tok model args lang special_map [] h w = (Raise IndexError, w).
Proof. split; reflexivity. Qed.

(** X18.  One interactive turn: the reply is generated from the history as the
    previous turn left it plus the new entry, and the window is applied only
    after the reply is appended; with [max_turns] at least 1 it then holds
    at most [max_turns] utterances. *)
Theorem interactive_turn_conditioning (personality : list (list Z))
    (h h' : list (list Z)) (w w' : world) :
  interactive_turn fuel tok model args lang special_map personality h w = (Ok h', w') ->
  exists raw_text out,
    raw_text <> "" /\
    calls w' = calls w ++ [(h ++ [encode tok raw_text], out)] /\
    h' = window args (h ++ [encode tok raw_text; out]) /\
    (1 <= max_turns args -> Z.of_nat (length h') <= max_turns args).
Proof.
  unfold interactive_turn. intros E.
  inv_bind_as E raw w1. inv_bind_as E out w2. inv_bind E.
  apply ret_Ok in E as [-> ->].
  unfold read_prompt in Hstep.
  pose proof (ask_Ok_valid _ _ _ _ _ _ Hstep) as Hraw. apply nonempty_valid in Hraw.
  apply ask_Ok_world in Hstep as (_ & Hc1).
  apply sample_sequence_effect in Hstep0 as (_ & _ & _ & Hc2).
  apply print_Ok in Hstep1 as (_ & _ & _ & Hc3).
  exists raw, out. split; [exact Hraw|]. split; [congruence|].
  rewrite <- app_assoc. split; [reflexivity|].
  intros Hm. now apply window_length.
Qed.

End ModeFacts.

Section RunModes.

Context `{TrainId} `{Torch} `{!Externals}.

(** X19.  Without [--self_play], [run] never returns: it ends with an exception
    (the [EOFError] of a console that ends, or a failure on the way) or goes
    on taking turns. *)
Theorem interactive_run_never_returns (fuel : nat) (cl : CommandLine) (w w' : world) :
  opt_self_play cl = false ->
  run fuel cl w <> (Ok tt, w').
Proof.
  intros Hsp E. unfold run in E.
  inv_bind_as E args w0. apply lift_Ok in Hstep as [Hargs ->].
  do 12 (inv_bind E).
  rewrite (parse_args_self_play cl args Hargs), Hsp in E.
  unfold interactive_mode in E. inv_bind E.
  exact (interactive_loop_never_returns _ _ _ _ _ _ _ _ _ _ _ E).
Qed.

End RunModes.

Section ConversationRecord.

Context `{TrainId} `{Torch} `{!Externals}.

Variables (fuel : nat) (tok : tokenizer) (model : seq2seq) (args : Args).
Variables (lang : string) (special_map : gmap string Z).

Lemma turns_printed (p1 p2 : list (list Z)) (n : nat) :
  forall (i : nat) (h h' : list (list Z)) (d d' : list turn) (w w' : world),
    for_range n i (self_play_turn fuel tok model args lang special_map p1 p2) (h, d) w
      = (Ok (h', d'), w') ->
    exists outs,
      length outs = n /\
      d' = d ++ turns_from tok lang i outs /\
      stdout w' = stdout w ++ map text (turns_from tok lang i outs) /\
      files w' = files w.
Proof.
  induction n as [|n IH]; intros i h h' d d' w w' E; cbn [for_range] in E.
  - apply ret_Ok in E as [E ->]. injection E as -> ->.
    exists []. simpl. rewrite !app_nil_r. repeat split.
  - inv_bind E. destruct a as [h1 d1].
    unfold self_play_turn in Hstep.
    inv_bind_as Hstep out w1. inv_bind Hstep.
    apply ret_Ok in Hstep as [Hst ->]. injection Hst as -> ->.
    apply sample_sequence_effect in Hstep0 as (_ & Ho1 & Hf1 & _).
    apply print_Ok in Hstep1 as (_ & Ho2 & Hf2 & _).
    apply IH in E as (outs & Hlen & -> & Ho & Hf).
    exists (out :: outs). simpl. rewrite Hlen, Ho, Ho2, Ho1, Hf, Hf2, Hf1.
    rewrite <- !app_assoc. repeat split.
Qed.

Lemma turns_from_speaker (outs : list (list Z)) :
  forall (i k : nat) (e : turn),
    turns_from tok lang i outs !! k = Some e ->
    speaker e = if Nat.odd (i + k) then "human_evaluator" else "model".
Proof.
  induction outs as [|o outs IH]; intros i k e Hk; [discriminate|].
  destruct k as [|k]; simpl in Hk.
  - injection Hk as <-. simpl. now rewrite Nat.add_0_r.
  - apply IH in Hk. rewrite Hk. now replace (i + S k)%nat with (S i + k)%nat by lia.
Qed.

(** X20.  A finished conversation appends to the transcript file of the language
    one dumped transcript and one newline.  The transcript has fourteen
    entries, spoken in turn by [human_evaluator] (the starter and every
    second reply) and [model]; and what the conversation printed after the
    separator line is the text of these entries, in order. *)
Theorem conversation_record (personalities : list (list (list Z))) (j : nat)
    (h h' : list (list Z)) (w w' : world) :
  conversation fuel tok model args lang special_map personalities j h w = (Ok h', w') ->
  exists (t : transcript) (lang_name : string),
    LANG_MAP !! lang = Some lang_name /\
    files w' =
      <[transcript_path lang_name :=
          default [] (files w !! transcript_path lang_name) ++ [Dump t; Text newline]]>
        (files w) /\
    length (dialog t) = 14%nat /\
    (forall k e, dialog t !! k = Some e ->
                 speaker e = if Nat.even k then "human_evaluator" else "model") /\
    stdout w' =
      stdout w ++ "===================================================" :: map text (dialog t).
Proof.
  unfold conversation. intros E.
  inv_bind E. apply print_Ok in Hstep as (_ & Ho0 & Hf0 & _).
  inv_bind E. apply choice_Ok in Hstep as (_ & _ & Ho1 & Hf1 & _).
  inv_bind E. apply choice_Ok in Hstep as (_ & _ & Ho2 & Hf2 & _).
  inv_bind E. apply lift_Ok in Hstep as [_ ->].
  inv_bind_as E starter w5. apply choice_Ok in Hstep as (_ & _ & Ho3 & Hf3 & _).
  inv_bind E. apply print_Ok in Hstep as (_ & Ho4 & Hf4 & _).
  inv_bind_as E st w7. destruct st as [h1 d1].
  apply turns_printed in Hstep as (outs & Hlen & -> & Ho5 & Hf5).
  inv_bind_as E name w8. apply lift_Ok in Hstep as [Hname ->].
  inv_bind E. apply append_file_Ok in Hstep as (_ & Ho6 & _ & Hf6).
  apply ret_Ok in E as [_ ->].
  unfold getitem in Hname.
  destruct (LANG_MAP !! lang) as [lang_name|] eqn:Hl; [|discriminate].
  injection Hname as <-.
  exists (Transcript ([Turn "human_evaluator" starter] ++ turns_from tok lang 0 outs)),
         lang_name.
  cbn [snd dialog] in *.
  split; [reflexivity|]. split; [|split; [|split]].
  - rewrite Hf6, Hf5, Hf4, Hf3, Hf2, Hf1, Hf0. reflexivity.
  - simpl. now rewrite turns_from_length, Hlen.
  - intros k e Hk. destruct k as [|k]; simpl in Hk.
    + now injection Hk as <-.
    + apply turns_from_speaker in Hk. rewrite Hk, Nat.even_succ. reflexivity.
  - rewrite Ho6, Ho5, Ho4, Ho3, Ho2, Ho1, Ho0. simpl.
    rewrite <- !app_assoc. reflexivity.
Qed.

End ConversationRecord.

(** ** sample_sequence: greedy decoding and missing special tokens *)

Section GreedyFacts.

Context `{TrainId} `{Torch} `{!Externals}.

Lemma decode_loop_greedy (fuel : nat) (model : seq2seq) (args : Args)
    (personality history : list (list Z)) (lang : string)
    (special_map : gmap string Z) (ids : list Z) (n : nat) :
  no_sample args = true ->
  min_length args <= 0 ->
  forall (i : Z) (current_output : list Z) (w w' : world) (r : result (list Z)),
    0 <= i ->
    decode_loop fuel model args personality history lang special_map ids n i
      current_output w = (r, w') ->
    w' = w.
Proof.
  intros Hgreedy Hmin. induction n as [|n IH]; intros i current_output w w' r Hi E.
  - injection E as _ <-. reflexivity.
  - cbn [decode_loop] in E. rewrite Hgreedy in E.
    destruct (Z.ltb_spec i (min_length args)) as [|_]; [lia|]. cbn [andb] in E.
    unfold bind, lift, ret in E.
    destruct (build_input_from_segments _ _ _ _ _ _ _) as [inst| |];
      try (injection E as _ <-; reflexivity).
    destruct (model _ _ _ _ _ _) as [logits| |];
      try (injection E as _ <-; reflexivity).
    destruct (top_filtering _ _ _ _ _) as [filtered| |];
      try (injection E as _ <-; reflexivity).
    destruct (topk1 _) as [prev| |];
      try (injection E as _ <-; reflexivity).
    destruct (memZ (Z.of_nat prev) ids).
    + injection E as _ <-. reflexivity.
    + eapply (IH (i + 1)); [lia | exact E].
Qed.

(** X9.  Greedy decoding without a minimal length is deterministic: with
    [--no_sample] and [min_length] at most 0, [sample_sequence] draws no
    random number and issues no warning, whatever it returns.  (With a
    positive [min_length] the resampling loop draws from [torch.multinomial]
    in greedy mode too.) *)
Theorem greedy_decoding_draws_nothing (fuel : nat) (personality history : list (list Z))
    (model : seq2seq) (args : Args) (lang : string) (special_map : gmap string Z)
    (current_output : option (list Z)) (r : result (list Z)) (w w' : world) :
  no_sample args = true ->
  min_length args <= 0 ->
  sample_sequence fuel personality history model args lang special_map current_output w
    = (r, w') ->
  rng_state w' = rng_state w /\ warnings w' = warnings w /\
  stdin w' = stdin w /\ stdout w' = stdout w /\ files w' = files w.
Proof.
  intros Hgreedy Hmin. unfold sample_sequence. intros E.
  unfold bind at 1 in E. unfold lift at 1 in E.
  destruct (rmap (getitem special_map) SPECIAL_TOKENS) as [ids| |];
    try (injection E as _ <-; repeat split).
  unfold bind at 1 in E.
  destruct (decode_loop fuel model args personality history lang special_map ids
              (Z.to_nat (max_length args)) 0 (default [] current_output) w)
    as [r1 w1] eqn:Hloop.
  apply decode_loop_greedy in Hloop; [|assumption|assumption|lia]. subst w1.
  destruct r1 as [out| |]; injection E as _ <-; repeat split.
Qed.

Lemma rmap_getitem_missing (m : gmap string Z) (present : list string) (t : string)
    (rest : list string) :
  (forall t', In t' present -> is_Some (m !! t')) ->
  m !! t = None ->
  rmap (getitem m) (present ++ t :: rest) = Raise (KeyError t).
Proof.
  intros Hall Hnone. induction present as [|p present IH]; simpl.
  - unfold getitem. now rewrite Hnone.
  - destruct (Hall p (or_introl eq_refl)) as [v Hv].
    unfold getitem at 1. rewrite Hv. cbn [rbind].
    rewrite IH; [reflexivity|]. intros t' Ht'. apply Hall. now right.
Qed.

(** X10.  When a token of [SPECIAL_TOKENS] is not a key of the special-token map,
    [sample_sequence] raises the [KeyError] of the first such token before
    anything else: the world is left as it is. *)
Theorem sample_sequence_missing_special_token (fuel : nat)
    (personality history : list (list Z)) (model : seq2seq) (args : Args)
    (lang : string) (special_map : gmap string Z) (current_output : option (list Z))
    (present : list string) (t : string) (rest : list string) (w : world) :
  SPECIAL_TOKENS = present ++ t :: rest ->
  (forall t', In t' present -> is_Some (special_map !! t')) ->
  special_map !! t = None ->
  sample_sequence fuel personality history model args lang special_map current_output w
    = (Raise (KeyError t), w).
Proof.
  intros Hst Hall Hnone. unfold sample_sequence.
  rewrite Hst, (rmap_getitem_missing special_map present t rest Hall Hnone).
  reflexivity.
Qed.

(** X11.  Whatever [sample_sequence] returns, a reply or an exception, it reads
    nothing from the console, prints nothing and writes no file: the random
    state and the warnings are all it may change. *)
Theorem sample_sequence_keeps_console_and_files (fuel : nat)
    (personality history : list (list Z)) (model : seq2seq) (args : Args)
    (lang : string) (special_map : gmap string Z) (current_output : option (list Z))
    (r : result (list Z)) (w w' : world) :
  sample_sequence fuel personality history model args lang special_map current_output w
    = (r, w') ->
  stdin w' = stdin w /\ stdout w' = stdout w /\ files w' = files w.
Proof.
  unfold sample_sequence. intros E.
  unfold bind at 1 in E. unfold lift at 1 in E.
  destruct (rmap (getitem special_map) SPECIAL_TOKENS) as [ids| |];
    try (injection E as _ <-; repeat split).
  unfold bind at 1 in E.
  destruct (decode_loop fuel model args personality history lang special_map ids
              (Z.to_nat (max_length args)) 0 (default [] current_output) w)
    as [r1 w1] eqn:Hloop.
  apply quietly_decode_loop in Hloop as (E1 & E2 & E3 & _).
  destruct r1 as [out| |]; injection E as _ <-; repeat split; assumption.
Qed.

End GreedyFacts.

(** ** run: a dataset without the split or the language *)

Section DatasetFacts.

Context `{TrainId} `{Torch} `{!Externals}.

(** X16.  Once everything is loaded and a language of the list is entered first,
    a dataset without the ["test"] split, or whose ["test"] split lacks the
    language, ends [run] with the [KeyError] of the missing key: the
    language prompt is all that was printed, and no conversation started. *)
Theorem dataset_lookup_raises (fuel : nat) (cl : CommandLine) (args : Args)
    (tok : tokenizer) (cfg : config) (model model' : seq2seq) (f : string)
    (special_map : gmap string Z) (data : dataset)
    (entry lang_name : string) (rest : list string) (w : world) :
  parse_args cl = Ok args ->
  tokenizer_from_pretrained (model_checkpoint args) = Ok tok ->
  config_from_pretrained (model_checkpoint args) = Ok cfg ->
  model_from_pretrained (model_checkpoint args) (set_is_decoder cfg) = Ok model ->
  open_read (model_checkpoint args +:+ "/added_tokens.json") = Ok f ->
  json_load f = Ok special_map ->
  load_state_dict model (model_checkpoint args +:+ "/pytorch_model.bin") = Ok model' ->
  stdin w = entry :: rest ->
  In entry LANGUAGES ->
  LANG_MAP !! ("<" +:+ entry +:+ ">") = Some lang_name ->
  get_dataset tok (dataset_path args) (dataset_cache args) = Ok data ->
  let w1 := console (snd (seed_all (seed args) w)) rest [LANGUAGE_PROMPT] in
  (data !! "test" = None -> run fuel cl w = (Raise (KeyError "test"), w1)) /\
  (forall test,
      data !! "test" = Some test ->
      test !! lang_name = None ->
      run fuel cl w = (Raise (KeyError lang_name), w1)).
Proof.
  intros Hargs Htok Hcfg Hmodel Hopen Hjson Hload Hin Hentry Hname Hdata w1.
  destruct (seed_all_world (seed args) w) as (Hok & Hstdin & _).
  assert (Hlang : choose_language (snd (seed_all (seed args) w)) = (Ok entry, w1)).
  { unfold choose_language.
    rewrite (ask_accepts _ _ _ [] entry rest).
    - reflexivity.
    - constructor.
    - now apply mem_string_In.
    - rewrite Hstdin. exact Hin. }
  subst w1. destruct (seed_all (seed args) w) as [r w0] eqn:Es.
  simpl in Hok. subst r. cbn [snd] in *.
  unfold run, bind, lift. rewrite Hargs. cbv beta iota.
  rewrite Es, Htok, Hcfg, Hmodel, Hopen, Hjson, Hload, Hlang, Hdata.
  unfold getitem.
  split.
  - intros ->. reflexivity.
  - intros test -> Hnone. rewrite Hname, Hnone. reflexivity.
Qed.

End DatasetFacts.

(** ** The further properties on concrete runs *)

Section MoreRuns.

Import Demo DemoMore.

Lemma top_filtering_shape_witness :
  top_filtering [Fin 0; Fin 3; Fin 2] 1 (6 # 10) NegInf NegInf = Ok [NegInf; Fin 3; NegInf] /\
  length [NegInf; Fin 3; NegInf] = length [Fin 0; Fin 3; Fin 2].
Proof.
  assert (E : top_filtering [Fin 0; Fin 3; Fin 2] 1 (6 # 10) NegInf NegInf
              = Ok [NegInf; Fin 3; NegInf]) by (vm_compute; reflexivity).
  exact (conj E (proj1 (top_filtering_shape _ _ _ _ _ _ E))).
Defined.

Lemma top_filtering_empty_witness :
  top_filtering [] 5 (1 # 2) NegInf NegInf = Raise IndexError.
Proof.
  apply (proj1 (top_filtering_empty 5 (1 # 2) NegInf NegInf)). reflexivity.
Defined.

Lemma top_k_filtering_witness :
  exists kth : logit,
    In kth [Fin 0; Fin 3; Fin 2] /\
    (length (filter (fun l => Is_true (logit_ltb kth l)) [Fin 0; Fin 3; Fin 2])
     < Z.to_nat (Z.min 2 (Z.of_nat (length [Fin 0; Fin 3; Fin 2]))))%nat /\
    (Z.to_nat (Z.min 2 (Z.of_nat (length [Fin 0; Fin 3; Fin 2])))
     <= length (filter (fun l => Is_true (logit_leb kth l)) [Fin 0; Fin 3; Fin 2]))%nat /\
    top_filtering [Fin 0; Fin 3; Fin 2] 2 0 NegInf NegInf =
      Ok (map (fun l => if logit_ltb l kth then NegInf else l) [Fin 0; Fin 3; Fin 2]).
Proof.
  apply (top_k_filtering [Fin 0; Fin 3; Fin 2] 2 0).
  - lia.
  - discriminate.
  - discriminate.
Defined.

Lemma top_filtering_off_witness :
  top_filtering [Fin 0; Fin 3; Fin 2] 7 0 NegInf NegInf = Ok [Fin 0; Fin 3; Fin 2].
Proof.
  apply top_filtering_off.
  - right. simpl. lia.
  - discriminate.
Defined.

Lemma sample_sequence_reply_witness :
  exists (special_tokens_ids new : list Z),
    rmap (getitem demo_special_map) SPECIAL_TOKENS = Ok special_tokens_ids /\
    [50; 13; 14] = default [] (Some [50]) ++ new /\
    (length new <= Z.to_nat (max_length fast_args))%nat /\
    Forall (fun t => ~ In t special_tokens_ids) new.
Proof.
  assert (E : ok_value (fst (sample_sequence 20 [[20; 21]] [[40; 41]] demo_model fast_args
                               "<en>" demo_special_map (Some [50]) (demo_world [])))
              = Some [50; 13; 14])
    by (vm_compute; reflexivity).
  apply ok_value_fst in E.
  exact (sample_sequence_reply _ _ _ _ _ _ _ _ _ _ _ E).
Defined.

Lemma no_warning_without_min_length_witness :
  warnings (snd (sample_sequence 20 [[20; 21]] [[40; 41]] eos_model free_args "<en>"
                   demo_special_map None (demo_world [])))
  = warnings (demo_world []).
Proof.
  exact (no_warning_without_min_length 20 [[20; 21]] [[40; 41]] eos_model free_args
           "<en>" demo_special_map None _ (demo_world []) _
           ltac:(simpl; lia) (surjective_pairing _)).
Defined.

Lemma short_reply_is_warned_witness :
  warnings (snd (sample_sequence 20 [[20; 21]] [[40; 41]] eos_model fast_args "<en>"
                   demo_special_map None (demo_world [])))
  = warnings (demo_world []) ++ [SPECIAL_TOKEN_WARNING].
Proof.
  assert (E : ok_value (fst (sample_sequence 20 [[20; 21]] [[40; 41]] eos_model fast_args
                               "<en>" demo_special_map None (demo_world [])))
              = Some [])
    by (vm_compute; reflexivity).
  apply ok_value_fst in E.
  apply (proj2 (short_reply_is_warned _ _ _ _ _ _ _ _ _ _ E)); simpl; lia.
Defined.

Lemma build_input_from_segments_succeeds_witness :
  build_input_from_segments [[20; 21]] [[30]] [40] "<xx>" demo_special_map true false
  = Raise (KeyError "<xx>").
Proof.
  apply (proj2 (build_input_from_segments_succeeds [[20; 21]] [[30]] [40] "<xx>"
                  demo_special_map true false)).
  - simpl. lia.
  - simpl. intros t [<- | [<- | [<- | [<- | [<- | []]]]]]; vm_compute; eauto.
  - vm_compute. reflexivity.
Defined.

Lemma accepted_languages_have_entries_witness :
  exists lang_name candidates,
    LANG_MAP !! ("<" +:+ "ko" +:+ ">") = Some lang_name /\
    starters !! ("<" +:+ "ko" +:+ ">") = Some candidates /\
    length candidates = 3%nat.
Proof.
  apply accepted_languages_have_entries. simpl. tauto.
Defined.

Lemma interactive_turn_conditioning_witness :
  exists raw_text out,
    raw_text <> "" /\
    calls (snd (interactive_turn 20 demo_tokenizer demo_model fast_args "<en>"
                  demo_special_map [[20; 21]] [[60]] (demo_world [""; "hi"])))
    = calls (demo_world [""; "hi"]) ++ [([[60]] ++ [encode demo_tokenizer raw_text], out)] /\
    [[60]; [117; 118]; [13; 14]]
    = window fast_args ([[60]] ++ [encode demo_tokenizer raw_text; out]) /\
    (1 <= max_turns fast_args ->
     Z.of_nat (length [[60]; [117; 118]; [13; 14]]) <= max_turns fast_args).
Proof.
  assert (E : ok_value (fst (interactive_turn 20 demo_tokenizer demo_model fast_args "<en>"
                               demo_special_map [[20; 21]] [[60]]
                               (demo_world [""; "hi"])))
              = Some [[60]; [117; 118]; [13; 14]])
    by (vm_compute; reflexivity).
  apply ok_value_fst in E.
  exact (interactive_turn_conditioning _ _ _ _ _ _ _ _ _ _ _ E).
Defined.

Lemma interactive_run_never_returns_witness :
  run 20 demo_command_line (demo_world ["en"]) <> (Ok tt, demo_world []).
Proof.
  apply interactive_run_never_returns. reflexivity.
Defined.

Lemma conversation_record_witness :
  exists (t : transcript) (lang_name : string),
    LANG_MAP !! "<en>" = Some lang_name /\
    length (dialog t) = 14%nat /\
    stdout (snd (conversation 20 demo_tokenizer demo_model fast_args "<en>"
                   demo_special_map [[[20; 21]]] 0 [] (demo_world [])))
    = stdout (demo_world []) ++
      "===================================================" :: map text (dialog t).
Proof.
  assert (E : ok_value (fst (conversation 20 demo_tokenizer demo_model fast_args "<en>"
                               demo_special_map [[[20; 21]]] 0 [] (demo_world [])))
              = Some [[13; 14]; [13; 14]; [13; 14]])
    by (vm_compute; reflexivity).
  apply ok_value_fst in E.
  destruct (conversation_record _ _ _ _ _ _ _ _ _ _ _ _ E)
    as (t & lang_name & Hname & _ & Hlen & _ & Hout).
  exists t, lang_name. exact (conj Hname (conj Hlen Hout)).
Defined.

Lemma turn_window_bounded_witness :
  Z.of_nat (length [[60]; [117; 118]; [13; 14]]) <= max_turns fast_args.
Proof.
  assert (E : ok_value (fst (interactive_turn 20 demo_tokenizer demo_model fast_args "<en>"
                               demo_special_map [[20; 21]] [[60]]
                               (demo_world [""; "hi"])))
              = Some [[60]; [117; 118]; [13; 14]])
    by (vm_compute; reflexivity).
  apply ok_value_fst in E.
  apply (proj1 (turn_window_bounded 20 demo_tokenizer demo_model fast_args "<en>"
                  demo_special_map ltac:(simpl; lia))
           _ _ _ _ _ E).
Defined.

Lemma temperature_flag_needs_int_witness :
  exists z, py_int "2" = Some z /\
            temperature
              {| dataset_path := ""; dataset_cache := "./dataset_cache";
                 model_type := "bert"; model_checkpoint := "ckpt"; max_turns := 3;
                 device := "cpu"; no_sample := false; max_length := 20;
                 min_length := 1; seed := 0; temperature := (2 # 1)%Q;
                 top_k := 0; top_p := (9 # 10)%Q; self_play := false |}
            = inject_Z z.
Proof.
  apply (temperature_flag_needs_int integer_temperature_command_line _ "2").
  - vm_compute. reflexivity.
  - reflexivity.
Defined.

Lemma greedy_decoding_draws_nothing_witness :
  rng_state (snd (sample_sequence 20 [[20; 21]] [[40; 41]] demo_model greedy_args "<en>"
                    demo_special_map None (demo_world [])))
  = rng_state (demo_world []).
Proof.
  exact (proj1 (greedy_decoding_draws_nothing 20 [[20; 21]] [[40; 41]] demo_model
                  greedy_args "<en>" demo_special_map None _ (demo_world []) _
                  eq_refl ltac:(simpl; lia) (surjective_pairing _))).
Defined.

Lemma sample_sequence_missing_special_token_witness :
  sample_sequence 20 [[20; 21]] [[40; 41]] demo_model demo_args "<en>"
    partial_special_map None (demo_world [])
  = (Raise (KeyError "<pad>"), demo_world []).
Proof.
  apply (sample_sequence_missing_special_token 20 [[20; 21]] [[40; 41]] demo_model
           demo_args "<en>" partial_special_map None
           ["<bos>"; "<eos>"; "<persona>"; "<speaker1>"; "<speaker2>";
            "<en>"; "<fr>"; "<it>"; "<id>"; "<jp>"; "<ko>"; "<zh>"] "<pad>" []).
  - reflexivity.
  - simpl.
    intros t [<- | [<- | [<- | [<- | [<- | [<- | [<- | [<- | [<- | [<- | [<- | [<- | []]]]]]]]]]]]];
      vm_compute; eauto.
  - vm_compute. reflexivity.
Defined.

Lemma dataset_lookup_raises_witness :
  @run demo_train_id _ no_split_externals 20 demo_command_line
    no_split_world
  = (Raise (KeyError "test"),
     @console _ no_split_externals no_split_world ["hi"] [LANGUAGE_PROMPT]).
Proof.
  assert (Hargs : @parse_args _ no_split_externals demo_command_line = Ok demo_args)
    by (vm_compute; reflexivity).
  apply (proj1 (@dataset_lookup_raises demo_train_id _ no_split_externals
                  20 demo_command_line demo_args demo_tokenizer false demo_model demo_model
                  "{}" demo_special_map ∅ "en" "En" ["hi"] no_split_world
                  Hargs eq_refl eq_refl eq_refl eq_refl eq_refl eq_refl eq_refl
                  ltac:(simpl; tauto) ltac:(vm_compute; reflexivity) eq_refl)).
  reflexivity.
Defined.

Lemma sample_sequence_keeps_console_and_files_witness :
  stdout (snd (sample_sequence 20 [[20; 21]] [[40; 41]] demo_model fast_args "<en>"
                 demo_special_map (Some [50]) (demo_world ["hello"])))
  = stdout (demo_world ["hello"]).
Proof.
  exact (proj1 (proj2 (sample_sequence_keeps_console_and_files 20 [[20; 21]] [[40; 41]]
                         demo_model fast_args "<en>" demo_special_map (Some [50]) _
                         (demo_world ["hello"]) _ (surjective_pairing _)))).
Defined.

End MoreRuns.
